(** * Broker transport of the RPC client (broker_rpc.py)

    A shallow embedding of [RPCConnection], [VistARPCConnection],
    [CIARPCConnection] and [RPCConnectionPool], of the parameter
    classes and [Connection] of vavista/rpc.py that call them, and of
    [encrypt] with the table of lightweight_python_client; and the
    properties of the framing engine, the handshake, the request
    grammars, the obfuscation cipher and the pool that were checked
    against it.

    A method is a function from the state it runs in (its instance and
    the environment) to its outcome and the state it leaves. The
    environment holds what the coming calls of [randint], [connect],
    [send] and [recv] will give, so that a run of the source is the run
    of the model for the lists of what these calls gave, and a trace of
    what the client did to its sockets. The logger only prints and is
    left out; [send] is taken to send all of its argument. *)

From Stdlib Require Import String Ascii NArith ZArith Arith Lia Bool List.
From Stdlib Require Import Strings.Byte RelationClasses.
From Equations Require Import Equations.
Import ListNotations.
Local Open Scope list_scope.

(** ** Python values *)

(** A [str] is a sequence of Unicode code points, a [bytes] value a
    sequence of bytes. *)
Abbreviation char := N (only parsing).
Abbreviation str := (list N) (only parsing).
Abbreviation bytes := (list byte) (only parsing).

(** The code points of a literal of the source. *)
Definition u (s : string) : str := map N_of_ascii (list_ascii_of_string s).

(** The double quote, which the literals below cannot hold. *)
Definition dq : char := 34%N.

(** A parameter of an RPC: a string, or a [dict] of strings, whose
    items come in insertion order. *)
Inductive param : Type :=
| Scalar (s : str)
| Keyed (d : list (str * str)).

(** The exceptions the transport raises or lets through. *)
Inductive exn : Type :=
| SocketError                       (* socket.error, an alias of OSError *)
| AttributeError
| IndexError
| TypeError
| ValueError
| UnicodeEncodeError
| UnicodeDecodeError
| Exception (tag msg : str).        (* raise Exception(tag, msg) *)

(** Outcome of a call: a value, a raised exception, or no return at all
    (a blocking call that never completes, or a scenario that says
    nothing more about what the environment does). *)
Inductive result (A : Type) : Type :=
| Ok (a : A)
| Raise (e : exn)
| NoReturn.
Arguments Ok {A} a.
Arguments Raise {A} e.
Arguments NoReturn {A}.

(** Calls that read or change a state [S]. *)
Definition M (S A : Type) : Type := S -> result A * S.

Definition ret {S A} (a : A) : M S A := fun s => (Ok a, s).
Definition raise {S A} (e : exn) : M S A := fun s => (Raise e, s).
Definition bind {S A B} (m : M S A) (k : A -> M S B) : M S B :=
  fun s =>
    match m s with
    | (Ok a, s') => k a s'
    | (Raise e, s') => (Raise e, s')
    | (NoReturn, s') => (NoReturn, s')
    end.
Definition lift {S A} (r : result A) : M S A := fun s => (r, s).
Definition gets {S A} (f : S -> A) : M S A := fun s => (Ok (f s), s).
Definition modify {S} (f : S -> S) : M S unit := fun s => (Ok tt, f s).

Declare Scope py_scope.
Delimit Scope py_scope with py.
Notation "x <- m ;; k" := (bind m (fun x => k))
  (at level 61, m at next level, right associativity) : py_scope.
Notation "m ;; k" := (bind m (fun _ => k))
  (at level 61, right associativity) : py_scope.
Local Open Scope py_scope.

(** [try: body / except socket.error: handler]. *)
Definition try_except_socket_error {S A} (body handler : M S A) : M S A :=
  fun s =>
    match body s with
    | (Raise SocketError, s') => handler s'
    | r => r
    end.

(** Pure code that may raise. *)
Definition rbind {A B} (r : result A) (k : A -> result B) : result B :=
  match r with
  | Ok a => k a
  | Raise e => Raise e
  | NoReturn => NoReturn
  end.

Fixpoint mapR {A B} (f : A -> result B) (l : list A) : result (list B) :=
  match l with
  | [] => Ok []
  | a :: l' => rbind (f a) (fun b => rbind (mapR f l') (fun bs => Ok (b :: bs)))
  end.

(** [chr(n)]: the one-character string of code point [n]. *)
Definition chr (n : N) : result char :=
  if (n <? 0x110000)%N then Ok n else Raise ValueError.

(** A [dict] with [str] keys: its items in insertion order. [d[k] = v]
    replaces the value of a key that is there and keeps its place, and
    puts a new key last; [d.get(k)] looks a key up. *)
Fixpoint dict_set {V} (k : str) (v : V) (d : list (str * V)) : list (str * V) :=
  match d with
  | [] => [(k, v)]
  | (k', v') :: d' =>
    if list_eq_dec N.eq_dec k k' then (k', v) :: d' else (k', v') :: dict_set k v d'
  end.

Fixpoint dict_get {V} (k : str) (d : list (str * V)) : option V :=
  match d with
  | [] => None
  | (k', v') :: d' => if list_eq_dec N.eq_dec k k' then Some v' else dict_get k d'
  end.

(** ** UTF-8, as [str.encode('utf-8')] and [bytes.decode('utf-8')] *)

Definition byte_of_N (n : N) : byte :=
  match Byte.of_N (n mod 256) with
  | Some b => b
  | None => x00
  end.

Definition is_surrogate (c : N) : bool := ((0xD800 <=? c) && (c <? 0xE000))%N.

Definition encode_char (c : char) : result bytes :=
  if (c <? 0x80)%N then Ok [byte_of_N c]
  else if (c <? 0x800)%N then
    Ok [byte_of_N (0xC0 + c / 64); byte_of_N (0x80 + c mod 64)]
  else if (c <? 0x10000)%N then
    if is_surrogate c then Raise UnicodeEncodeError
    else Ok [byte_of_N (0xE0 + c / 4096); byte_of_N (0x80 + (c / 64) mod 64);
             byte_of_N (0x80 + c mod 64)]
  else if (c <? 0x110000)%N then
    Ok [byte_of_N (0xF0 + c / 262144); byte_of_N (0x80 + (c / 4096) mod 64);
        byte_of_N (0x80 + (c / 64) mod 64); byte_of_N (0x80 + c mod 64)]
  else Raise UnicodeEncodeError.

Fixpoint encode (s : str) : result bytes :=
  match s with
  | [] => Ok []
  | c :: s' => rbind (encode_char c) (fun b => rbind (encode s') (fun bs => Ok (b ++ bs)))
  end.

Definition is_cont (b : byte) : bool :=
  ((0x80 <=? Byte.to_N b) && (Byte.to_N b <? 0xC0))%N.
Definition cont (b : byte) : N := (Byte.to_N b - 0x80)%N.

Fixpoint decode (bs : bytes) : result str :=
  match bs with
  | [] => Ok []
  | b0 :: r0 =>
    let n0 := Byte.to_N b0 in
    if (n0 <? 0x80)%N then rbind (decode r0) (fun s => Ok (n0 :: s))
    else if (n0 <? 0xC2)%N then Raise UnicodeDecodeError
    else if (n0 <? 0xE0)%N then
      match r0 with
      | b1 :: r1 =>
        if is_cont b1
        then rbind (decode r1) (fun s => Ok (((n0 - 0xC0) * 64 + cont b1)%N :: s))
        else Raise UnicodeDecodeError
      | _ => Raise UnicodeDecodeError
      end
    else if (n0 <? 0xF0)%N then
      match r0 with
      | b1 :: b2 :: r2 =>
        let c := ((n0 - 0xE0) * 4096 + cont b1 * 64 + cont b2)%N in
        if is_cont b1 && is_cont b2 && (0x800 <=? c)%N && negb (is_surrogate c)
        then rbind (decode r2) (fun s => Ok (c :: s))
        else Raise UnicodeDecodeError
      | _ => Raise UnicodeDecodeError
      end
    else if (n0 <? 0xF5)%N then
      match r0 with
      | b1 :: b2 :: b3 :: r3 =>
        let c := ((n0 - 0xF0) * 262144 + cont b1 * 4096 + cont b2 * 64 + cont b3)%N in
        if is_cont b1 && is_cont b2 && is_cont b3
           && (0x10000 <=? c)%N && (c <? 0x110000)%N
        then rbind (decode r3) (fun s => Ok (c :: s))
        else Raise UnicodeDecodeError
      | _ => Raise UnicodeDecodeError
      end
    else Raise UnicodeDecodeError
  end.

(** ** The environment: random numbers and the network *)

(** What one [sock.recv(256)] does: it returns some bytes (none when the
    peer has closed the connection) or raises a socket error. *)
Inductive recv_result : Type :=
| Chunk (b : bytes)
| RecvError.

(** What the client did to its sockets, oldest first. *)
Inductive event : Type :=
| EConnect (fd : nat) (host : str) (port : Z)
| ESend (fd : nat) (data : bytes)
| EClose (fd : nat).

(** The environment of a run. The lists give, in call order, what the
    next [randint(0, 18)], [sock.connect], [sock.send] and [sock.recv]
    will do; where a list is exhausted, [connect] and [send] succeed and
    [recv] reports that the peer has closed. [local_ip] is what resolving
    the local host name gives. [live] holds the sockets that are
    connected and not closed. *)
Record World : Type := mkWorld {
  rand : list nat;
  local_ip : result str;
  connects : list bool;
  sends : list bool;
  recvs : list recv_result;
  next_fd : nat;
  live : list nat;
  trace : list event
}.

Definition with_rand (r : list nat) (w : World) : World :=
  mkWorld r (local_ip w) (connects w) (sends w) (recvs w) (next_fd w) (live w) (trace w).
Definition with_connects (c : list bool) (w : World) : World :=
  mkWorld (rand w) (local_ip w) c (sends w) (recvs w) (next_fd w) (live w) (trace w).
Definition with_sends (c : list bool) (w : World) : World :=
  mkWorld (rand w) (local_ip w) (connects w) c (recvs w) (next_fd w) (live w) (trace w).
Definition with_recvs (r : list recv_result) (w : World) : World :=
  mkWorld (rand w) (local_ip w) (connects w) (sends w) r (next_fd w) (live w) (trace w).
Definition with_next_fd (n : nat) (w : World) : World :=
  mkWorld (rand w) (local_ip w) (connects w) (sends w) (recvs w) n (live w) (trace w).
Definition with_live (l : list nat) (w : World) : World :=
  mkWorld (rand w) (local_ip w) (connects w) (sends w) (recvs w) (next_fd w) l (trace w).
Definition log (e : event) (w : World) : World :=
  mkWorld (rand w) (local_ip w) (connects w) (sends w) (recvs w) (next_fd w) (live w)
          (trace w ++ [e]).

Definition is_live (fd : nat) (w : World) : bool := existsb (Nat.eqb fd) (live w).

(** [randint(0, 18)]. *)
Definition randint : M World nat := fun w =>
  match rand w with
  | [] => (NoReturn, w)
  | r :: rest => (Ok r, with_rand rest w)
  end.

(** [socket.gethostbyname(socket.gethostname())]. *)
Definition gethostbyname : M World str := fun w => (local_ip w, w).

(** [socket.socket(AF_INET, SOCK_STREAM)]: a new, unconnected socket. *)
Definition socket_new : M World nat := fun w =>
  (Ok (next_fd w), with_next_fd (S (next_fd w)) w).

(** [sock.connect((host, port))]. *)
Definition sock_connect (fd : nat) (host : str) (port : Z) : M World unit := fun w =>
  let w := log (EConnect fd host port) w in
  match connects w with
  | false :: rest => (Raise SocketError, with_connects rest w)
  | true :: rest => (Ok tt, with_live (fd :: live w) (with_connects rest w))
  | [] => (Ok tt, with_live (fd :: live w) w)
  end.

(** [sock.send(data)]; on a socket that is closed or was never connected
    it raises [OSError]. *)
Definition sock_send (fd : nat) (data : bytes) : M World unit := fun w =>
  let w := log (ESend fd data) w in
  if is_live fd w then
    match sends w with
    | false :: rest => (Raise SocketError, with_sends rest w)
    | true :: rest => (Ok tt, with_sends rest w)
    | [] => (Ok tt, w)
    end
  else (Raise SocketError, w).

(** [sock.close()], which never raises. *)
Definition sock_close (fd : nat) : M World unit := fun w =>
  (Ok tt, with_live (filter (fun x => negb (x =? fd)) (live w)) (log (EClose fd) w)).

(** ** class RPCConnection *)

Module RPCConnection.

(** The table [CIPHER]. *)

Definition CIPHER : list str :=
  [
    u "wkEo-ZJt!dG)49K{nX1BS$vH<&:Myf*>Ae0jQW=;|#PsO`'%+rmb[gpqN,l6/hFC@DcUa ]z~R}" ++ dq :: u "V\iIxu?872.(TYL5_3";
    u "rKv`R;M/9BqAF%&tSs#Vh)dO1DZP> *fX'u[.4lY=-mg_ci802N7LTG<]!CWo:3?{+,5Q}(@jaExn$~p\IyHwzU" ++ dq :: u "|k6Jeb";
    u "\pV(ZJk" ++ dq :: u "WQmCn!Y,y@1d+~8s?[lNMxgHEt=uw|X:qSLjAI*}6zoF{T3#;ca)/h5%`P4$r]G'9e2if_>UDKb7<v0&- RBO.";
    u "depjt3g4W)qD0V~NJar\B " ++ dq :: u "?OYhcu[<Ms%Z`RIL_6:]AX-zG.#}$@vk7/5x&*m;(yb2Fn+l'PwUof1K{9,|EQi>H=CT8S!";
    u "NZW:1}K$byP;jk)7'`x90B|cq@iSsEnu,(l-hf.&Y_?J#R]+voQXU8mrV[!p4tg~OMez CAaGFD6H53%L/dT2<*>" ++ dq :: u "{\wI=";
    u "vCiJ<oZ9|phXVNn)m K`t/SI%]A5qOWe\&?;jT~M!fz1l>[D_0xR32c*4.P" ++ dq :: u "G{r7}E8wUgyudF+6-:B=$(sY,LkbHa#'@Q";
    u "hvMX,'4Ty;[a8/{6l~F_V" ++ dq :: u "}qLI\!@x(D7bRmUH]W15J%N0BYPkrs&9:$)Zj>u|zwQ=ieC-oGA.#?tfdcO3gp`S+En K2*<";
    u "jd!W5[];4'<C$/&x|rZ(k{>?ghBzIFN}fAK" ++ dq :: u "#`p_TqtD*1E37XGVs@0nmSe+Y6Qyo-aUu%i8c=H2vJ\) R:MLb.9,wlO~P";
    u "2ThtjEM+!=xXb)7,ZV{*ci3" ++ dq :: u "8@_l-HS69L>]\AUF/Q%:qD?1~m(yvO0e'<#o$p4dnIzKP|`NrkaGg.ufCRB[; sJYwW}5&";
    u "vB\5/zl-9y:Pj|=(R'7QJI *&CTX" ++ dq :: u "p0]_3.idcuOefVU#omwNZ`$Fs?L+1Sk<,b)hM4A6[Y%aDrg@~KqEW8t>H};n!2xG{";
    u "sFz0Bo@_HfnK>LR}qWXV+D6`Y28=4Cm~G/7-5A\b9!a#rP.l&M$hc3ijQk;),TvUd<[:I" ++ dq :: u "u1'NZSOw]*gxtE{eJp|y (?%";
    u "M@,D}|LJyGO8`$*ZqH .j>c~h<d=fimszv[#-53F!+a;NC'6T91IV?(0x&/{B)w" ++ dq :: u "]Q\YUWprk4:ol%g2nE7teRKbAPuS_X";
    u ".mjY#_0*H<B=Q+FML6]s;r2:e8R}[ic&KA 1w{)vV5d,$u" ++ dq :: u "~xD/Pg?IyfthO@CzWp%!`N4Z'3-(o|J9XUE7k\TlqSb>anG";
    u "xVa1']_GU<X`|\NgM?LS9{" ++ dq :: u "jT%s$}y[nvtlefB2RKJW~(/cIDCPow4,>#zm+:5b@06O3Ap8=*7ZFY!H-uEQk; .q)i&rhd";
    u "I]Jz7AG@QX." ++ dq :: u "%3Lq>METUo{Pp_ |a6<0dYVSv8:b)~W9NK`(r'4fs&wim\kReC2hg=HOj$1B*/nxt,;c#y+![?lFuZ-5D}";
    u "Rr(Ge6F Hx>q$m&C%M~Tn,:" ++ dq :: u "o'tX/*yP.{lZ!YkiVhuw_<KE5a[;}W0gjsz3]@7cI2\QN?f#4p|vb1OUBD9)=-LJA+d`S8";
    u "I~k>y|m};d)-7DZ" ++ dq :: u "Fe/Y<B:xwojR,Vh]O0Sc[`$sg8GXE!1&Qrzp._W%TNK(=J 3i*2abuHA4C'?Mv\Pq{n#56LftUl@9+";
    u "~A*>9 WidFN,1KsmwQ)GJM{I4:C%}#Ep(?HB/r;t.&U8o|l['Lg" ++ dq :: u "2hRDyZ5`nbf]qjc0!zS-TkYO<_=76a\X@$Pe3+xVvu";
    u "yYgjf" ++ dq :: u "5VdHc#uA,W1i+v'6|@pr{n;DJ!8(btPGaQM.LT3oe?NB/&9>Z`-}02*%x<7lsqz4OS ~E$\R]KI[:UwC_=h)kXmF";
    u "5:iar.{YU7mBZR@-K|2 " ++ dq :: u "+~`M%8sq4JhPo<_X\Sg3WC;Tuxz,fvEQ1p9=w}FAI&j/keD0c?)LN6OHV]lGy'$*>nd[(tb!#"
  ].


(** An instance: the fields set by [__init__] ([logger] apart, which
    only prints). [sock] is [None] or the handle of a socket object. *)
Record t : Type := mk {
  host : str;
  port : Z;
  access : str;
  verify : str;
  context : str;
  endMark : char;
  poolId : Z;
  sock : option nat
}.

Definition init (host : str) (port : Z) (access verify context : str)
           (endMark : char) (poolId : Z) : t :=
  mk host port access verify context endMark poolId None.

Definition with_sock (s : option nat) (c : t) : t :=
  mk (host c) (port c) (access c) (verify c) (context c) (endMark c) (poolId c) s.

(** A method runs on its instance and the environment. *)
Definition St : Type := (t * World)%type.
Definition self (st : St) : t := fst st.
Definition world (st : St) : World := snd st.

Definition liftW {A} (m : M World A) : M St A := fun st =>
  let (r, w) := m (world st) in (r, (self st, w)).

(** [self.sock.<method>]: looking up a method of [None] raises. *)
Definition the_sock : M St nat := fun st =>
  match sock (self st) with
  | Some fd => (Ok fd, st)
  | None => (Raise AttributeError, st)
  end.

(** [self.sock.send(s.encode('utf-8'))]. *)
Definition send (s : str) : M St unit :=
  fd <- the_sock ;;
  data <- lift (encode s) ;;
  liftW (sock_send fd data).

(** [connect] of the base class. *)
Definition connect : M St unit :=
  s <- gets (fun st => sock (self st)) ;;
  match s with
  | Some fd => liftW (sock_close fd)
  | None => ret tt
  end ;;
  fd <- liftW socket_new ;;
  modify (fun st => (with_sock (Some fd) (self st), world st)) ;;
  h <- gets (fun st => host (self st)) ;;
  p <- gets (fun st => port (self st)) ;;
  liftW (sock_connect fd h p).

(** [while ((rb == ra) or (rb == 0)): rb = randint(0, 18)]. *)
Fixpoint redraw_from (ra rb : nat) (draws : list nat) {struct draws}
  : result nat * list nat :=
  if (rb =? ra) || (rb =? 0) then
    match draws with
    | [] => (NoReturn, [])
    | r :: rest => redraw_from ra r rest
    end
  else (Ok rb, draws).

Definition redraw (ra rb : nat) : M World nat := fun w =>
  let (r, rest) := redraw_from ra rb (rand w) in (r, with_rand rest w).

(** [s.find(c)] for a one-character [c]; [None] stands for [-1]. *)
Fixpoint str_find (c : char) (s : str) : option nat :=
  match s with
  | [] => None
  | x :: s' => if (x =? c)%N then Some 0 else option_map S (str_find c s')
  end.

(** [l[i]] for [0 <= i]. *)
Definition index {A} (l : list A) (i : nat) : result A :=
  match nth_error l i with
  | Some a => Ok a
  | None => Raise IndexError
  end.

(** The body of the loop of [encrypt]: what character [c] adds to [cval]. *)
Definition encrypt_char (cra crb : str) (c : char) : result char :=
  match str_find c cra with
  | None => Ok c
  | Some i => index crb i
  end.

Definition encrypt (val : str) : M World bytes :=
  ra <- randint ;;
  rb <- randint ;;
  rb <- redraw ra rb ;;
  cra <- lift (index CIPHER ra) ;;
  crb <- lift (index CIPHER rb) ;;
  sa <- lift (chr (N.of_nat ra + 32)) ;;
  body <- lift (mapR (encrypt_char cra crb) val) ;;
  sb <- lift (chr (N.of_nat rb + 32)) ;;
  lift (encode (sa :: body ++ [sb])).

(** The loop of [readToEndMarker] over what the coming calls of
    [recv(256)] give; each pass takes one of them. [msgChunks] is the
    list of the chunks kept so far. *)
Fixpoint read_chunks (endMark : char) (msgChunks : list str)
         (rs : list recv_result) {struct rs} : result (list str) * list recv_result :=
  match rs with
  | [] => (Ok msgChunks, [])
  | RecvError :: rest => (Raise SocketError, rest)
  | Chunk b :: rest =>
    match decode b with
    | Ok [] => (Ok msgChunks, rest)
    | Ok ((c0 :: _) as msgChunk) =>
      let msgChunk :=
        match msgChunks with
        | [] => if (c0 =? 0)%N then skipn 2 msgChunk else msgChunk
        | _ => msgChunk
        end in
      match msgChunk with
      | [] => (Raise IndexError, rest)
      | _ =>
        if (last msgChunk 0 =? endMark)%N
        then (Ok (msgChunks ++ [removelast msgChunk]), rest)
        else read_chunks endMark (msgChunks ++ [msgChunk]) rest
      end
    | Raise e => (Raise e, rest)
    | NoReturn => (NoReturn, rest)
    end
  end.

Definition readToEndMarker : M St str :=
  fd <- the_sock ;;
  fun st =>
    if is_live fd (world st) then
      let (r, rest) := read_chunks (endMark (self st)) [] (recvs (world st)) in
      (rbind r (fun msgChunks => Ok (concat msgChunks)),
       (self st, with_recvs rest (world st)))
    else (Raise SocketError, st).

Definition close : M St unit :=
  s <- gets (fun st => sock (self st)) ;;
  match s with
  | Some fd =>
    data <- lift (encode (u "#BYE#")) ;;
    liftW (sock_send fd data) ;;
    liftW (sock_close fd)
  | None => ret tt
  end.

Section Engine.

(** The methods of the subclass that [invokeRPC] reaches through [self]. *)
Variable self_connect : M St unit.
Variable self_makeRequest : str -> list param -> M St str.

(** Lines 86 to 89, and again 99 to 102: build the request, send it,
    read the reply. *)
Definition exchange (name : str) (params : list param) : M St str :=
  request <- self_makeRequest name params ;;
  send request ;;
  readToEndMarker.

Definition invokeRPC (name : str) (params : list param) : M St str :=
  s <- gets (fun st => sock (self st)) ;;
  match s with
  | None => self_connect
  | Some _ => ret tt
  end ;;
  msg <- try_except_socket_error (exchange name params) (ret []) ;;
  match msg with
  | [] => self_connect ;; exchange name params
  | _ :: _ => ret msg
  end.

End Engine.

End RPCConnection.

(** ** class VistARPCConnection *)

Module VistARPCConnection.

Import RPCConnection.

Definition init (host : str) (port : Z) (access verify context : str)
           (poolId : Z) : RPCConnection.t :=
  RPCConnection.init host port access verify context 4%N poolId.

(** [str(n)] for [n >= 0]. *)
Fixpoint digits (d : Decimal.uint) : str :=
  match d with
  | Decimal.Nil => []
  | Decimal.D0 d => 48%N :: digits d
  | Decimal.D1 d => 49%N :: digits d
  | Decimal.D2 d => 50%N :: digits d
  | Decimal.D3 d => 51%N :: digits d
  | Decimal.D4 d => 52%N :: digits d
  | Decimal.D5 d => 53%N :: digits d
  | Decimal.D6 d => 54%N :: digits d
  | Decimal.D7 d => 55%N :: digits d
  | Decimal.D8 d => 56%N :: digits d
  | Decimal.D9 d => 57%N :: digits d
  end.
Definition str_of_nat (n : nat) : str := digits (Nat.to_uint n).

(** [s.zfill(3)] for a string of digits. *)
Definition zfill3 (s : str) : str := repeat 48%N (3 - length s) ++ s.

(** [str(len(s)).zfill(3) + str(s)]. *)
Definition lenspec (s : str) : str := zfill3 (str_of_nat (length s)) ++ s.

(** The items of a [dict] parameter, [paramIndex] counting from 1. *)
Fixpoint itemspecs (first : bool) (d : list (str * str)) : str :=
  match d with
  | [] => []
  | (key, val) :: d' =>
    (if first then [] else u "t") ++ lenspec key ++ lenspec val ++ itemspecs false d'
  end.

Definition paramspec (p : param) : str :=
  match p with
  | Scalar s => u "0" ++ lenspec s ++ u "f"
  | Keyed d => u "2" ++ itemspecs true d ++ u "f"
  end.

Definition makeRequest (name : str) (params : list param) (isCommand : bool)
  : result str :=
  let protocoltoken := u "[XWB]1130" in
  let commandtoken := if isCommand then u "4" else u "2" ++ [1%N] ++ u "1" in
  rbind (chr (N.of_nat (length name))) (fun c =>
  let namespec := c :: name in
  let paramsspecs :=
    u "5" ++ match params with
             | [] => u "4" ++ u "f"
             | _ :: _ => concat (map paramspec params)
             end in
  let endtoken := [4%N] in
  Ok (protocoltoken ++ commandtoken ++ namespec ++ paramsspecs ++ endtoken)).

(** [re.match(p, s)] and [re.search(p, s)] for a pattern [p] of plain
    characters: [s] starts with [p], [s] holds [p]. *)
Fixpoint re_match (p s : str) : bool :=
  match p, s with
  | [], _ => true
  | a :: p', b :: s' => (a =? b)%N && re_match p' s'
  | _ :: _, [] => false
  end.
Fixpoint re_search (p s : str) : bool :=
  re_match p s || match s with
                  | [] => false
                  | _ :: s' => re_search p s'
                  end.

Definition handshake_error (connectReply : str) : exn :=
  Exception (u "VistARPCConnection") connectReply.

(** The four steps that follow the TCP connection in [connect]. *)
Definition handshake : M St unit :=
  ip <- liftW gethostbyname ;;
  tcpConnect <- lift (makeRequest (u "TCPConnect")
                        [Scalar ip; Scalar (u "0"); Scalar (u "FMQL")] true) ;;
  send tcpConnect ;;
  connectReply <- readToEndMarker ;;
  if negb (re_match (u "accept") connectReply)
  then raise (handshake_error connectReply) else
  signOn <- lift (makeRequest (u "XUS SIGNON SETUP") [] false) ;;
  send signOn ;;
  connectReply <- readToEndMarker ;;
  av <- gets (fun st => access (self st) ++ u ";" ++ verify (self st)) ;;
  accessVerify <- liftW (encrypt av) ;;
  accessVerify <- lift (decode accessVerify) ;;
  login <- lift (makeRequest (u "XUS AV CODE") [Scalar accessVerify] false) ;;
  send login ;;
  connectReply <- readToEndMarker ;;
  if re_search (u "Not a valid ACCESS CODE/VERIFY CODE pair") connectReply
  then raise (handshake_error connectReply) else
  ctxt <- gets (fun st => context (self st)) ;;
  eMSGCONTEXT <- liftW (encrypt ctxt) ;;
  eMSGCONTEXT <- lift (decode eMSGCONTEXT) ;;
  ctx <- lift (makeRequest (u "XWB CREATE CONTEXT") [Scalar eMSGCONTEXT] false) ;;
  send ctx ;;
  connectReply <- readToEndMarker ;;
  if re_search (u "Application context has not been created") connectReply
     || re_search (u "does not exist on server") connectReply
  then raise (handshake_error connectReply) else
  ret tt.

Definition connect : M St unit :=
  RPCConnection.connect ;;
  handshake.

Definition invokeRPC : str -> list param -> M St str :=
  RPCConnection.invokeRPC connect (fun name params => lift (makeRequest name params false)).

End VistARPCConnection.

(** ** class CIARPCConnection *)

Module CIARPCConnection.

Record t : Type := mk {
  base : RPCConnection.t;
  sequence : Z;
  uid : str
}.

Definition init (host : str) (port : Z) (access verify context : str)
           (poolId : Z) : t :=
  mk (RPCConnection.init host port access verify context 255%N poolId) 0 [].

(** What [__byteIt] is given: a [str], or a [bytes] value such as
    [encrypt] returns. *)
Inductive field : Type :=
| FStr (s : str)
| FBytes (b : bytes).

Definition len (strVal : field) : nat :=
  match strVal with
  | FStr s => length s
  | FBytes b => length b
  end.

(** [while slen != 0: bytes.append(slen & 0xFF); slen = slen >> 8]. *)
Equations? length_bytes (slen : N) : list byte by wf (N.to_nat slen) lt :=
  length_bytes slen with N.eq_dec slen 0 := {
    | left _ => []
    | right _ => byte_of_N (N.land slen 0xFF) :: length_bytes (N.shiftr slen 8)
  }.
Proof.
  change (N.to_nat (N.shiftr slen 8) < N.to_nat slen).
  rewrite N.shiftr_div_pow2.
  assert (slen / 2 ^ 8 < slen)%N by (apply N.div_lt; lia).
  lia.
Qed.

(** [bytearray.append(n)], which wants [0 <= n < 256]. *)
Definition append_byte (n : N) : result byte :=
  match Byte.of_N n with
  | Some b => Ok b
  | None => Raise ValueError
  end.

(** Lines 317 to 329: the length header of a value of [slen] items. *)
Definition length_header (slen : N) : result bytes :=
  let low := (slen mod 16)%N in
  let slen := N.shiftr slen 4 in
  let bytes := length_bytes slen in
  let highCount := N.of_nat (length bytes) in
  rbind (append_byte (N.shiftl highCount 4 + low)) (fun b =>
  Ok (b :: rev bytes)).

(** [__byteIt]; [bytearray(strVal)] takes a [bytes] value and raises
    [TypeError] on a [str], which comes without an encoding. *)
Definition byteIt (strVal : field) : result bytes :=
  rbind (length_header (N.of_nat (len strVal))) (fun fbytes =>
  match strVal with
  | FBytes b => Ok (fbytes ++ b)
  | FStr _ => Raise TypeError
  end).

Definition with_sequence (n : Z) (c : t) : t := mk (base c) n (uid c).

(** [chr(n)] for an [int]; it raises outside the code points. *)
Definition chrZ (n : Z) : result char :=
  if (n <? 0)%Z then Raise ValueError else chr (Z.to_N n).

(** [a + b] and [a += b] where each side is a [str] or a [bytearray]:
    the two must be of one kind. *)
Definition add (a b : field) : result field :=
  match a, b with
  | FStr x, FStr y => Ok (FStr (x ++ y))
  | FBytes x, FBytes y => Ok (FBytes (x ++ y))
  | _, _ => Raise TypeError
  end.

(** The loop of [__makeCIARequest] over the items of [params]:
    [paramsspecs += self.__byteIt(paramId) + chr(0) + self.__byteIt(paramValue)],
    the operands taken from left to right. *)
Fixpoint paramsspecs_loop (paramsspecs : field) (items : list (field * field))
  : result field :=
  match items with
  | [] => Ok paramsspecs
  | (paramId, paramValue) :: rest =>
    rbind (byteIt paramId) (fun a =>
    rbind (chr 0) (fun nul =>
    rbind (add (FBytes a) (FStr [nul])) (fun ab =>
    rbind (byteIt paramValue) (fun b =>
    rbind (add ab (FBytes b)) (fun abc =>
    rbind (add paramsspecs abc) (fun paramsspecs =>
    paramsspecs_loop paramsspecs rest))))))
  end.

(** [__makeCIARequest]; [params] is a [dict], given by its items. *)
Definition makeCIARequest (rtype : str) (params : list (field * field)) : M t field :=
  let headerToken := FStr (u "{CIA}") in
  EODToken <- lift (chr 255) ;;
  modify (fun c => with_sequence (sequence c + 1) c) ;;
  s <- gets sequence ;;
  (if (s =? 256)%Z then modify (with_sequence 1) else ret tt) ;;
  s <- gets sequence ;;
  sequence <- lift (chrZ s) ;;
  brtype <- lift (if list_eq_dec N.eq_dec rtype (u "R") then chr 82 else chr 67) ;;
  paramsspecs <- lift (paramsspecs_loop (FStr []) params) ;;
  lift (rbind (add headerToken (FStr [EODToken])) (fun r =>
        rbind (add r (FStr [sequence])) (fun r =>
        rbind (add r (FStr [brtype])) (fun r =>
        rbind (add r paramsspecs) (fun r =>
        add r (FStr [EODToken])))))).

(** [for i in range(len(params)): rpcParams[str(i+1)] = params[i]],
    from index [i] on. *)
Fixpoint number_params (i : nat) (params : list field) (rpcParams : list (str * field))
  : list (str * field) :=
  match params with
  | [] => rpcParams
  | p :: params' =>
    number_params (S i) params'
                  (dict_set (VistARPCConnection.str_of_nat (i + 1)) p rpcParams)
  end.

(** [makeRequest]; the keys of [rpcParams] are [str] values. *)
Definition makeRequest (rpcName : str) (params : list field) : M t field :=
  ctx <- gets (fun c => RPCConnection.context (base c)) ;;
  uid <- gets uid ;;
  let rpcParams := [(u "CTX", FStr ctx); (u "UID", FStr uid);
                    (u "VER", FStr (u "0")); (u "RPC", FStr rpcName)] in
  let rpcParams := number_params 0 params rpcParams in
  makeCIARequest (u "R") (map (fun kv => (FStr (fst kv), snd kv)) rpcParams).

(** A method of this class runs on its instance and the environment. *)
Definition St : Type := (t * World)%type.

(** A method of the base class, on the fields of the base class. *)
Definition liftBase {A} (m : M RPCConnection.St A) : M St A := fun '(c, w) =>
  let '(r, (b, w')) := m (base c, w) in
  (r, (mk b (sequence c) (uid c), w')).

(** A method that leaves the environment alone. *)
Definition liftSelf {A} (m : M t A) : M St A := fun '(c, w) =>
  let '(r, c') := m c in
  (r, (c', w)).

Section Connect.

(** Lines 277 to 292 of [connect]: what follows the building of the
    first request; left open. *)
Variable connect_rest : field -> M St unit.

(** [connect], lines 269 to 276. *)
Definition connect : M St unit :=
  liftBase RPCConnection.connect ;;
  let uci := [] in
  let myAddress := u "NOTVALID" in
  ciaConnect <- liftSelf (makeCIARequest (u "C")
                            [(FStr (u "IP"), FStr myAddress); (FStr (u "UCI"), FStr uci);
                             (FStr (u "DBG"), FStr (u "0")); (FStr (u "LP"), FStr (u "0"));
                             (FStr (u "VER"), FStr (u "1.6.5.26"))]) ;;
  connect_rest ciaConnect.

End Connect.

End CIARPCConnection.

(** ** class RPCConnectionPool *)

Module RPCConnectionPool.

(** A pooled object is an instance of one of the two classes. *)
Inductive connection : Type :=
| VistA (c : RPCConnection.t)
| CIA (c : CIARPCConnection.t).

(** The pool: the [LifoQueue], its top first, and [poolSize]. *)
Record t : Type := mk {
  connectionQueue : list connection;
  poolSize : Z
}.

Definition str_eqb (a b : str) : bool :=
  if list_eq_dec N.eq_dec a b then true else false.

(** [range(poolSize, 0, -1)]. *)
Definition range_down (poolSize : Z) : list Z :=
  map (fun k => (poolSize - Z.of_nat k)%Z) (seq 0 (Z.to_nat poolSize)).

(** [__init__] with [__prebuildConnections]: the queue starts empty and
    every new connection is put on its top. *)
Definition prebuildConnections (brokerType : str) (poolSize : Z) (host : str)
           (port : Z) (access verify context : str) : t :=
  let put q i :=
    (if str_eqb brokerType (u "CIA")
     then CIA (CIARPCConnection.init host port access verify context i)
     else VistA (VistARPCConnection.init host port access verify context i)) :: q in
  mk (fold_left put (range_down poolSize) []) poolSize.

Definition with_queue (q : list connection) (p : t) : t := mk q (poolSize p).

Section Pool.

(** [invokeRPC] of the class [CIARPCConnection], which this
    development leaves open. *)
Variable cia_invokeRPC : str -> list param -> M (CIARPCConnection.t * World) str.

(** [connection.invokeRPC(name, params)], by the class of [connection]. *)
Definition connection_invokeRPC (name : str) (params : list param)
  : M (connection * World) str := fun '(c, w) =>
  match c with
  | VistA v =>
    let '(r, (v', w')) := VistARPCConnection.invokeRPC name params (v, w) in
    (r, (VistA v', w'))
  | CIA x =>
    let '(r, (x', w')) := cia_invokeRPC name params (x, w) in
    (r, (CIA x', w'))
  end.

(** [get()] on an empty queue blocks; with one caller, for ever. *)
Definition invokeRPC (name : str) (params : list param) : M (t * World) str :=
  fun '(pool, w) =>
    match connectionQueue pool with
    | [] => (NoReturn, (pool, w))
    | connection :: rest =>
      let pool := with_queue rest pool in
      match connection_invokeRPC name params (connection, w) with
      | (Ok reply, (connection, w)) =>
        (Ok reply, (with_queue (connection :: connectionQueue pool) pool, w))
      | (Raise e, (_, w)) => (Raise e, (pool, w))
      | (NoReturn, (_, w)) => (NoReturn, (pool, w))
      end
    end.

End Pool.

Section Preconnect.

(** [connect] of the class [CIARPCConnection], left open as well. *)
Variable cia_connect : M (CIARPCConnection.t * World) unit.

(** [connection.connect()], by the class of [connection]. *)
Definition connection_connect : M (connection * World) unit := fun '(c, w) =>
  match c with
  | VistA v =>
    let '(r, (v', w')) := VistARPCConnection.connect (v, w) in
    (r, (VistA v', w'))
  | CIA x =>
    let '(r, (x', w')) := cia_connect (x, w) in
    (r, (CIA x', w'))
  end.

(** The first loop of [preconnect], [n] passes to go: borrow the top of
    the queue, connect it, keep it in [connections]. *)
Fixpoint connect_each (n : nat) (connections : list connection)
  : M (t * World) (list connection) :=
  match n with
  | O => ret connections
  | S n' => fun '(pool, w) =>
    match connectionQueue pool with
    | [] => (NoReturn, (pool, w))
    | connection :: rest =>
      let pool := with_queue rest pool in
      match connection_connect (connection, w) with
      | (Ok _, (connection, w)) => connect_each n' (connections ++ [connection]) (pool, w)
      | (Raise e, (_, w)) => (Raise e, (pool, w))
      | (NoReturn, (_, w)) => (NoReturn, (pool, w))
      end
    end
  end.

(** The second loop: [put(connections[i])] for each [i]. *)
Fixpoint put_each (range : list nat) (connections : list connection)
  : M (t * World) unit :=
  match range with
  | [] => ret tt
  | i :: range' =>
    connection <- lift (RPCConnection.index connections i) ;;
    modify (fun '(pool, w) => (with_queue (connection :: connectionQueue pool) pool, w)) ;;
    put_each range' connections
  end.

Definition preconnect (number : Z) : M (t * World) unit :=
  size <- gets (fun s => poolSize (fst s)) ;;
  let number := if (number >? size)%Z then size else number in
  connections <- connect_each (Z.to_nat number) [] ;;
  put_each (seq 0 (Z.to_nat number)) connections.

End Preconnect.

End RPCConnectionPool.

(** ** vavista/rpc.py: the parameter classes and [Connection] *)

Module vavista_rpc.

(** What [PList] is made from: a list of pairs, a [dict], or something
    else. Keys and values are [str] values, which [str()] leaves as
    they are. *)
Inductive plist_source : Type :=
| OfList (value : list (str * str))
| OfDict (value : list (str * str))
| OfOther.

(** [{str(k): str(v) for k, v in value}]. *)
Definition dict_of (value : list (str * str)) : list (str * str) :=
  fold_left (fun d kv => dict_set (fst kv) (snd kv) d) value [].

(** [PList.__init__]: the [value] of the new object. *)
Definition PList_init (value : plist_source) : result (list (str * str)) :=
  match value with
  | OfList l => Ok (dict_of l)
  | OfDict d => Ok (dict_of d)
  | OfOther => Raise ValueError
  end.

(** An argument of [invoke]: an object of one of the five classes, by
    its [value], or a plain [str]. *)
Inductive arg : Type :=
| PLiteral (value : str)
| PList (value : list (str * str))
| PReference (value : str)
| PEncoded (value : str)
| PWordProcess (value : str)
| Plain (s : str).

(** What the loop of [invoke] appends for [param]. *)
Definition processed (p : arg) : param :=
  match p with
  | PLiteral value | PReference value | PEncoded value | PWordProcess value =>
    Scalar value
  | PList value => Keyed value
  | Plain s => Scalar s
  end.

(** [Connection.invoke], on the transport that the [Connection] wraps. *)
Definition invoke (rpcid : str) (params : list arg) : M RPCConnection.St str :=
  VistARPCConnection.invokeRPC rpcid (map processed params).

(** [response.split('\r\n')]: [line] is the piece in progress. *)
Fixpoint split_crlf (line : str) (response : str) : list str :=
  match response with
  | [] => [line]
  | c :: rest =>
    match rest with
    | d :: rest' =>
      if ((c =? 13) && (d =? 10))%N then line :: split_crlf [] rest'
      else split_crlf (line ++ [c]) rest
    | [] => [line ++ [c]]
    end
  end.

Definition l_invoke (rpcid : str) (params : list arg) : M RPCConnection.St (list str) :=
  response <- invoke rpcid params ;;
  ret (split_crlf [] response).

End vavista_rpc.

(** ** lightweight_python_client/src/broker_rpc.py

    The same classes with another table [CIPHER]. *)

Module LightweightRPCConnection.

Definition CIPHER : list str :=
  [u "***************  Place the decryption code here  ***********************"].

Definition encrypt (val : str) : M World bytes :=
  ra <- randint ;;
  rb <- randint ;;
  rb <- RPCConnection.redraw ra rb ;;
  cra <- lift (RPCConnection.index CIPHER ra) ;;
  crb <- lift (RPCConnection.index CIPHER rb) ;;
  sa <- lift (chr (N.of_nat ra + 32)) ;;
  body <- lift (mapR (RPCConnection.encrypt_char cra crb) val) ;;
  sb <- lift (chr (N.of_nat rb + 32)) ;;
  lift (encode (sa :: body ++ [sb])).

End LightweightRPCConnection.

(** ** Readers of the two request grammars and of the cipher

    The client only writes requests, and only encrypts. These readers
    follow the grammar that the comments of [makeRequest] give for the
    VA request, the layout of the CIA length header, and the lookup of
    [encrypt] taken in the other direction; they serve to state that
    what the client writes can be read back. *)

Module Reader.

Definition obind {A B} (o : option A) (k : A -> option B) : option B :=
  match o with
  | Some a => k a
  | None => None
  end.

Definition take (n : nat) (s : str) : option (str * str) :=
  if n <=? length s then Some (firstn n s, skipn n s) else None.

Definition digit (c : char) : option nat :=
  if ((48 <=? c) && (c <=? 57))%N then Some (N.to_nat (c - 48)) else None.

(** A length of three decimal digits. *)
Definition read_len3 (s : str) : option (nat * str) :=
  match s with
  | a :: b :: c :: r =>
    obind (digit a) (fun a => obind (digit b) (fun b => obind (digit c) (fun c =>
    Some (100 * a + 10 * b + c, r))))
  | _ => None
  end.

(** A length of three digits and that many characters. *)
Definition read_field (s : str) : option (str * str) :=
  obind (read_len3 s) (fun '(n, r) => take n r).

(** The next character, when it is [c]. *)
Definition expect (c : char) (s : str) : option str :=
  match s with
  | x :: r => if (x =? c)%N then Some r else None
  | [] => None
  end.

(** Key/value pairs, with [t] between two pairs and [f] after the last. *)
Fixpoint read_pairs (fuel : nat) (s : str) : option (list (str * str) * str) :=
  match fuel with
  | O => None
  | S fuel =>
    obind (read_field s) (fun '(key, r) =>
    obind (read_field r) (fun '(val, r) =>
    match r with
    | x :: r =>
      if (x =? 102)%N then Some ([(key, val)], r)
      else if (x =? 116)%N then
        obind (read_pairs fuel r) (fun '(d, r) => Some ((key, val) :: d, r))
      else None
    | [] => None
    end))
  end.

(** One parameter: [0], a field and [f]; or [2], pairs if any, and [f]. *)
Definition read_param (s : str) : option (param * str) :=
  match s with
  | tag :: r =>
    if (tag =? 48)%N then
      obind (read_field r) (fun '(v, r) =>
      obind (expect 102%N r) (fun r => Some (Scalar v, r)))
    else if (tag =? 50)%N then
      match expect 102%N r with
      | Some r => Some (Keyed [], r)
      | None => obind (read_pairs (length r) r) (fun '(d, r) => Some (Keyed d, r))
      end
    else None
  | [] => None
  end.

(** Parameters up to the end token, which closes the message. *)
Fixpoint read_params (fuel : nat) (s : str) : option (list param) :=
  match fuel with
  | O => None
  | S fuel =>
    match s with
    | [c] => if (c =? 4)%N then Some [] else None
    | _ => obind (read_param s) (fun '(p, r) =>
           obind (read_params fuel r) (fun ps => Some (p :: ps)))
    end
  end.

(** The command token: [4], or [2] with the version of the RPC. *)
Definition read_command (s : str) : option (bool * str) :=
  match expect 52%N s with
  | Some r => Some (true, r)
  | None =>
    obind (expect 50%N s) (fun r =>
    obind (expect 1%N r) (fun r =>
    obind (expect 49%N r) (fun r => Some (false, r))))
  end.

(** The parameter list: [5], then [4f] for none, or the parameters. *)
Definition read_paramsspecs (s : str) : option (list param) :=
  obind (expect 53%N s) (fun r =>
  match expect 52%N r with
  | Some r =>
    obind (expect 102%N r) (fun r =>
    obind (expect 4%N r) (fun r =>
    match r with
    | [] => Some []
    | _ :: _ => None
    end))
  | None => read_params (length r) r
  end).

(** A whole request: [(isCommand, name, params)]. *)
Definition parseRequest (s : str) : option (bool * str * list param) :=
  if VistARPCConnection.re_match (u "[XWB]1130") s then
    obind (read_command (skipn 9 s)) (fun '(isCommand, r) =>
    match r with
    | n :: r =>
      obind (take (N.to_nat n) r) (fun '(name, r) =>
      obind (read_paramsspecs r) (fun params => Some (isCommand, name, params)))
    | [] => None
    end)
  else None.

(** The same from the bytes on the wire. *)
Definition parseWire (b : bytes) : option (bool * str * list param) :=
  match decode b with
  | Ok s => parseRequest s
  | _ => None
  end.

(** The inverse of the substitution of [encrypt]: the character of
    [cra] at the place of [d] in [crb], or [d] itself where [crb] does
    not hold it. *)
Definition decrypt_char (cra crb : str) (d : char) : option char :=
  match RPCConnection.str_find d crb with
  | Some i => nth_error cra i
  | None => Some d
  end.

Fixpoint mapO {A B} (f : A -> option B) (l : list A) : option (list B) :=
  match l with
  | [] => Some []
  | a :: l' => obind (f a) (fun b => obind (mapO f l') (fun bs => Some (b :: bs)))
  end.

(** Reading back what [encrypt] returns: the first and the last
    character, each less 32, name the two rows; the characters between
    them are looked up in the second row and read in the first. *)
Definition decrypt (out : bytes) : option str :=
  match decode out with
  | Ok (sa :: rest) =>
    match rev rest with
    | sb :: body =>
      obind (nth_error RPCConnection.CIPHER (N.to_nat (sa - 32))) (fun cra =>
      obind (nth_error RPCConnection.CIPHER (N.to_nat (sb - 32))) (fun crb =>
      mapO (decrypt_char cra crb) (rev body)))
    | [] => None
    end
  | _ => None
  end.

(** The number that bytes spell, most significant byte first. *)
Definition big_endian (l : bytes) : N :=
  fold_left (fun acc x => (acc * 256 + Byte.to_N x)%N) l 0%N.

(** The CIA length header: the count of length bytes and the low four
    bits of the length in the first byte, then the rest of the length,
    most significant byte first. Gives the length and what follows. *)
Definition read_header (b : bytes) : option (N * bytes) :=
  match b with
  | [] => None
  | b0 :: r =>
    let highCount := N.to_nat (Byte.to_N b0 / 16) in
    let low := (Byte.to_N b0 mod 16)%N in
    if highCount <=? length r then
      Some ((big_endian (firstn highCount r) * 16 + low)%N, skipn highCount r)
    else None
  end.

End Reader.

(** ** Vocabulary of the statements *)

Module Vocabulary.

Import RPCConnection.

(** No character occurs twice. *)
Fixpoint nodupb (s : str) : bool :=
  match s with
  | [] => true
  | c :: s' => negb (existsb (N.eqb c) s') && nodupb s'
  end.

(** A row of 94 distinct ASCII characters. *)
Definition row_ok (r : str) : bool :=
  nodupb r && (length r =? 94) && forallb (fun c => (c <? 128)%N) r.

(** What [encrypt] puts out for [c]: the character of [crb] at the place
    of [c] in [cra], or [c] itself where [cra] does not hold it. *)
Definition substituted (cra crb : str) (c d : char) : Prop :=
  match str_find c cra with
  | Some i => nth_error crb i = Some d
  | None => d = c
  end.

(** The first chunk of a reply as the loop keeps it: without its first
    two characters when the first one is NUL. *)
Definition strip_nul (c : str) : str :=
  match c with
  | c0 :: _ => if (c0 =? 0)%N then skipn 2 c else c
  | [] => []
  end.

(** A chunk that the loop of [readToEndMarker] keeps before it goes on:
    not empty, and not ended by the marker. *)
Definition nonterminal (endMark : char) (c : str) : Prop :=
  c <> [] /\ last c 0%N <> endMark.

(** A chunk at which the loop stops: empty (the peer has closed), or
    ended by the marker. *)
Definition terminal (endMark : char) (c : str) : Prop :=
  c = [] \/ last c 0%N = endMark.

(** A call keeps the relation [R] between the state it starts from
    and the state it leaves. *)
Definition preserves {S A} (R : S -> S -> Prop) (m : M S A) : Prop :=
  forall s, R s (snd (m s)).

(** The environment has the same live sockets and the same next handle. *)
Definition same_sockets (w w' : World) : Prop :=
  live w' = live w /\ next_fd w' = next_fd w.

(** The trace has only grown. *)
Definition trace_grows (w w' : World) : Prop :=
  exists tl, trace w' = trace w ++ tl.

(** The connections made so far. *)
Definition is_connect (ev : event) : bool :=
  match ev with
  | EConnect _ _ _ => true
  | _ => false
  end.
Definition connections (w : World) : list event := filter is_connect (trace w).

(** What every step of a handshake keeps: the sockets, the connections
    made, and what the trace already holds. *)
Definition calm (w w' : World) : Prop :=
  same_sockets w w' /\ trace_grows w w' /\ connections w' = connections w.

(** The transport is the same object in the same fields, and the
    environment is related by [Rw]. *)
Definition same_self (Rw : World -> World -> Prop) (st st' : St) : Prop :=
  self st' = self st /\ Rw (world st) (world st').

(** The environments are related by [Rw], whatever became of the
    transport. *)
Definition on_world (Rw : World -> World -> Prop) (st st' : St) : Prop :=
  Rw (world st) (world st').

(** What every step of a handshake keeps, and what every call keeps. *)
Definition steady : St -> St -> Prop := same_self calm.
Definition growing : St -> St -> Prop := on_world trace_grows.

(** From [st], the first thing the call [m] does to a socket is [ev]. *)
Definition starts_with {A} (st : St) (ev : event) (m : M St A) : Prop :=
  exists tl, trace (world (snd (m st))) = trace (world st) ++ ev :: tl.

(** A string whose length fits three decimal digits. *)
Definition short (s : str) : Prop := length s < 1000.

(** A parameter whose strings all are [short]. *)
Definition param_ok (p : param) : Prop :=
  match p with
  | Scalar s => short s
  | Keyed d => Forall (fun kv => short (fst kv) /\ short (snd kv)) d
  end.

(** Every character of [a] is in [b]. *)
Definition chars_in (a b : str) : bool :=
  forallb (fun c => existsb (N.eqb c) b) a.

(** How [encrypt] and the lookup in the other direction treat one
    character [c] of the plaintext, [d] being what [encrypt] puts out
    for it: where row [cra] holds [c] at [i], [d] is the character of
    row [crb] at [i], found in [crb] at [i] and nowhere else, and [cra]
    holds [c] there; a character that [cra] does not hold is put out as
    it is, and [crb] does not hold it either. *)
Definition round_trips (cra crb : str) (c d : char) : Prop :=
  match str_find c cra with
  | Some i => nth_error crb i = Some d /\ str_find d crb = Some i /\ nth_error cra i = Some c
  | None => d = c /\ str_find d crb = None
  end.

(** The four steps of the handshake of [VistARPCConnection.connect],
    each up to the reply it reads. *)
Definition negotiate : M St str :=
  ip <- liftW gethostbyname ;;
  tcpConnect <- lift (VistARPCConnection.makeRequest (u "TCPConnect")
                        [Scalar ip; Scalar (u "0"); Scalar (u "FMQL")] true) ;;
  send tcpConnect ;;
  readToEndMarker.

Definition sign_on : M St str :=
  signOn <- lift (VistARPCConnection.makeRequest (u "XUS SIGNON SETUP") [] false) ;;
  send signOn ;;
  readToEndMarker.

Definition log_in : M St str :=
  av <- gets (fun st => access (self st) ++ u ";" ++ verify (self st)) ;;
  accessVerify <- liftW (encrypt av) ;;
  accessVerify <- lift (decode accessVerify) ;;
  login <- lift (VistARPCConnection.makeRequest (u "XUS AV CODE") [Scalar accessVerify] false) ;;
  send login ;;
  readToEndMarker.

Definition create_context : M St str :=
  ctxt <- gets (fun st => context (self st)) ;;
  eMSGCONTEXT <- liftW (encrypt ctxt) ;;
  eMSGCONTEXT <- lift (decode eMSGCONTEXT) ;;
  ctx <- lift (VistARPCConnection.makeRequest (u "XWB CREATE CONTEXT")
                 [Scalar eMSGCONTEXT] false) ;;
  send ctx ;;
  readToEndMarker.

(** From the state [s0] that the TCP connection leaves, a step of the
    handshake reads the reply [connectReply], which fails the check of
    that step, and leaves the state [s]: the negotiation reply does not
    begin with [accept]; or the reply to the access and verify codes
    holds the marker of an invalid pair; or the reply to the context
    says that it has not been created or does not exist. The steps
    before it have read replies that pass. *)
Inductive check_fails (s0 : St) : str -> St -> Prop :=
| negotiation_fails (r1 : str) (s1 : St) :
    negotiate s0 = (Ok r1, s1) ->
    VistARPCConnection.re_match (u "accept") r1 = false ->
    check_fails s0 r1 s1
| credentials_fail (r1 r2 r3 : str) (s1 s2 s3 : St) :
    negotiate s0 = (Ok r1, s1) ->
    VistARPCConnection.re_match (u "accept") r1 = true ->
    sign_on s1 = (Ok r2, s2) ->
    log_in s2 = (Ok r3, s3) ->
    VistARPCConnection.re_search (u "Not a valid ACCESS CODE/VERIFY CODE pair") r3 = true ->
    check_fails s0 r3 s3
| context_fails (r1 r2 r3 r4 : str) (s1 s2 s3 s4 : St) :
    negotiate s0 = (Ok r1, s1) ->
    VistARPCConnection.re_match (u "accept") r1 = true ->
    sign_on s1 = (Ok r2, s2) ->
    log_in s2 = (Ok r3, s3) ->
    VistARPCConnection.re_search (u "Not a valid ACCESS CODE/VERIFY CODE pair") r3 = false ->
    create_context s3 = (Ok r4, s4) ->
    VistARPCConnection.re_search (u "Application context has not been created") r4
    || VistARPCConnection.re_search (u "does not exist on server") r4 = true ->
    check_fails s0 r4 s4.

(** A call keeps the property [I] of the state. *)
Definition keeps {S} (I : S -> Prop) (s s' : S) : Prop := I s -> I s'.

(** Every socket that is open is the one the transport holds: none has
    been left behind. *)
Definition owns (st : St) : Prop :=
  forall fd, In fd (live (world st)) -> sock (self st) = Some fd.

(** The [poolId] of a pooled transport. *)
Definition poolId_of (c : RPCConnectionPool.connection) : Z :=
  match c with
  | RPCConnectionPool.VistA v => poolId v
  | RPCConnectionPool.CIA x => poolId (CIARPCConnection.base x)
  end.

(** A pooled transport that holds a socket, where its class is known. *)
Definition connected (c : RPCConnectionPool.connection) : Prop :=
  match c with
  | RPCConnectionPool.VistA v => sock v <> None
  | RPCConnectionPool.CIA _ => True
  end.

(** [sep.join(pieces)]. *)
Fixpoint join (sep : str) (pieces : list str) : str :=
  match pieces with
  | [] => []
  | [piece] => piece
  | piece :: rest => piece ++ sep ++ join sep rest
  end.

(** The sequence number after [n] requests on a new CIA transport. *)
Definition nth_sequence (n : nat) : Z :=
  match n with
  | O => 0
  | S m => Z.of_nat (m mod 255) + 1
  end.

End Vocabulary.

(** ** Scenarios *)

Module Scenario.

(** The transport of the end-to-end scenario. *)
Definition vista : RPCConnection.t :=
  VistARPCConnection.init (u "127.0.0.1") 9997 (u "DOCTOR1") (u "DOCTOR1.")
                          (u "OR CPRS GUI CHART") (-1).

(** The same with socket [fd] in place. *)
Definition vista_on (fd : nat) : RPCConnection.t :=
  RPCConnection.with_sock (Some fd) vista.

(** A chunk that carries the ASCII text [s]. *)
Definition text (s : string) : recv_result :=
  Chunk (map (fun a => byte_of_N (N_of_ascii a)) (list_ascii_of_string s)).

(** The same with the end marker of the VA broker after it. *)
Definition reply (s : string) : recv_result :=
  Chunk (map (fun a => byte_of_N (N_of_ascii a)) (list_ascii_of_string s) ++ [x04]).

(** The reply of the broker to an RPC that returns nothing. *)
Definition empty_reply : recv_result := Chunk [x00; x00; x04].

(** The four replies of a handshake that succeeds. *)
Definition handshake : list recv_result :=
  [reply "accept"; reply "hello"; reply "1"; reply "1"].

(** A network on which no socket exists yet, [recv] giving [rs]. *)
Definition network (rs : list recv_result) : World :=
  mkWorld [3; 7; 5; 2; 3; 7; 5; 2] (Ok (u "10.0.0.7")) [] [] rs 0 [] [].

(** A network on which socket 0 is connected, [recv] giving [rs]. *)
Definition connected (rs : list recv_result) : World :=
  mkWorld [3; 7; 5; 2; 3; 7; 5; 2] (Ok (u "10.0.0.7")) [] [] rs 1 [0] [].

End Scenario.

(** * Properties *)

Import Vocabulary.

(** ** General facts *)

Lemma rbind_Ok {A B} (r : result A) (k : A -> result B) (b : B) :
  rbind r k = Ok b -> exists a, r = Ok a /\ k a = Ok b.
Proof. destruct r; simpl; intros H; try discriminate. eauto. Qed.

(** A string of ASCII characters is encoded character by character. *)
Lemma encode_ascii (s : str) :
  Forall (fun c => (c < 128)%N) s ->
  exists out, encode s = Ok out /\ length out = length s.
Proof.
  induction 1 as [|c s Hc _ IH]; simpl.
  - now exists [].
  - destruct IH as (out & -> & Hlen). unfold encode_char.
    apply N.ltb_lt in Hc. change 0x80%N with 128%N. rewrite Hc. simpl.
    eexists. split; [reflexivity|]. simpl. now rewrite Hlen.
Qed.

(** ** The obfuscation cipher *)

Section Cipher.

Import RPCConnection.

Lemma nodupb_NoDup (s : str) : nodupb s = true -> NoDup s.
Proof.
  induction s as [|c s IH]; simpl; intros H; constructor;
    apply andb_prop in H; destruct H as [Hc Hs].
  - intros Hin. apply negb_true_iff in Hc.
    assert (existsb (N.eqb c) s = true) as E; [|congruence].
    apply existsb_exists. exists c. split; trivial. apply N.eqb_refl.
  - now apply IH.
Qed.

(** Every row of the table holds 94 distinct ASCII characters. *)
Lemma CIPHER_rows (a : nat) (cra : str) :
  index CIPHER a = Ok cra ->
  NoDup cra /\ length cra = 94 /\ Forall (fun c => (c < 128)%N) cra.
Proof.
  unfold index. destruct (nth_error CIPHER a) as [r|] eqn:E; [|discriminate].
  intros [= ->]. apply nth_error_In in E.
  assert (forallb row_ok CIPHER = true) as H by (vm_compute; reflexivity).
  rewrite forallb_forall in H. specialize (H _ E). unfold row_ok in H.
  apply andb_prop in H; destruct H as [H H3].
  apply andb_prop in H; destruct H as [H1 H2].
  repeat split.
  - now apply nodupb_NoDup.
  - now apply Nat.eqb_eq.
  - apply Forall_forall. intros c Hc. rewrite forallb_forall in H3.
    now apply N.ltb_lt, H3.
Qed.

Lemma CIPHER_index (a : nat) : a <= 19 -> exists cra, index CIPHER a = Ok cra.
Proof.
  intros H. unfold index.
  destruct (nth_error CIPHER a) eqn:E; [eauto|].
  apply nth_error_None in E. change (length CIPHER) with 20 in E. lia.
Qed.

(** [find] gives a position that holds the character. *)
Lemma str_find_Some (c : char) (s : str) (i : nat) :
  str_find c s = Some i -> nth_error s i = Some c.
Proof.
  revert i. induction s as [|x s IH]; simpl; intros i H; [discriminate|].
  destruct (N.eqb_spec x c) as [->|_].
  - now injection H as <-.
  - destruct (str_find c s) as [j|]; [|discriminate].
    injection H as <-. simpl. now apply IH.
Qed.

(** In a string without repeated characters, [find] gives back the
    position a character was read from. *)
Lemma str_find_nth_error (s : str) (i : nat) (d : char) :
  NoDup s -> nth_error s i = Some d -> str_find d s = Some i.
Proof.
  intros Hnd. revert i. induction Hnd as [|x s Hx _ IH]; intros i H.
  - destruct i; discriminate.
  - destruct i as [|i]; simpl in *.
    + injection H as ->. now rewrite N.eqb_refl.
    + destruct (N.eqb_spec x d) as [->|_].
      * apply nth_error_In in H. contradiction.
      * now rewrite (IH _ H).
Qed.

End Cipher.

(** For any two rows [a] and [b] of the table, a character [c] found in
    row [a] at position [i] is replaced by the character [d] of row [b]
    at [i], and looking [d] up in row [b] gives [i] again, where row
    [a] holds [c]. *)
Lemma cipher_row_round_trip (a b : nat) (cra crb : list N) (c : N) (i : nat) :
  RPCConnection.index RPCConnection.CIPHER a = Ok cra ->
  RPCConnection.index RPCConnection.CIPHER b = Ok crb ->
  RPCConnection.str_find c cra = Some i ->
  exists d,
    RPCConnection.encrypt_char cra crb c = Ok d /\
    nth_error crb i = Some d /\
    RPCConnection.str_find d crb = Some i /\
    nth_error cra i = Some c.
Proof.
  intros Ha Hb Hfind.
  destruct (CIPHER_rows _ _ Ha) as (_ & La & _).
  destruct (CIPHER_rows _ _ Hb) as (NDb & Lb & _).
  pose proof (str_find_Some _ _ _ Hfind) as Hc.
  assert (i < length crb) as Hi.
  { rewrite Lb, <- La. apply nth_error_Some. congruence. }
  destruct (nth_error crb i) as [d|] eqn:Hd.
  2:{ apply nth_error_None in Hd. lia. }
  exists d. unfold RPCConnection.encrypt_char, RPCConnection.index.
  rewrite Hfind, Hd. repeat split; trivial.
  now apply str_find_nth_error.
Qed.

(** ** The output of [encrypt] *)

Section Encrypt.

Import RPCConnection.

Lemma redraw_from_rejected (ra rb : nat) (rejected rest : list nat) :
  Forall (fun r => r = ra \/ r = 0) rejected ->
  rb <> ra -> rb <> 0 ->
  forall r0, r0 = ra \/ r0 = 0 ->
  redraw_from ra r0 (rejected ++ rb :: rest) = (Ok rb, rest).
Proof.
  intros Hrej Ha H0. induction Hrej as [|r rejected Hr _ IH]; intros r0 Hr0.
  - simpl. replace ((r0 =? ra) || (r0 =? 0)) with true.
    2:{ symmetry. apply orb_true_iff. rewrite !Nat.eqb_eq. tauto. }
    destruct rest; simpl;
      apply Nat.eqb_neq in Ha, H0; now rewrite Ha, H0.
  - simpl. replace ((r0 =? ra) || (r0 =? 0)) with true.
    2:{ symmetry. apply orb_true_iff. rewrite !Nat.eqb_eq. tauto. }
    now apply IH.
Qed.

(** The first draw of [rb] and the redraws of the loop together. *)
Lemma redraw_first (ra rb : nat) (rejected rest : list nat) :
  Forall (fun r => r = ra \/ r = 0) rejected ->
  rb <> ra -> rb <> 0 ->
  match rejected ++ rb :: rest with
  | [] => (NoReturn, [])
  | r0 :: draws => redraw_from ra r0 draws
  end = (Ok rb, rest).
Proof.
  intros Hrej Ha H0. destruct Hrej as [|r rejected Hr Hrej]; simpl.
  - destruct rest; simpl; apply Nat.eqb_neq in Ha, H0; now rewrite Ha, H0.
  - now apply redraw_from_rejected.
Qed.

Lemma mapR_encrypt_char (cra crb : str) (val : str) :
  length cra = length crb ->
  exists body, mapR (encrypt_char cra crb) val = Ok body /\
               Forall2 (substituted cra crb) val body.
Proof.
  intros Hlen. induction val as [|c val (body & E & IH)]; simpl.
  - exists []. split; [reflexivity | constructor].
  - unfold encrypt_char at 1, index.
    destruct (str_find c cra) as [i|] eqn:Hf; simpl.
    + destruct (nth_error crb i) as [d|] eqn:Hd.
      * simpl. rewrite E. simpl. eexists. split; [reflexivity|].
        constructor; trivial. unfold substituted. now rewrite Hf.
      * apply nth_error_None in Hd. apply str_find_Some in Hf.
        assert (i < length cra) by (apply nth_error_Some; congruence). lia.
    + rewrite E. simpl. eexists. split; [reflexivity|].
      constructor; trivial. unfold substituted. now rewrite Hf.
Qed.

Lemma substituted_ascii (cra crb val body : str) :
  Forall (fun c => (c < 128)%N) crb ->
  Forall (fun c => (c < 128)%N) val ->
  Forall2 (substituted cra crb) val body ->
  Forall (fun c => (c < 128)%N) body.
Proof.
  intros Hb Hv H. induction H as [|c d val body Hcd _ IH]; constructor.
  - unfold substituted in Hcd. destruct (str_find c cra).
    + rewrite Forall_forall in Hb. apply Hb. eapply nth_error_In; eauto.
    + subst d. now inversion Hv.
  - apply IH. now inversion Hv.
Qed.

End Encrypt.

(** C6, amended. [encrypt] takes its first draw as [ra], whatever it is,
    zero included, and as [rb] the first later draw that is neither [ra]
    nor zero. It returns the UTF-8 bytes of [chr(ra+32)], one character
    per character of [val] (the character of row [rb] at the place the
    input character has in row [ra], or the input character itself when
    row [ra] does not hold it), and [chr(rb+32)]. For an ASCII [val] that
    is [len(val) + 2] bytes. *)
Theorem encrypt_output_structure (val : str) (w : World)
        (ra rb : nat) (rejected rest : list nat) :
  rand w = ra :: rejected ++ rb :: rest ->
  Forall (fun r => r = ra \/ r = 0) rejected ->
  ra <= 18 -> rb <= 18 -> rb <> ra -> rb <> 0 ->
  exists cra crb body,
    RPCConnection.index RPCConnection.CIPHER ra = Ok cra /\
    RPCConnection.index RPCConnection.CIPHER rb = Ok crb /\
    Forall2 (substituted cra crb) val body /\
    RPCConnection.encrypt val w =
      (encode ((N.of_nat ra + 32)%N :: body ++ [(N.of_nat rb + 32)%N]),
       with_rand rest w) /\
    (Forall (fun c => (c < 128)%N) val ->
     exists out,
       encode ((N.of_nat ra + 32)%N :: body ++ [(N.of_nat rb + 32)%N]) = Ok out /\
       length out = length val + 2).
Proof.
  intros Hrand Hrej Hra Hrb Hne H0.
  destruct (CIPHER_index ra) as [cra Ea]; [lia|].
  destruct (CIPHER_index rb) as [crb Eb]; [lia|].
  destruct (CIPHER_rows _ _ Ea) as (_ & La & _).
  destruct (CIPHER_rows _ _ Eb) as (_ & Lb & Ab).
  destruct (mapR_encrypt_char cra crb val) as (body & Ebody & Hbody); [congruence|].
  exists cra, crb, body. repeat split; trivial.
  - pose proof (redraw_first ra rb rejected rest Hrej Hne H0) as Hredraw.
    unfold RPCConnection.encrypt, bind, randint, RPCConnection.redraw, lift.
    rewrite Hrand. simpl rand.
    destruct (rejected ++ rb :: rest) as [|r0 draws] eqn:Hd.
    { destruct rejected; discriminate. }
    simpl rand. rewrite Hredraw, Ea, Eb.
    unfold chr.
    replace (N.of_nat ra + 32 <? 0x110000)%N with true by (symmetry; apply N.ltb_lt; lia).
    replace (N.of_nat rb + 32 <? 0x110000)%N with true by (symmetry; apply N.ltb_lt; lia).
    rewrite Ebody. reflexivity.
  - intros Hascii.
    destruct (encode_ascii ((N.of_nat ra + 32)%N :: body ++ [(N.of_nat rb + 32)%N]))
      as (out & Eout & Hlen).
    { constructor; [lia|]. apply Forall_app. split.
      - exact (substituted_ascii cra crb val body Ab Hascii Hbody).
      - constructor; [lia | constructor]. }
    exists out. split; trivial. rewrite Hlen. simpl. rewrite length_app.
    apply Forall2_length in Hbody. simpl. lia.
Qed.

(** Draws 3, then 3 and 0, which the loop rejects, then 7. *)
Lemma encrypt_output_structure_witness :
  exists cra crb body,
    RPCConnection.index RPCConnection.CIPHER 3 = Ok cra /\
    RPCConnection.index RPCConnection.CIPHER 7 = Ok crb /\
    Forall2 (substituted cra crb) (u "AB;cd") body /\
    RPCConnection.encrypt (u "AB;cd")
      (mkWorld [3; 3; 0; 7; 9] (Ok []) [] [] [] 0 [] []) =
      (encode (35%N :: body ++ [39%N]),
       mkWorld [9] (Ok []) [] [] [] 0 [] []) /\
    (Forall (fun c => (c < 128)%N) (u "AB;cd") ->
     exists out, encode (35%N :: body ++ [39%N]) = Ok out /\ length out = 7).
Proof.
  apply (encrypt_output_structure (u "AB;cd")
           (mkWorld [3; 3; 0; 7; 9] (Ok []) [] [] [] 0 [] []) 3 7 [3; 0] [9]).
  - reflexivity.
  - constructor; [left; reflexivity|].
    constructor; [right; reflexivity|]. constructor.
  - lia.
  - lia.
  - lia.
  - lia.
Defined.

(** C6 as stated fails: with the draws 0 and 1, [encrypt] selects row 0
    as its first row and returns [chr(0+32)], a space, as the first
    selector. *)
Lemma encrypt_selects_row_zero :
  ~ (forall (val : str) (w : World) (first : byte) (out : bytes),
        fst (RPCConnection.encrypt val w) = Ok (first :: out) ->
        exists a, 1 <= a /\ Byte.to_N first = (N.of_nat a + 32)%N).
Proof.
  intros H.
  destruct (H (u "A") (mkWorld [0; 1] (Ok []) [] [] [] 0 [] []) x20
              ["X"%byte; "!"%byte] eq_refl) as (a & Ha & E).
  change (Byte.to_N x20) with 32%N in E. lia.
Qed.

(** ** The CIA length header *)

Section LengthHeader.

Import CIARPCConnection Reader.

Lemma to_N_byte_of_N (n : N) : Byte.to_N (byte_of_N n) = (n mod 256)%N.
Proof.
  unfold byte_of_N.
  destruct (Byte.of_N (n mod 256)) as [b|] eqn:E.
  - now apply Byte.to_of_N.
  - apply Byte.of_N_None_iff in E.
    pose proof (N.mod_upper_bound n 256). lia.
Qed.

Lemma big_endian_snoc (l : bytes) (x : byte) :
  big_endian (l ++ [x]) = (big_endian l * 256 + Byte.to_N x)%N.
Proof. unfold big_endian. now rewrite fold_left_app. Qed.

(** The bytes the loop collects spell [slen], least significant byte
    first, and the last of them is not zero. *)
Lemma length_bytes_spec (slen : N) :
  big_endian (rev (length_bytes slen)) = slen /\
  (length_bytes slen <> [] ->
   (256 ^ N.of_nat (length (length_bytes slen) - 1) <= slen)%N).
Proof.
  apply (length_bytes_elim
           (fun slen l => big_endian (rev l) = slen /\
                          (l <> [] -> (256 ^ N.of_nat (length l - 1) <= slen)%N))).
  - intros s -> _. split; [reflexivity | congruence].
  - intros s Hs [IHv IHb] _. split.
    + cbn [rev]. rewrite big_endian_snoc, IHv, to_N_byte_of_N.
      change 255%N with (N.ones 8). rewrite N.land_ones, N.shiftr_div_pow2.
      change (2 ^ 8)%N with 256%N.
      rewrite N.Div0.mod_mod by lia.
      pose proof (N.div_mod s 256). lia.
    + intros _.
      assert (forall (x : byte) l, length (x :: l) - 1 = length l) as Hl
          by (intros; simpl; lia).
      rewrite Hl.
      destruct (length_bytes (N.shiftr s 8)) as [|x l] eqn:El.
      * simpl. lia.
      * specialize (IHb ltac:(congruence)).
        rewrite N.shiftr_div_pow2 in IHb. change (2 ^ 8)%N with 256%N in IHb.
        rewrite Hl in IHb. cbn [length].
        rewrite Nat2N.inj_succ, N.pow_succ_r'.
        pose proof (N.Div0.mul_div_le s 256). lia.
Qed.

(** Below [2^120] the loop collects at most fifteen bytes. *)
Lemma length_bytes_count (slen : N) :
  (slen < 2 ^ 120)%N -> length (length_bytes slen) <= 15.
Proof.
  intros H. destruct (length_bytes_spec slen) as [_ Hb].
  destruct (length_bytes slen) as [|x l] eqn:E; [simpl; lia|].
  specialize (Hb ltac:(congruence)).
  destruct (le_lt_dec (length (x :: l)) 15) as [|Hgt]; trivial.
  exfalso.
  assert (256 ^ 15 <= 256 ^ N.of_nat (length (x :: l) - 1))%N.
  { apply N.pow_le_mono_r; lia. }
  change (256 ^ 15)%N with (2 ^ 120)%N in *. lia.
Qed.

End LengthHeader.

(** X22. Given a [bytes] value [b] of length [L] (of any length that
    can exist: below [2^124]), [__byteIt] returns a first byte, some
    extra length bytes and [b] itself, where the high nibble of the
    first byte is the count of the extra bytes, its low nibble is
    [L mod 16], the extra bytes spell [L div 16] most significant byte
    first, and reading the header back gives exactly [L] and leaves
    [b]. *)
Theorem byteIt_header_round_trip (b : bytes) :
  (N.of_nat (length b) < 2 ^ 124)%N ->
  exists first extra,
    CIARPCConnection.byteIt (CIARPCConnection.FBytes b) = Ok (first :: extra ++ b) /\
    (Byte.to_N first / 16 = N.of_nat (length extra))%N /\
    (Byte.to_N first mod 16 = N.of_nat (length b) mod 16)%N /\
    (Reader.big_endian extra = N.of_nat (length b) / 16)%N /\
    Reader.read_header (first :: extra ++ b) = Some (N.of_nat (length b), b).
Proof.
  intros HL. set (L := N.of_nat (length b)) in *.
  assert (N.shiftr L 4 = L / 16)%N as Hshift by now rewrite N.shiftr_div_pow2.
  assert (L / 16 < 2 ^ 120)%N as Hs.
  { apply N.Div0.div_lt_upper_bound. change (16 * 2 ^ 120)%N with (2 ^ 124)%N. lia. }
  pose proof (length_bytes_count _ Hs) as Hcount.
  destruct (length_bytes_spec (L / 16)) as [Hval _].
  set (l := CIARPCConnection.length_bytes (L / 16)) in *.
  pose proof (N.mod_upper_bound L 16 ltac:(lia)) as Hlow.
  assert (N.shiftl (N.of_nat (length l)) 4 = N.of_nat (length l) * 16)%N as Hshl
      by now rewrite N.shiftl_mul_pow2.
  destruct (Byte.of_N (N.of_nat (length l) * 16 + L mod 16)) as [first|] eqn:Ef.
  2:{ apply Byte.of_N_None_iff in Ef. lia. }
  apply Byte.to_of_N in Ef.
  assert (Byte.to_N first / 16 = N.of_nat (length l))%N as Hhigh.
  { rewrite Ef. rewrite N.add_comm, N.div_add by lia.
    rewrite N.div_small by lia. reflexivity. }
  assert (Byte.to_N first mod 16 = L mod 16)%N as Hmod.
  { rewrite Ef. rewrite N.add_comm, N.Div0.mod_add. now apply N.mod_small. }
  exists first, (rev l). repeat split.
  - unfold CIARPCConnection.byteIt, CIARPCConnection.length_header.
    cbn [CIARPCConnection.len]. fold L. rewrite Hshift. fold l.
    unfold CIARPCConnection.append_byte. rewrite Hshl.
    apply Byte.to_of_N_iff in Ef. rewrite Ef. reflexivity.
  - now rewrite length_rev.
  - exact Hmod.
  - exact Hval.
  - unfold Reader.read_header. rewrite Hhigh, Nat2N.id, Hmod.
    rewrite length_app, length_rev.
    replace (length l <=? length l + length b) with true
      by (symmetry; apply Nat.leb_le; lia).
    rewrite <- (length_rev l) at 1 2.
    rewrite firstn_app, Nat.sub_diag, firstn_all, firstn_O, app_nil_r.
    rewrite skipn_app, Nat.sub_diag, skipn_all, skipn_O.
    rewrite Hval. simpl app. f_equal. f_equal.
    pose proof (N.div_mod L 16). lia.
Qed.

(** A field of 4097 bytes: two extra length bytes. *)
Lemma byteIt_header_round_trip_witness :
  exists first extra,
    CIARPCConnection.byteIt (CIARPCConnection.FBytes (repeat x41 4097)) =
      Ok (first :: extra ++ repeat x41 4097) /\
    (Byte.to_N first / 16 = N.of_nat (length extra))%N /\
    (Byte.to_N first mod 16 = N.of_nat (length (repeat x41 4097)) mod 16)%N /\
    (Reader.big_endian extra = N.of_nat (length (repeat x41 4097)) / 16)%N /\
    Reader.read_header (first :: extra ++ repeat x41 4097) =
      Some (N.of_nat (length (repeat x41 4097)), repeat x41 4097).
Proof.
  apply (byteIt_header_round_trip (repeat x41 4097)).
  vm_compute. reflexivity.
Defined.

(** The lengths on each side of the two steps of the header. *)
Example byteIt_boundary_headers :
  CIARPCConnection.length_header 0 = Ok [x00] /\
  CIARPCConnection.length_header 15 = Ok [x0f] /\
  CIARPCConnection.length_header 16 = Ok [x10; x01] /\
  CIARPCConnection.length_header 4095 = Ok [x1f; xff] /\
  CIARPCConnection.length_header 4096 = Ok [x20; x01; x00].
Proof. repeat split; reflexivity. Qed.

(** C8 fails on the code. The fields that [__byteIt] is given are
    [str] values: the keys of every request, such as [IP], the first
    key of [connect], and field strings of the lengths 0, 15, 16, 4095
    and 4096. On each of them [__byteIt] works the header out and then
    raises [TypeError] at [bytearray(strVal)], which takes no [str]
    without an encoding: no header is put out, for no [str] at all.
    The header it has worked out is the right one: on the bytes of the
    same length the same code returns it with the value, and it reads
    back as the length. *)
Theorem byteIt_raises_on_str :
  (forall (s : str) (out : bytes),
      CIARPCConnection.byteIt (CIARPCConnection.FStr s) <> Ok out) /\
  CIARPCConnection.byteIt (CIARPCConnection.FStr (u "IP")) = Raise TypeError /\
  Forall (fun L =>
            CIARPCConnection.byteIt (CIARPCConnection.FStr (repeat 65%N L))
            = Raise TypeError /\
            exists header,
              CIARPCConnection.length_header (N.of_nat L) = Ok header /\
              CIARPCConnection.byteIt (CIARPCConnection.FBytes (repeat x41 L))
              = Ok (header ++ repeat x41 L) /\
              Reader.read_header (header ++ repeat x41 L)
              = Some (N.of_nat L, repeat x41 L))
         [0; 15; 16; 4095; 4096].
Proof.
  split; [|split].
  - intros s out. unfold CIARPCConnection.byteIt.
    destruct (CIARPCConnection.length_header _); cbn [rbind]; discriminate.
  - vm_compute. reflexivity.
  - repeat constructor; try (vm_compute; reflexivity);
      eexists; (split; [vm_compute; reflexivity|]); split; vm_compute; reflexivity.
Qed.

(** ** UTF-8 *)

Section Utf8.

Ltac Zify.zify_post_hook ::= Z.to_euclidean_division_equations.

Lemma to_N_byte_of_N_small (n : N) : (n < 256)%N -> Byte.to_N (byte_of_N n) = n.
Proof.
  intros H. unfold byte_of_N. rewrite N.mod_small by trivial.
  destruct (Byte.of_N n) as [b|] eqn:E.
  - now apply Byte.to_of_N.
  - apply Byte.of_N_None_iff in E. lia.
Qed.

Lemma Ok_inj {A} (a b : A) : Ok a = Ok b -> a = b.
Proof. congruence. Qed.

Ltac ltb_true := match goal with
  | |- context [(?a <? ?b)%N] =>
    replace (a <? b)%N with true by (symmetry; apply N.ltb_lt; lia)
  end.
Ltac ltb_false := match goal with
  | |- context [(?a <? ?b)%N] =>
    replace (a <? b)%N with false by (symmetry; apply N.ltb_ge; lia)
  end.
Ltac leb_true := match goal with
  | |- context [(?a <=? ?b)%N] =>
    replace (a <=? b)%N with true by (symmetry; apply N.leb_le; lia)
  end.

Lemma is_cont_byte (n : N) : (n < 64)%N -> is_cont (byte_of_N (0x80 + n)) = true.
Proof.
  intros H. unfold is_cont. rewrite to_N_byte_of_N_small by lia.
  leb_true. ltb_true. reflexivity.
Qed.

Lemma cont_byte (n : N) : (n < 64)%N -> cont (byte_of_N (0x80 + n)) = n.
Proof.
  intros H. unfold cont. rewrite to_N_byte_of_N_small by lia. lia.
Qed.

(** One step of [decode]. *)
Lemma decode_cons (b0 : byte) (r0 : list byte) :
  decode (b0 :: r0) =
  let n0 := Byte.to_N b0 in
  if (n0 <? 0x80)%N then rbind (decode r0) (fun s => Ok (n0 :: s))
  else if (n0 <? 0xC2)%N then Raise UnicodeDecodeError
  else if (n0 <? 0xE0)%N then
    match r0 with
    | b1 :: r1 =>
      if is_cont b1
      then rbind (decode r1) (fun s => Ok (((n0 - 0xC0) * 64 + cont b1)%N :: s))
      else Raise UnicodeDecodeError
    | _ => Raise UnicodeDecodeError
    end
  else if (n0 <? 0xF0)%N then
    match r0 with
    | b1 :: b2 :: r2 =>
      let c := ((n0 - 0xE0) * 4096 + cont b1 * 64 + cont b2)%N in
      if is_cont b1 && is_cont b2 && (0x800 <=? c)%N && negb (is_surrogate c)
      then rbind (decode r2) (fun s => Ok (c :: s))
      else Raise UnicodeDecodeError
    | _ => Raise UnicodeDecodeError
    end
  else if (n0 <? 0xF5)%N then
    match r0 with
    | b1 :: b2 :: b3 :: r3 =>
      let c := ((n0 - 0xF0) * 262144 + cont b1 * 4096 + cont b2 * 64 + cont b3)%N in
      if is_cont b1 && is_cont b2 && is_cont b3
         && (0x10000 <=? c)%N && (c <? 0x110000)%N
      then rbind (decode r3) (fun s => Ok (c :: s))
      else Raise UnicodeDecodeError
    | _ => Raise UnicodeDecodeError
    end
  else Raise UnicodeDecodeError.
Proof. reflexivity. Qed.

(** Decoding reads back one encoded character and goes on. *)
Lemma decode_encode_char (c : N) (bc rest : list byte) :
  encode_char c = Ok bc ->
  decode (bc ++ rest) = rbind (decode rest) (fun s => Ok (c :: s)).
Proof.
  unfold encode_char.
  destruct (N.ltb_spec c 0x80) as [H1|H1].
  { intros E; apply Ok_inj in E; subst bc. cbn [app]. rewrite decode_cons. cbv zeta. rewrite to_N_byte_of_N_small by lia.
    ltb_true. reflexivity. }
  destruct (N.ltb_spec c 0x800) as [H2|H2].
  { intros E; apply Ok_inj in E; subst bc. cbn [app]. rewrite decode_cons. cbv zeta.
    rewrite to_N_byte_of_N_small by lia.
    ltb_false. ltb_false. ltb_true.
    rewrite is_cont_byte, cont_byte by lia.
    replace ((0xC0 + c / 64 - 0xC0) * 64 + c mod 64)%N with c by lia.
    reflexivity. }
  destruct (N.ltb_spec c 0x10000) as [H3|H3].
  { destruct (is_surrogate c) eqn:Hs; [discriminate|].
    intros E; apply Ok_inj in E; subst bc. cbn [app]. rewrite decode_cons. cbv zeta. rewrite to_N_byte_of_N_small by lia.
    ltb_false. ltb_false. ltb_false. ltb_true.
    rewrite !is_cont_byte, !cont_byte by lia.
    replace ((0xE0 + c / 4096 - 0xE0) * 4096 + (c / 64) mod 64 * 64 + c mod 64)%N
      with c by lia.
    rewrite Hs. leb_true. reflexivity. }
  destruct (N.ltb_spec c 0x110000) as [H4|H4]; [|discriminate].
  intros E; apply Ok_inj in E; subst bc. cbn [app]. rewrite decode_cons. cbv zeta. rewrite to_N_byte_of_N_small by lia.
  ltb_false. ltb_false. ltb_false. ltb_false. ltb_true.
  rewrite !is_cont_byte, !cont_byte by lia.
  replace ((0xF0 + c / 262144 - 0xF0) * 262144 + (c / 4096) mod 64 * 4096
           + (c / 64) mod 64 * 64 + c mod 64)%N with c by lia.
  leb_true. ltb_true. reflexivity.
Qed.

(** [bytes.decode] undoes [str.encode]. *)
Lemma decode_encode (s : list N) (b : list byte) :
  encode s = Ok b -> decode b = Ok s.
Proof.
  revert b. induction s as [|c s IH]; simpl; intros b H.
  - now injection H as <-.
  - apply rbind_Ok in H. destruct H as (bc & Ec & H).
    apply rbind_Ok in H. destruct H as (bs & Es & [= <-]).
    rewrite (decode_encode_char _ _ _ Ec), (IH _ Es). reflexivity.
Qed.

End Utf8.

(** ** The VA request grammar *)

Section RequestGrammar.

Import VistARPCConnection Reader.

(** Three digits spell every length below 1000. *)
Lemma read_len3_zfill3 (n : nat) (r : str) :
  n < 1000 ->
  exists a b c,
    zfill3 (str_of_nat n) = [a; b; c] /\
    (a =? 102)%N = false /\
    read_len3 (zfill3 (str_of_nat n) ++ r) = Some (n, r).
Proof.
  intros Hn.
  pose (check := fun n =>
    match zfill3 (str_of_nat n) with
    | [a; b; c] =>
      negb (a =? 102)%N &&
      match read_len3 [a; b; c] with
      | Some (m, []) => m =? n
      | _ => false
      end
    | _ => false
    end).
  assert (forallb check (seq 0 1000) = true) as H by (vm_compute; reflexivity).
  rewrite forallb_forall in H.
  specialize (H n ltac:(apply in_seq; lia)). unfold check in H.
  destruct (zfill3 (str_of_nat n)) as [|a [|b [|c [|]]]]; try discriminate.
  apply andb_prop in H. destruct H as [Ha H].
  exists a, b, c. repeat split.
  - now apply negb_true_iff.
  - unfold read_len3 in *. cbn [app].
    destruct (digit a); cbn [obind] in *; [|discriminate].
    destruct (digit b); cbn [obind] in *; [|discriminate].
    destruct (digit c); cbn [obind] in *; [|discriminate].
    apply Nat.eqb_eq in H. now rewrite H.
Qed.

Lemma take_app (s r : str) : take (length s) (s ++ r) = Some (s, r).
Proof.
  unfold take. rewrite length_app.
  replace (length s <=? length s + length r) with true
    by (symmetry; apply Nat.leb_le; lia).
  rewrite firstn_app, Nat.sub_diag, firstn_all, firstn_O, app_nil_r.
  rewrite skipn_app, Nat.sub_diag, skipn_all, skipn_O. reflexivity.
Qed.

(** A length-prefixed string is read back, whatever follows it. *)
Lemma read_field_lenspec (s r : str) :
  short s -> read_field (lenspec s ++ r) = Some (s, r).
Proof.
  intros Hs. unfold read_field, lenspec. rewrite <- app_assoc.
  destruct (read_len3_zfill3 (length s) (s ++ r) Hs) as (a & b & c & _ & _ & ->).
  simpl. apply take_app.
Qed.

Lemma lenspec_head (s r : str) :
  short s -> exists a rest, lenspec s ++ r = a :: rest /\ (a =? 102)%N = false.
Proof.
  intros Hs. unfold lenspec.
  destruct (read_len3_zfill3 (length s) [] Hs) as (a & b & c & -> & Ha & _).
  simpl. eauto.
Qed.

Lemma itemspecs_length (d : list (str * str)) (first : bool) :
  length d <= length (itemspecs first d).
Proof.
  revert first. induction d as [|[k v] d IH]; intros first; simpl; [lia|].
  rewrite !length_app. specialize (IH false).
  assert (3 <= length (lenspec k)).
  { unfold lenspec, zfill3. rewrite !length_app, repeat_length. lia. }
  lia.
Qed.

(** The items of a [dict] after the first key are read back. *)
Lemma read_pairs_itemspecs (d : list (str * str)) :
  Forall (fun kv => short (fst kv) /\ short (snd kv)) d ->
  forall key val r fuel,
    short key -> short val -> length d < fuel ->
    read_pairs fuel (lenspec key ++ lenspec val ++ itemspecs false d ++ 102%N :: r)
    = Some ((key, val) :: d, r).
Proof.
  induction 1 as [|[k v] d [Hk Hv] _ IH]; intros key val r fuel Hkey Hval Hfuel;
    (destruct fuel as [|fuel]; [simpl in Hfuel; lia|]); simpl read_pairs.
  - rewrite read_field_lenspec by trivial. simpl obind.
    rewrite read_field_lenspec by trivial. reflexivity.
  - rewrite read_field_lenspec by trivial. simpl obind.
    rewrite read_field_lenspec by trivial. simpl obind.
    simpl itemspecs. simpl in Hk, Hv.
    change (u "t") with [116%N]. simpl app.
    rewrite <- !app_assoc.
    rewrite (IH k v r fuel Hk Hv) by (simpl in Hfuel; lia).
    reflexivity.
Qed.

(** One parameter is read back, whatever follows it. *)
Lemma read_param_paramspec (p : param) (r : str) :
  param_ok p -> read_param (paramspec p ++ r) = Some (p, r).
Proof.
  destruct p as [s|d]; intros Hp; simpl in Hp.
  - unfold paramspec. change (u "0") with [48%N]. simpl app.
    rewrite <- app_assoc. simpl read_param.
    rewrite read_field_lenspec by trivial. reflexivity.
  - unfold paramspec. change (u "2") with [50%N]. simpl app.
    destruct d as [|[k v] d].
    + reflexivity.
    + inversion Hp as [|? ? [Hk Hv] Hd]; subst. simpl in Hk, Hv.
      simpl itemspecs. rewrite <- !app_assoc. simpl read_param.
      change (u "f" ++ r) with (102%N :: r).
      destruct (lenspec_head k (lenspec v ++ itemspecs false d ++ 102%N :: r) Hk)
        as (a & rest & E & Ha).
      rewrite E. simpl expect. rewrite Ha. rewrite <- E.
      rewrite read_pairs_itemspecs; trivial.
      pose proof (itemspecs_length d false).
      rewrite !length_app. cbn [length]. lia.
Qed.

Lemma paramspec_head (p : param) (r : str) :
  exists a b rest, paramspec p ++ r = a :: b :: rest /\ (a =? 52)%N = false.
Proof.
  destruct p as [s|d]; unfold paramspec.
  - change (u "0") with [48%N]. simpl.
    unfold lenspec, zfill3.
    destruct (repeat 48%N (3 - length (str_of_nat (length s))) ++ str_of_nat (length s))
      as [|x l] eqn:E; simpl; eauto.
    rewrite <- app_assoc. destruct s; simpl; eauto.
  - change (u "2") with [50%N]. simpl.
    destruct (itemspecs true d) as [|x l]; simpl; eauto.
Qed.

(** The parameters and the end token are read back. *)
Lemma read_params_paramspecs (params : list param) :
  Forall param_ok params ->
  forall fuel, length params < fuel ->
    read_params fuel (concat (map paramspec params) ++ [4%N]) = Some params.
Proof.
  induction 1 as [|p params Hp _ IH]; intros fuel Hfuel;
    (destruct fuel as [|fuel]; [simpl in Hfuel; lia|]).
  - reflexivity.
  - simpl concat. rewrite <- app_assoc.
    destruct (paramspec_head p (concat (map paramspec params) ++ [4%N]))
      as (a & b & rest & E & _).
    simpl read_params. rewrite E. rewrite <- E.
    rewrite read_param_paramspec by trivial. simpl obind.
    rewrite IH by (simpl in Hfuel; lia). reflexivity.
Qed.

Lemma paramspecs_length (params : list param) :
  length params <= length (concat (map paramspec params)).
Proof.
  induction params as [|p params IH]; simpl; [lia|].
  rewrite length_app.
  assert (1 <= length (paramspec p)).
  { destruct p; unfold paramspec; rewrite !length_app; simpl; lia. }
  lia.
Qed.

End RequestGrammar.

(** C7. For every name whose length [chr] accepts (a bounded length)
    and every list of parameters whose strings have fewer than 1000
    characters, [makeRequest] returns a request, and reading that request
    gives back the kind of call, the name and the very list of
    parameters, scalars and keyed collections in their order; so does
    reading the bytes the client puts on the wire for it. *)
Theorem makeRequest_round_trip (name : str) (params : list param) (isCommand : bool) :
  (N.of_nat (length name) < 0x110000)%N ->
  Forall param_ok params ->
  exists request,
    VistARPCConnection.makeRequest name params isCommand = Ok request /\
    Reader.parseRequest request = Some (isCommand, name, params) /\
    (forall wire, encode request = Ok wire ->
                  Reader.parseWire wire = Some (isCommand, name, params)).
Proof.
  intros Hname Hparams.
  assert (forall request,
             Reader.parseRequest request = Some (isCommand, name, params) ->
             forall wire, encode request = Ok wire ->
                          Reader.parseWire wire = Some (isCommand, name, params)) as Hwire.
  { intros request Hp wire Hw. unfold Reader.parseWire.
    now rewrite (decode_encode _ _ Hw). }
  unfold VistARPCConnection.makeRequest, chr.
  apply N.ltb_lt in Hname. rewrite Hname. cbn [rbind].
  eexists. split; [reflexivity|].
  match goal with |- ?P /\ _ => assert P as Hparse end; [|split; eauto].
  unfold Reader.parseRequest.
  change (u "[XWB]1130") with [91; 88; 87; 66; 93; 49; 49; 51; 48]%N.
  cbn [app VistARPCConnection.re_match N.eqb Pos.eqb andb skipn].
  assert (Reader.read_paramsspecs
            (u "5" ++ match params with
                      | [] => u "4" ++ u "f"
                      | _ :: _ => concat (map VistARPCConnection.paramspec params)
                      end ++ [4%N]) = Some params) as Hspecs.
  { change (u "5") with [53%N]. unfold Reader.read_paramsspecs.
    cbn [app Reader.expect N.eqb Pos.eqb Reader.obind].
    destruct params as [|p params]; [reflexivity|].
    destruct (paramspec_head p (concat (map VistARPCConnection.paramspec params) ++ [4%N]))
      as (a & b & rest & E & Ha).
    cbn [map concat]. rewrite <- app_assoc. rewrite E.
    cbn [Reader.expect]. rewrite Ha. rewrite <- E.
    rewrite app_assoc. change (VistARPCConnection.paramspec p ++
      concat (map VistARPCConnection.paramspec params))
      with (concat (map VistARPCConnection.paramspec (p :: params))).
    apply read_params_paramspecs; trivial.
    pose proof (paramspecs_length (p :: params)).
    rewrite length_app. cbn [length] in *. lia. }
  destruct isCommand.
  - change (u "4") with [52%N] at 1. cbn [app].
    unfold Reader.read_command. cbn [Reader.expect N.eqb Pos.eqb Reader.obind].
    rewrite Nat2N.id, take_app. cbn [Reader.obind].
    rewrite <- app_assoc, Hspecs. reflexivity.
  - change (u "2" ++ 1%N :: u "1") with [50; 1; 49]%N. cbn [app].
    unfold Reader.read_command. cbn [Reader.expect N.eqb Pos.eqb Reader.obind].
    rewrite Nat2N.id, take_app. cbn [Reader.obind].
    rewrite <- app_assoc, Hspecs. reflexivity.
Qed.

(** The name [AB] with a scalar, a collection of two pairs and an empty
    collection. *)
Lemma makeRequest_round_trip_witness :
  exists request,
    VistARPCConnection.makeRequest (u "AB")
      [Scalar (u "2"); Keyed [(u "k", u "vv"); (u "1", [])]; Keyed []] false
    = Ok request /\
    Reader.parseRequest request =
      Some (false, u "AB", [Scalar (u "2"); Keyed [(u "k", u "vv"); (u "1", [])]; Keyed []]) /\
    (forall wire, encode request = Ok wire ->
       Reader.parseWire wire =
       Some (false, u "AB", [Scalar (u "2"); Keyed [(u "k", u "vv"); (u "1", [])]; Keyed []])).
Proof.
  apply (makeRequest_round_trip (u "AB")
           [Scalar (u "2"); Keyed [(u "k", u "vv"); (u "1", [])]; Keyed []] false).
  - vm_compute. reflexivity.
  - repeat constructor; unfold short; simpl; lia.
Defined.

(** ** Building the pool *)

Section Prebuild.

Import RPCConnectionPool.

Lemma range_down_spec (poolSize i : Z) :
  In i (range_down poolSize) -> (1 <= i <= poolSize)%Z.
Proof.
  unfold range_down. rewrite in_map_iff. intros (k & <- & Hk).
  apply in_seq in Hk. lia.
Qed.

Lemma range_down_length (poolSize : Z) :
  Z.of_nat (length (range_down poolSize)) = Z.max 0 poolSize.
Proof. unfold range_down. rewrite length_map, length_seq. lia. Qed.

(** Putting one new connection per number on the queue. *)
Lemma fold_put {A} (f : Z -> A) (P : A -> Prop) (l : list Z) :
  forall q,
    Forall P q -> (forall i, In i l -> P (f i)) ->
    length (fold_left (fun q i => f i :: q) l q) = length l + length q /\
    Forall P (fold_left (fun q i => f i :: q) l q).
Proof.
  induction l as [|i l IH]; intros q Hq Hf; simpl.
  - split; trivial.
  - destruct (IH (f i :: q)) as [Hlen HP].
    + constructor; trivial. apply Hf. now left.
    + intros j Hj. apply Hf. now right.
    + split; trivial. rewrite Hlen. simpl. lia.
Qed.

End Prebuild.

(** C10. The pool is built without any check of [brokerType]: the queue
    gets [poolSize] connections (none for a [poolSize] below 1), and for
    every [brokerType] other than the string [CIA] each of them is a
    [VistARPCConnection], made from the pool's parameters with a
    [poolId] from 1 to [poolSize]. *)
Theorem prebuildConnections_defaults_to_VistA
        (brokerType : str) (poolSize : Z) (host : str) (port : Z)
        (access verify context : str) :
  brokerType <> u "CIA" ->
  let pool := RPCConnectionPool.prebuildConnections
                brokerType poolSize host port access verify context in
  Z.of_nat (length (RPCConnectionPool.connectionQueue pool)) = Z.max 0 poolSize /\
  Forall (fun c => exists i, (1 <= i <= poolSize)%Z /\
                   c = RPCConnectionPool.VistA
                         (VistARPCConnection.init host port access verify context i))
         (RPCConnectionPool.connectionQueue pool).
Proof.
  intros Hne pool. subst pool. unfold RPCConnectionPool.prebuildConnections.
  cbn [RPCConnectionPool.connectionQueue].
  assert (RPCConnectionPool.str_eqb brokerType (u "CIA") = false) as ->.
  { unfold RPCConnectionPool.str_eqb.
    destruct (list_eq_dec N.eq_dec brokerType (u "CIA")); congruence. }
  match goal with
  | |- context [fold_left ?put ?l []] =>
    destruct (fold_put
                (fun i => RPCConnectionPool.VistA
                            (VistARPCConnection.init host port access verify context i))
                (fun c => exists i, (1 <= i <= poolSize)%Z /\
                   c = RPCConnectionPool.VistA
                         (VistARPCConnection.init host port access verify context i))
                l []) as [Hlen HP]
  end.
  - constructor.
  - intros i Hi. exists i. split; trivial. now apply range_down_spec.
  - split; trivial. rewrite Hlen, Nat.add_0_r. apply range_down_length.
Qed.

(** A pool of three for the tag [VISTA]. *)
Lemma prebuildConnections_defaults_to_VistA_witness :
  let pool := RPCConnectionPool.prebuildConnections
                (u "VISTA") 3 (u "127.0.0.1") 9997 (u "a") (u "v") (u "c") in
  Z.of_nat (length (RPCConnectionPool.connectionQueue pool)) = Z.max 0 3 /\
  Forall (fun c => exists i, (1 <= i <= 3)%Z /\
                   c = RPCConnectionPool.VistA
                         (VistARPCConnection.init (u "127.0.0.1") 9997 (u "a") (u "v") (u "c") i))
         (RPCConnectionPool.connectionQueue pool).
Proof.
  apply (prebuildConnections_defaults_to_VistA
           (u "VISTA") 3 (u "127.0.0.1") 9997 (u "a") (u "v") (u "c")).
  vm_compute. discriminate.
Defined.

(** The top of the queue is the connection built last, with [poolId] 1;
    the tag [CIA] alone gives CIA connections. *)
Example prebuildConnections_order :
  RPCConnectionPool.connectionQueue
    (RPCConnectionPool.prebuildConnections (u "cia") 2 [] 0 [] [] []) =
  [RPCConnectionPool.VistA (VistARPCConnection.init [] 0 [] [] [] 1);
   RPCConnectionPool.VistA (VistARPCConnection.init [] 0 [] [] [] 2)] /\
  RPCConnectionPool.connectionQueue
    (RPCConnectionPool.prebuildConnections (u "CIA") 2 [] 0 [] [] []) =
  [RPCConnectionPool.CIA (CIARPCConnection.init [] 0 [] [] [] 1);
   RPCConnectionPool.CIA (CIARPCConnection.init [] 0 [] [] [] 2)].
Proof. split; reflexivity. Qed.

(** ** Reading a reply *)

Section Reading.

Import RPCConnection.

Variable e : N.

(** Once a chunk is kept, the loop keeps every chunk that is not the
    last one. *)
Lemma read_chunks_kept (bs : list (list byte)) (kept : list (list N)) :
  Forall2 (fun b s => decode b = Ok s) bs kept ->
  Forall (nonterminal e) kept ->
  forall acc rest,
    acc <> [] ->
    read_chunks e acc (map Chunk bs ++ rest) = read_chunks e (acc ++ kept) rest.
Proof.
  induction 1 as [|b s bs kept Hb _ IH]; intros Hk acc rest Hacc.
  - now rewrite app_nil_r.
  - inversion Hk as [|? ? [Hne Hlast] Hk']; subst.
    cbn [map app read_chunks]. rewrite Hb.
    destruct s as [|c0 s]; [congruence|].
    destruct acc as [|a acc]; [congruence|].
    apply N.eqb_neq in Hlast. rewrite Hlast.
    rewrite IH; trivial.
    + now rewrite <- app_assoc.
    + discriminate.
Qed.

(** The chunk at which the loop stops. *)
Lemma read_chunks_final (b : list byte) (final : list N) (acc : list (list N))
      (rest : list recv_result) :
  decode b = Ok final -> terminal e final -> acc <> [] ->
  exists msgChunks,
    read_chunks e acc (Chunk b :: rest) = (Ok msgChunks, rest) /\
    concat msgChunks = concat acc ++ removelast final.
Proof.
  intros Hb Hf Hacc. cbn [read_chunks]. rewrite Hb.
  destruct final as [|c0 final].
  - exists acc. split; trivial. now rewrite app_nil_r.
  - destruct acc as [|a acc]; [congruence|].
    destruct Hf as [Hf|Hf]; [discriminate|].
    apply N.eqb_eq in Hf. rewrite Hf.
    eexists. split; [reflexivity|].
    rewrite concat_app. cbn [concat]. now rewrite app_nil_r.
Qed.

End Reading.

(** C4, amended. On a live socket, let the coming calls of [recv] give
    chunks that decode to [first :: more], and take away the first two
    characters of [first] when its first one is NUL. If these chunks are
    [kept ++ [final]], where no chunk of [kept] is empty or ends with the
    end marker and [final] is empty or ends with it, [readToEndMarker]
    returns the chunks of [kept] joined, followed by [final] without its
    marker. When [final] is empty, which is how a peer that closes the
    connection shows, that is the partial reply read so far, returned
    as a string with no exception. *)
Theorem readToEndMarker_accumulates
        (st : RPCConnection.St) (fd : nat) (b0 : bytes) (bs : list bytes)
        (first : str) (more kept : list str) (final : str)
        (rest : list recv_result) :
  RPCConnection.sock (RPCConnection.self st) = Some fd ->
  is_live fd (RPCConnection.world st) = true ->
  recvs (RPCConnection.world st) = map Chunk (b0 :: bs) ++ rest ->
  decode b0 = Ok first ->
  Forall2 (fun b s => decode b = Ok s) bs more ->
  (first <> [] -> strip_nul first <> []) ->
  strip_nul first :: more = kept ++ [final] ->
  Forall (nonterminal (RPCConnection.endMark (RPCConnection.self st))) kept ->
  terminal (RPCConnection.endMark (RPCConnection.self st)) final ->
  RPCConnection.readToEndMarker st =
  (Ok (concat kept ++ removelast final),
   (RPCConnection.self st, with_recvs rest (RPCConnection.world st))).
Proof.
  intros Hsock Hlive Hrecvs Hb0 Hbs Hstrip Hsplit Hkept Hfinal.
  set (e := RPCConnection.endMark (RPCConnection.self st)) in *.
  assert (exists msgChunks,
             RPCConnection.read_chunks e [] (map Chunk (b0 :: bs) ++ rest)
             = (Ok msgChunks, rest) /\
             concat msgChunks = concat kept ++ removelast final) as (msgChunks & Hread & Hcat).
  { destruct kept as [|k0 kept].
    - (* the first chunk is the last *)
      cbn [app] in Hsplit. injection Hsplit as Hf Hmore. subst more.
      inversion Hbs; subst bs. cbn [map app RPCConnection.read_chunks].
      rewrite Hb0. destruct first as [|c0 first].
      + exists []. split; trivial. now rewrite <- Hf.
      + specialize (Hstrip ltac:(discriminate)).
        unfold strip_nul in Hf, Hstrip. rewrite Hf in Hstrip.
        destruct Hfinal as [Hfinal|Hfinal]; [congruence|].
        rewrite Hf. destruct final as [|f0 final]; [congruence|].
        apply N.eqb_eq in Hfinal. rewrite Hfinal.
        eexists. split; [reflexivity|]. cbn [app concat]. now rewrite app_nil_r.
    - (* the first chunk is kept *)
      cbn [app] in Hsplit. injection Hsplit as Hk0 Hmore. subst more.
      inversion Hkept as [|? ? [Hne Hlast] Hkept']; subst.
      apply Forall2_app_inv_r in Hbs.
      destruct Hbs as (bk & bf & Hbk & Hbf & ->).
      inversion Hbf as [|bfin ? ? ? Hfin Hnil]; subst. inversion Hnil; subst.
      cbn [map app RPCConnection.read_chunks]. rewrite Hb0.
      destruct first as [|c0 first]; [now contradiction Hne|].
      unfold strip_nul in Hne, Hlast.
      destruct (if (c0 =? 0)%N then skipn 2 (c0 :: first) else c0 :: first)
        as [|m0 msgChunk] eqn:Hm; [congruence|].
      apply N.eqb_neq in Hlast. rewrite Hlast.
      rewrite map_app, <- app_assoc.
      rewrite (read_chunks_kept e bk kept Hbk Hkept') by discriminate.
      destruct (read_chunks_final e bfin final (([] ++ [m0 :: msgChunk]) ++ kept) rest
                  Hfin Hfinal) as (msgChunks & Hr & Hc).
      { discriminate. }
      exists msgChunks. split; trivial.
      rewrite Hc. unfold strip_nul. rewrite Hm. reflexivity. }
  unfold RPCConnection.readToEndMarker, bind, RPCConnection.the_sock.
  rewrite Hsock, Hlive, Hrecvs. fold e. rewrite Hread.
  cbn [rbind]. now rewrite Hcat.
Qed.

(** A reply in two chunks, the first with the leading NUL pair. *)
Lemma readToEndMarker_accumulates_witness :
  RPCConnection.readToEndMarker
    (Scenario.vista_on 0,
     Scenario.connected [Chunk [x00; x00; "a"%byte]; Scenario.reply "b"; Scenario.text "c"]) =
  (Ok (concat [u "a"] ++ removelast [98%N; 4%N]),
   (Scenario.vista_on 0, Scenario.connected [Scenario.text "c"])).
Proof.
  apply (readToEndMarker_accumulates
           (Scenario.vista_on 0,
            Scenario.connected [Chunk [x00; x00; "a"%byte]; Scenario.reply "b"; Scenario.text "c"])
           0 [x00; x00; "a"%byte] [["b"%byte; x04]]
           [0%N; 0%N; 97%N] [[98%N; 4%N]] [u "a"] [98%N; 4%N] [Scenario.text "c"]).
  - reflexivity.
  - reflexivity.
  - reflexivity.
  - reflexivity.
  - repeat constructor.
  - intros _. discriminate.
  - reflexivity.
  - constructor; [|constructor]. split; [discriminate | vm_compute; discriminate].
  - right. reflexivity.
Defined.

(** C4 as stated fails: the peer sends [3251] with no end marker and
    closes the connection; [invokeRPC] returns that text. *)
Lemma invokeRPC_returns_partial_reply :
  ~ (forall (st : RPCConnection.St) (name : str) (params : list param) (reply : str),
        fst (VistARPCConnection.invokeRPC name params st) = Ok reply ->
        reply <> [] ->
        exists b, In (Chunk b) (recvs (RPCConnection.world st)) /\ In x04 b).
Proof.
  intros H.
  destruct (H (Scenario.vista_on 0, Scenario.connected [Scenario.text "3251"])
              (u "ORWU DT") [Scalar (u "NOW")] (u "3251") eq_refl ltac:(discriminate))
    as (b & Hin & Hb).
  simpl in Hin. destruct Hin as [Hin|[]]. injection Hin as <-.
  simpl in Hb. repeat (destruct Hb as [Hb|Hb]; [discriminate|]). exact Hb.
Qed.

(** ** Closing a transport *)

Lemma is_live_log (fd : nat) (e : event) (w : World) :
  is_live fd (log e w) = is_live fd w.
Proof. reflexivity. Qed.

Lemma is_live_closed (fd : nat) (w : World) :
  is_live fd (with_live (filter (fun x => negb (x =? fd)) (live w)) w) = false.
Proof.
  unfold is_live. cbn [live with_live].
  induction (live w) as [|x l IH]; trivial. cbn [filter].
  destruct (Nat.eqb_spec x fd) as [->|Hne]; cbn [negb]; trivial.
  cbn [existsb]. rewrite IH.
  destruct (Nat.eqb_spec fd x); [congruence | reflexivity].
Qed.

(** C9, amended. On a transport that never had a socket, [close] does
    nothing and raises nothing. On one that holds a socket, it sends
    the token [#BYE#]. When the socket is open and the send goes
    through, it then closes the socket, and the transport keeps the
    handle of that socket. When the send raises, because the socket has
    been closed before or the peer is gone, [close] raises that socket
    error and does not close the socket: the open sockets are as they
    were. *)
Theorem close_spec (st : RPCConnection.St) :
  match RPCConnection.sock (RPCConnection.self st) with
  | None => RPCConnection.close st = (Ok tt, st)
  | Some fd =>
    (is_live fd (RPCConnection.world st) = true ->
     hd true (sends (RPCConnection.world st)) = true ->
     exists w,
       RPCConnection.close st = (Ok tt, (RPCConnection.self st, w)) /\
       trace w = trace (RPCConnection.world st)
                 ++ [ESend fd ["#"%byte; "B"%byte; "Y"%byte; "E"%byte; "#"%byte];
                     EClose fd] /\
       is_live fd w = false) /\
    (is_live fd (RPCConnection.world st) = false \/
     hd true (sends (RPCConnection.world st)) = false ->
     exists w,
       RPCConnection.close st = (Raise SocketError, (RPCConnection.self st, w)) /\
       trace w = trace (RPCConnection.world st)
                 ++ [ESend fd ["#"%byte; "B"%byte; "Y"%byte; "E"%byte; "#"%byte]] /\
       live w = live (RPCConnection.world st))
  end.
Proof.
  destruct st as [c w]. unfold RPCConnection.self, RPCConnection.world. cbn [fst snd].
  destruct (RPCConnection.sock c) as [fd|] eqn:Hsock.
  - assert (RPCConnection.close (c, w) =
            let w1 := log (ESend fd ["#"%byte; "B"%byte; "Y"%byte; "E"%byte; "#"%byte]) w in
            if is_live fd w then
              match sends w with
              | false :: rest => (Raise SocketError, (c, with_sends rest w1))
              | true :: rest =>
                (Ok tt,
                 (c, with_live (filter (fun x => negb (x =? fd)) (live w))
                               (log (EClose fd) (with_sends rest w1))))
              | [] =>
                (Ok tt,
                 (c, with_live (filter (fun x => negb (x =? fd)) (live w))
                               (log (EClose fd) w1)))
              end
            else (Raise SocketError, (c, w1))) as Hclose.
    { unfold RPCConnection.close, bind, gets, lift, RPCConnection.liftW,
        RPCConnection.self, RPCConnection.world.
      cbn [fst snd]. rewrite Hsock.
      change (encode (u "#BYE#"))
        with (@Ok (list byte) ["#"%byte; "B"%byte; "Y"%byte; "E"%byte; "#"%byte]).
      cbv iota beta zeta. unfold sock_send, sock_close. cbn [fst snd].
      rewrite is_live_log.
      destruct (is_live fd w); [|reflexivity].
      cbn [sends log]. destruct (sends w) as [|[|] rest]; reflexivity. }
    cbv zeta in Hclose. rewrite Hclose. split.
    + intros Hlive Hsend. rewrite Hlive.
      destruct (sends w) as [|[|] rest] eqn:Hs; cbn [hd] in Hsend; try discriminate.
      * eexists. split; [reflexivity|]. split.
        -- cbn [trace with_live log]. now rewrite <- app_assoc.
        -- apply (is_live_closed fd
                    (log (EClose fd)
                       (log (ESend fd ["#"%byte; "B"%byte; "Y"%byte; "E"%byte; "#"%byte]) w))).
      * eexists. split; [reflexivity|]. split.
        -- cbn [trace with_live log with_sends]. now rewrite <- app_assoc.
        -- apply (is_live_closed fd
                    (log (EClose fd)
                       (with_sends rest
                          (log (ESend fd ["#"%byte; "B"%byte; "Y"%byte; "E"%byte; "#"%byte])
                               w)))).
    + intros Hfail. destruct (is_live fd w) eqn:Hlive.
      * destruct Hfail as [|Hfail]; [discriminate|].
        destruct (sends w) as [|[|] rest]; cbn [hd] in Hfail; try discriminate.
        eexists. split; [reflexivity|]. split; reflexivity.
      * eexists. split; [reflexivity|]. split; reflexivity.
  - unfold RPCConnection.close, bind, gets, ret. cbn [fst snd].
    unfold RPCConnection.self. cbn [fst]. rewrite Hsock. reflexivity.
Qed.

(** A connected transport. *)
Lemma close_spec_witness :
  exists w,
    RPCConnection.close (Scenario.vista_on 0, Scenario.connected []) =
      (Ok tt, (Scenario.vista_on 0, w)) /\
    trace w = trace (Scenario.connected [])
              ++ [ESend 0 ["#"%byte; "B"%byte; "Y"%byte; "E"%byte; "#"%byte];
                  EClose 0] /\
    is_live 0 w = false.
Proof.
  apply (proj1 (close_spec (Scenario.vista_on 0, Scenario.connected []))); reflexivity.
Defined.

(** C9 as stated fails: a second [close] finds the handle of the closed
    socket still in place, sends on it and raises. *)
Lemma close_twice_raises :
  ~ (forall st : RPCConnection.St,
        fst (RPCConnection.close st) = Ok tt ->
        fst (RPCConnection.close (snd (RPCConnection.close st))) = Ok tt).
Proof.
  intros H.
  specialize (H (Scenario.vista_on 0, Scenario.connected []) eq_refl).
  vm_compute in H. discriminate.
Qed.

Example close_twice :
  fst (RPCConnection.close
         (snd (RPCConnection.close (Scenario.vista_on 0, Scenario.connected []))))
  = Raise SocketError.
Proof. reflexivity. Qed.

(** ** What calls keep *)

Section Preservation.

Context {S : Type} (R : S -> S -> Prop) `{!PreOrder R}.

Lemma preserves_ret {A} (a : A) : preserves R (ret a).
Proof. intros s. reflexivity. Qed.

Lemma preserves_raise {A} (e : exn) : preserves R (@raise S A e).
Proof. intros s. reflexivity. Qed.

Lemma preserves_lift {A} (r : result A) : preserves R (lift r).
Proof. intros s. reflexivity. Qed.

Lemma preserves_gets {A} (f : S -> A) : preserves R (gets f).
Proof. intros s. reflexivity. Qed.

Lemma preserves_bind {A B} (m : M S A) (k : A -> M S B) :
  preserves R m -> (forall a, preserves R (k a)) -> preserves R (bind m k).
Proof.
  intros Hm Hk s. unfold bind. specialize (Hm s).
  destruct (m s) as [[a|e|] s1]; cbn [snd] in *; trivial.
  transitivity s1; [exact Hm | apply Hk].
Qed.

Lemma preserves_try {A} (body handler : M S A) :
  preserves R body -> preserves R handler ->
  preserves R (try_except_socket_error body handler).
Proof.
  intros Hb Hh s. unfold try_except_socket_error. specialize (Hb s).
  destruct (body s) as [[a|e|] s1]; cbn [snd] in *; trivial.
  destruct e; trivial. transitivity s1; [exact Hb | apply Hh].
Qed.

End Preservation.

#[local] Instance same_sockets_PreOrder : PreOrder same_sockets.
Proof.
  split.
  - intros w. now split.
  - intros a b c [H1 H2] [H3 H4]. split; congruence.
Qed.

#[local] Instance trace_grows_PreOrder : PreOrder trace_grows.
Proof.
  split.
  - intros w. exists []. now rewrite app_nil_r.
  - intros a b c [t1 H1] [t2 H2]. exists (t1 ++ t2). now rewrite H2, H1, app_assoc.
Qed.

#[local] Instance calm_PreOrder : PreOrder calm.
Proof.
  split.
  - intros w. repeat split; reflexivity.
  - intros a b c (H1 & H2 & H3) (H4 & H5 & H6). split; [|split].
    + etransitivity; eauto.
    + etransitivity; eauto.
    + congruence.
Qed.

#[local] Instance same_self_PreOrder (Rw : World -> World -> Prop) `{!PreOrder Rw} :
  PreOrder (same_self Rw).
Proof.
  split.
  - intros st. split; reflexivity.
  - intros a b c [H1 H2] [H3 H4]. split; [congruence | etransitivity; eauto].
Qed.

#[local] Instance on_world_PreOrder (Rw : World -> World -> Prop) `{!PreOrder Rw} :
  PreOrder (on_world Rw).
Proof.
  split.
  - intros st. unfold on_world. reflexivity.
  - intros a b c H1 H2. unfold on_world in *. etransitivity; eauto.
Qed.

#[local] Instance steady_PreOrder : PreOrder steady.
Proof. unfold steady. typeclasses eauto. Qed.

#[local] Instance growing_PreOrder : PreOrder growing.
Proof. unfold growing. typeclasses eauto. Qed.

(** A call on the environment alone leaves the transport as it is. *)
Lemma steady_liftW {A} (m : M World A) :
  preserves calm m -> preserves steady (RPCConnection.liftW m).
Proof.
  intros H st. unfold RPCConnection.liftW. specialize (H (RPCConnection.world st)).
  destruct (m (RPCConnection.world st)) as [r w']. split; trivial.
Qed.

Lemma growing_liftW {A} (m : M World A) :
  preserves trace_grows m -> preserves growing (RPCConnection.liftW m).
Proof.
  intros H st. unfold RPCConnection.liftW. specialize (H (RPCConnection.world st)).
  destruct (m (RPCConnection.world st)) as [r w']. exact H.
Qed.

(** What a handshake step keeps, every call keeps. *)
Lemma steady_growing {A} (m : M RPCConnection.St A) :
  preserves steady m -> preserves growing m.
Proof. intros H st. destruct (H st) as (_ & _ & Ht & _). exact Ht. Qed.

(** A call made of [bind], [ret], [lift], [gets], [raise], branches and
    [try] keeps what its parts keep; [known] closes the parts. *)
Ltac pres_with known :=
  repeat first
    [ solve [known]
    | apply preserves_ret; typeclasses eauto
    | apply preserves_raise; typeclasses eauto
    | apply preserves_lift; typeclasses eauto
    | apply preserves_gets; typeclasses eauto
    | apply preserves_bind; [typeclasses eauto | | intros]
    | apply preserves_try; [typeclasses eauto | | ]
    | match goal with
      | |- preserves _ (if ?c then _ else _) => destruct c
      | |- preserves _ (match ?x with _ => _ end) => destruct x
      end ].

Lemma calm_same (w w' : World) :
  live w' = live w -> next_fd w' = next_fd w -> trace w' = trace w -> calm w w'.
Proof.
  intros H1 H2 H3. split; [now split|]. split.
  - exists []. now rewrite app_nil_r.
  - unfold connections. now rewrite H3.
Qed.

Lemma calm_randint : preserves calm randint.
Proof.
  intros w. unfold randint. destruct (rand w); cbn [snd]; now apply calm_same.
Qed.

Lemma calm_redraw (ra rb : nat) : preserves calm (RPCConnection.redraw ra rb).
Proof.
  intros w. unfold RPCConnection.redraw.
  destruct (RPCConnection.redraw_from ra rb (rand w)) as [r rest].
  now apply calm_same.
Qed.

Lemma calm_encrypt (val : list N) : preserves calm (RPCConnection.encrypt val).
Proof.
  unfold RPCConnection.encrypt.
  pres_with ltac:(auto using calm_randint, calm_redraw).
Qed.

Lemma calm_gethostbyname : preserves calm gethostbyname.
Proof. intros w. now apply calm_same. Qed.

Lemma calm_sock_send (fd : nat) (data : list byte) : preserves calm (sock_send fd data).
Proof.
  intros w. unfold sock_send.
  destruct (is_live fd (log (ESend fd data) w));
    [destruct (sends (log (ESend fd data) w)) as [|[|] rest]|];
    (split; [now split|]; split; [now exists [ESend fd data]|]);
    unfold connections; cbn [snd trace log with_sends];
      rewrite filter_app; cbn [filter is_connect]; apply app_nil_r.
Qed.

Lemma steady_the_sock : preserves steady RPCConnection.the_sock.
Proof.
  intros st. unfold RPCConnection.the_sock.
  destruct (RPCConnection.sock (RPCConnection.self st)); reflexivity.
Qed.

Lemma steady_send (s : list N) : preserves steady (RPCConnection.send s).
Proof.
  unfold RPCConnection.send.
  pres_with ltac:(auto using steady_the_sock, steady_liftW, calm_sock_send).
Qed.

Lemma steady_readToEndMarker : preserves steady RPCConnection.readToEndMarker.
Proof.
  unfold RPCConnection.readToEndMarker.
  pres_with ltac:(auto using steady_the_sock).
  intros st.
  match goal with |- context [is_live ?fd _] =>
    destruct (is_live fd (RPCConnection.world st)); [|reflexivity]
  end.
  destruct (RPCConnection.read_chunks (RPCConnection.endMark (RPCConnection.self st)) []
              (recvs (RPCConnection.world st))) as [r rest].
  split; [reflexivity|]. now apply calm_same.
Qed.

(** No step of the handshake touches the fields of the transport, the
    set of live sockets or the connections made. *)
Lemma steady_handshake : preserves steady VistARPCConnection.handshake.
Proof.
  unfold VistARPCConnection.handshake.
  pres_with ltac:(auto using steady_send, steady_readToEndMarker, steady_liftW,
                  calm_encrypt, calm_gethostbyname).
Qed.

Lemma grows_socket_new : preserves trace_grows socket_new.
Proof. intros w. exists []. cbn. now rewrite app_nil_r. Qed.

Lemma grows_sock_connect (fd : nat) (host : list N) (port : Z) :
  preserves trace_grows (sock_connect fd host port).
Proof.
  intros w. unfold sock_connect.
  destruct (connects (log (EConnect fd host port) w)) as [|[|] rest];
    now exists [EConnect fd host port].
Qed.

Lemma grows_sock_close (fd : nat) : preserves trace_grows (sock_close fd).
Proof. intros w. now exists [EClose fd]. Qed.

Lemma growing_modify_self (f : RPCConnection.St -> RPCConnection.t) :
  preserves growing (modify (fun st => (f st, RPCConnection.world st))).
Proof. intros st. unfold growing, on_world. cbn. reflexivity. Qed.

Lemma growing_base_connect : preserves growing RPCConnection.connect.
Proof.
  unfold RPCConnection.connect.
  pres_with ltac:(auto using growing_liftW, grows_socket_new, grows_sock_connect,
                  grows_sock_close, growing_modify_self).
Qed.

Lemma growing_connect : preserves growing VistARPCConnection.connect.
Proof.
  unfold VistARPCConnection.connect.
  pres_with ltac:(auto using growing_base_connect, steady_growing, steady_handshake).
Qed.

Section EngineGrows.

Variable self_connect : M RPCConnection.St unit.
Variable self_makeRequest : list N -> list param -> M RPCConnection.St (list N).
Hypothesis connect_grows : preserves growing self_connect.
Hypothesis makeRequest_grows : forall name params,
    preserves growing (self_makeRequest name params).

Lemma growing_exchange (name : list N) (params : list param) :
  preserves growing (RPCConnection.exchange self_makeRequest name params).
Proof.
  unfold RPCConnection.exchange.
  pres_with ltac:(auto using steady_growing, steady_send, steady_readToEndMarker).
Qed.

Lemma growing_invokeRPC (name : list N) (params : list param) :
  preserves growing (RPCConnection.invokeRPC self_connect self_makeRequest name params).
Proof.
  unfold RPCConnection.invokeRPC.
  pres_with ltac:(auto using growing_exchange).
Qed.

End EngineGrows.

(** ** Connecting *)

Lemma starts_with_bind {A B} (st : RPCConnection.St) (ev : event)
      (m : M RPCConnection.St A) (k : A -> M RPCConnection.St B) :
  starts_with st ev m -> (forall a, preserves growing (k a)) ->
  starts_with st ev (bind m k).
Proof.
  intros [tl Hm] Hk. unfold starts_with, bind.
  destruct (m st) as [[a|e|] s1] eqn:E; cbn [snd] in *; eauto.
  destruct (Hk a s1) as [tl2 H2]. exists (tl ++ tl2).
  rewrite H2, Hm, <- app_assoc. reflexivity.
Qed.

Lemma starts_with_try {A} (st : RPCConnection.St) (ev : event)
      (body handler : M RPCConnection.St A) :
  starts_with st ev body -> preserves growing handler ->
  starts_with st ev (try_except_socket_error body handler).
Proof.
  intros [tl Hm] Hh. unfold starts_with, try_except_socket_error.
  destruct (body st) as [[a|e|] s1] eqn:E; cbn [snd] in *; eauto.
  destruct e; eauto.
  destruct (Hh s1) as [tl2 H2]. exists (tl ++ tl2).
  rewrite H2, Hm, <- app_assoc. reflexivity.
Qed.

(** A call that returns at once and leaves the state alone comes before
    the first event. *)
Lemma starts_with_after {A B} (st : RPCConnection.St) (ev : event)
      (m : M RPCConnection.St A) (k : A -> M RPCConnection.St B) (a : A) :
  m st = (Ok a, st) -> starts_with st ev (k a) -> starts_with st ev (bind m k).
Proof. intros Hm Hk. unfold starts_with, bind. now rewrite Hm. Qed.

(** On a transport that has a socket, [send] hands the bytes to it. *)
Lemma starts_with_send (st : RPCConnection.St) (fd : nat) (s : list N) (data : list byte) :
  RPCConnection.sock (RPCConnection.self st) = Some fd ->
  encode s = Ok data ->
  starts_with st (ESend fd data) (RPCConnection.send s).
Proof.
  intros Hsock Henc. exists []. destruct st as [c w].
  unfold RPCConnection.send, bind, RPCConnection.the_sock, lift, RPCConnection.liftW,
    RPCConnection.self, RPCConnection.world in *.
  cbn [fst snd] in *. rewrite Hsock, Henc. unfold sock_send. cbn [fst snd].
  destruct (is_live fd (log (ESend fd data) w));
    [destruct (sends (log (ESend fd data) w)) as [|[|] rest]|]; reflexivity.
Qed.

(** The base [connect]: the transport holds the new socket whatever
    happens next; the socket is live when [connect] returns, and a
    socket error is all it can raise. *)
Lemma base_connect_spec (st : RPCConnection.St) :
  exists r w,
    RPCConnection.connect st =
      (r, (RPCConnection.with_sock (Some (next_fd (RPCConnection.world st)))
                                   (RPCConnection.self st), w)) /\
    (r = Ok tt /\ is_live (next_fd (RPCConnection.world st)) w = true
     \/ r = Raise SocketError).
Proof.
  destruct st as [c w]. unfold RPCConnection.connect, bind, gets, modify, ret,
    RPCConnection.liftW, RPCConnection.self, RPCConnection.world.
  cbn [fst snd].
  assert (forall w0 : World,
    exists r w1,
      (let (r, w') := sock_connect (next_fd w0) (RPCConnection.host c) (RPCConnection.port c)
                                   (with_next_fd (Datatypes.S (next_fd w0)) w0) in
       (r, (RPCConnection.with_sock (Some (next_fd w0)) c, w'))) =
      (r, (RPCConnection.with_sock (Some (next_fd w0)) c, w1)) /\
      (r = Ok tt /\ is_live (next_fd w0) w1 = true \/ r = Raise SocketError)) as Hc.
  { intros w0. unfold sock_connect.
    destruct (connects _) as [|[|] rest]; do 2 eexists; (split; [reflexivity|]);
      try (right; reflexivity); left; (split; [reflexivity|]);
        unfold is_live; cbn; now rewrite Nat.eqb_refl. }
  destruct (RPCConnection.sock c) as [old|]; cbn [fst snd].
  - unfold sock_close. cbn [fst snd]. apply (Hc (with_live _ (log (EClose old) w))).
  - apply (Hc w).
Qed.

(** On a transport that has a socket, [invokeRPC] starts by sending the
    request on it: no [connect], no handshake comes first. *)
Lemma invokeRPC_starts_with_send (st : RPCConnection.St) (fd : nat)
      (name : list N) (params : list param) (request : list N) (data : list byte) :
  RPCConnection.sock (RPCConnection.self st) = Some fd ->
  VistARPCConnection.makeRequest name params false = Ok request ->
  encode request = Ok data ->
  starts_with st (ESend fd data) (VistARPCConnection.invokeRPC name params).
Proof.
  intros Hsock Hreq Henc.
  unfold VistARPCConnection.invokeRPC, RPCConnection.invokeRPC.
  apply (starts_with_after _ _ _ _ (Some fd)).
  { unfold gets. now rewrite Hsock. }
  apply (starts_with_after _ _ _ _ tt); [reflexivity|].
  pose proof growing_connect.
  assert (forall name params,
             preserves growing
               (RPCConnection.exchange
                  (fun name params => lift (VistARPCConnection.makeRequest name params false))
                  name params)) as Hex.
  { intros n p. apply growing_exchange. intros n' p'. apply preserves_lift.
    typeclasses eauto. }
  apply starts_with_bind.
  - apply starts_with_try; [|apply preserves_ret; typeclasses eauto].
    unfold RPCConnection.exchange.
    apply (starts_with_after _ _ _ _ request).
    { unfold lift. now rewrite Hreq. }
    apply starts_with_bind; [|intros; apply steady_growing, steady_readToEndMarker].
    now apply starts_with_send.
  - intros msg. destruct msg; pres_with ltac:(auto).
Qed.

(** Whatever [connect] of a VistA transport does, the transport then
    holds the socket that [connect] has just made. When [connect]
    raises the exception of a handshake, that socket is moreover still
    connected and open, and the next [invokeRPC] starts by sending its
    request on it, with no [connect] and no handshake first. *)
Lemma connect_keeps_socket
        (st : RPCConnection.St) (out : result unit) (st' : RPCConnection.St) :
  VistARPCConnection.connect st = (out, st') ->
  let fd := next_fd (RPCConnection.world st) in
  RPCConnection.sock (RPCConnection.self st') = Some fd /\
  (forall tag msg,
      out = Raise (Exception tag msg) ->
      is_live fd (RPCConnection.world st') = true /\
      forall name params request data,
        VistARPCConnection.makeRequest name params false = Ok request ->
        encode request = Ok data ->
        starts_with st' (ESend fd data) (VistARPCConnection.invokeRPC name params)).
Proof.
  intros Hconn fd.
  destruct (base_connect_spec st) as (r & w & Hbase & Hr). fold fd in Hbase, Hr.
  unfold VistARPCConnection.connect, bind in Hconn. rewrite Hbase in Hconn.
  destruct Hr as [[-> Hlive] | ->].
  - pose proof (steady_handshake
                  (RPCConnection.with_sock (Some fd) (RPCConnection.self st), w))
      as (Hself & (Hsame & _) & _ & _).
    rewrite Hconn in Hself, Hsame. cbn [snd] in Hself, Hsame.
    assert (RPCConnection.sock (RPCConnection.self st') = Some fd) as Hsock.
    { rewrite Hself. reflexivity. }
    split; trivial. intros tag msg _. split.
    + unfold is_live, RPCConnection.world in *. cbn [snd] in Hsame.
      now rewrite Hsame.
    + intros name params request data Hreq Henc.
      now apply (invokeRPC_starts_with_send st' fd name params request data).
  - injection Hconn as <- <-. split; [reflexivity|].
    intros tag msg H. discriminate.
Qed.

(** The handshake is its four steps, each followed by its check (the
    second step has none). *)
Lemma handshake_steps (st : RPCConnection.St) :
  VistARPCConnection.handshake st =
  (r1 <- negotiate ;;
   if negb (VistARPCConnection.re_match (u "accept") r1)
   then raise (VistARPCConnection.handshake_error r1) else
   r2 <- sign_on ;;
   r3 <- log_in ;;
   if VistARPCConnection.re_search (u "Not a valid ACCESS CODE/VERIFY CODE pair") r3
   then raise (VistARPCConnection.handshake_error r3) else
   r4 <- create_context ;;
   if VistARPCConnection.re_search (u "Application context has not been created") r4
      || VistARPCConnection.re_search (u "does not exist on server") r4
   then raise (VistARPCConnection.handshake_error r4) else
   ret tt) st.
Proof.
  unfold VistARPCConnection.handshake, negotiate, sign_on, log_in, create_context.
  unfold bind.
  repeat match goal with
         | |- context [match ?m ?s with _ => _ end] =>
           lazymatch m with
           | (fun _ => _) => fail
           | _ => destruct (m s) as [[?|?|] ?]; try reflexivity
           end
         | |- context [if ?c then _ else _] => destruct c; try reflexivity
         end.
Qed.

(** C3, amended. Let the TCP connection of [connect] succeed, and let a
    step of the handshake read a reply that fails its check: the
    negotiation reply does not begin with [accept], the credential
    reply holds the marker of an invalid pair, or the context reply
    says that the context has not been created or does not exist. Then
    [connect] raises the exception that carries this reply, and the
    transport is not Disconnected: it holds the socket that this
    [connect] has made, still connected and open, and the next
    [invokeRPC] starts by sending its request on it, with no [connect]
    and no handshake first. *)
Theorem connect_failure_keeps_socket
        (st s0 st' : RPCConnection.St) (connectReply : str) :
  RPCConnection.connect st = (Ok tt, s0) ->
  check_fails s0 connectReply st' ->
  let fd := next_fd (RPCConnection.world st) in
  VistARPCConnection.connect st =
    (Raise (Exception (u "VistARPCConnection") connectReply), st') /\
  RPCConnection.sock (RPCConnection.self st') = Some fd /\
  is_live fd (RPCConnection.world st') = true /\
  forall name params request data,
    VistARPCConnection.makeRequest name params false = Ok request ->
    encode request = Ok data ->
    starts_with st' (ESend fd data) (VistARPCConnection.invokeRPC name params).
Proof.
  intros Htcp Hfail fd.
  assert (VistARPCConnection.connect st =
          (Raise (Exception (u "VistARPCConnection") connectReply), st')) as Hconn.
  { unfold VistARPCConnection.connect. unfold bind at 1. rewrite Htcp.
    rewrite handshake_steps. unfold bind at 1.
    destruct Hfail as [r1 s1 H1 Hc1
                      | r1 r2 r3 s1 s2 s3 H1 Hc1 H2 H3 Hc3
                      | r1 r2 r3 r4 s1 s2 s3 s4 H1 Hc1 H2 H3 Hc3 H4 Hc4];
      rewrite H1, Hc1; cbn [negb]; [reflexivity| |].
    - unfold bind at 1. rewrite H2. unfold bind at 1. rewrite H3, Hc3. reflexivity.
    - unfold bind at 1. rewrite H2. unfold bind at 1. rewrite H3, Hc3.
      unfold bind at 1. rewrite H4, Hc4. reflexivity. }
  split; [exact Hconn|].
  destruct (connect_keeps_socket st _ _ Hconn) as [Hsock Hexc].
  destruct (Hexc _ _ eq_refl) as [Hlive Hnext].
  repeat split; trivial.
Qed.

(** The broker accepts the negotiation and answers the access and
    verify codes with the marker of an invalid pair. *)
Lemma connect_failure_keeps_socket_witness :
  let st := (Scenario.vista,
             Scenario.network
               [Scenario.reply "accept"; Scenario.reply "hello";
                Scenario.reply "Not a valid ACCESS CODE/VERIFY CODE pair."]) in
  let s0 := snd (RPCConnection.connect st) in
  let s1 := snd (negotiate s0) in
  let s2 := snd (sign_on s1) in
  let s3 := snd (log_in s2) in
  let fd := next_fd (RPCConnection.world st) in
  VistARPCConnection.connect st =
    (Raise (Exception (u "VistARPCConnection")
                      (u "Not a valid ACCESS CODE/VERIFY CODE pair.")), s3) /\
  RPCConnection.sock (RPCConnection.self s3) = Some fd /\
  is_live fd (RPCConnection.world s3) = true /\
  forall name params request data,
    VistARPCConnection.makeRequest name params false = Ok request ->
    encode request = Ok data ->
    starts_with s3 (ESend fd data) (VistARPCConnection.invokeRPC name params).
Proof.
  intros st s0 s1 s2 s3.
  apply (connect_failure_keeps_socket st s0 s3
           (u "Not a valid ACCESS CODE/VERIFY CODE pair.")).
  - vm_compute. reflexivity.
  - apply (credentials_fail s0 (u "accept") (u "hello")
             (u "Not a valid ACCESS CODE/VERIFY CODE pair.") s1 s2 s3).
    + vm_compute. reflexivity.
    + vm_compute. reflexivity.
    + vm_compute. reflexivity.
    + vm_compute. reflexivity.
    + vm_compute. reflexivity.
Defined.

(** Each of the three checks at work: a negotiation that is not
    accepted, an invalid pair of codes, and a context that does not
    exist make [connect] raise with the reply of the broker. *)
Example connect_raises_at_each_check :
  fst (VistARPCConnection.connect
         (Scenario.vista, Scenario.network [Scenario.reply "reject"]))
  = Raise (Exception (u "VistARPCConnection") (u "reject")) /\
  fst (VistARPCConnection.connect
         (Scenario.vista,
          Scenario.network
            [Scenario.reply "accept"; Scenario.reply "hello";
             Scenario.reply "Not a valid ACCESS CODE/VERIFY CODE pair."]))
  = Raise (Exception (u "VistARPCConnection")
                     (u "Not a valid ACCESS CODE/VERIFY CODE pair.")) /\
  fst (VistARPCConnection.connect
         (Scenario.vista,
          Scenario.network
            [Scenario.reply "accept"; Scenario.reply "hello"; Scenario.reply "1";
             Scenario.reply "The context 'X' does not exist on server."]))
  = Raise (Exception (u "VistARPCConnection")
                     (u "The context 'X' does not exist on server.")).
Proof. repeat split; vm_compute; reflexivity. Qed.

(** C3 as stated fails: the credential check fails, [connect] raises,
    and the transport is not Disconnected. *)
Lemma connect_failure_not_disconnected :
  ~ (forall (st : RPCConnection.St) (tag msg : str),
        fst (VistARPCConnection.connect st) = Raise (Exception tag msg) ->
        RPCConnection.sock (RPCConnection.self (snd (VistARPCConnection.connect st))) = None).
Proof.
  intros H.
  specialize (H (Scenario.vista,
                 Scenario.network
                   [Scenario.reply "accept"; Scenario.reply "hello";
                    Scenario.reply "Not a valid ACCESS CODE/VERIFY CODE pair."])
                (u "VistARPCConnection")
                (u "Not a valid ACCESS CODE/VERIFY CODE pair.") eq_refl).
  vm_compute in H. discriminate.
Qed.

(** After that failure the next [invokeRPC] makes no connection and runs
    no handshake: it sends its request on the socket of the failed
    attempt and returns what the broker answers there. *)
Example invokeRPC_after_failed_connect :
  let st := snd (VistARPCConnection.connect
                   (Scenario.vista,
                    Scenario.network
                      [Scenario.reply "accept"; Scenario.reply "hello";
                       Scenario.reply "Not a valid ACCESS CODE/VERIFY CODE pair.";
                       Scenario.reply "3251111"])) in
  let r := VistARPCConnection.invokeRPC (u "ORWU DT") [Scalar (u "NOW")] st in
  fst r = Ok (u "3251111") /\
  exists data, trace (RPCConnection.world (snd r)) =
               trace (RPCConnection.world st) ++ [ESend 0 data].
Proof. split; [vm_compute; reflexivity | eexists; vm_compute; reflexivity]. Qed.


(** ** The retry of [invokeRPC] *)

Section SingleRecovery.

Variable self_connect : M RPCConnection.St unit.
Variable self_makeRequest : str -> list param -> M RPCConnection.St str.

(** C1, amended. Let [st0] be the state in which the first attempt
    starts ([st] itself, or what the first [connect] leaves when the
    transport has no socket yet). If the first attempt raises a socket
    error or reads an empty reply, [invokeRPC] does, from the state that
    attempt leaves, exactly one [connect] followed by one more building,
    sending and reading of the same request, and the outcome of these is
    its own: an error of the [connect] or of the second attempt goes to
    the caller, and what the second attempt reads is returned as it is,
    an empty reply included. Nothing is tried a third time. *)
Theorem invokeRPC_single_recovery
        (name : str) (params : list param)
        (st st0 : RPCConnection.St) (r : result str) (st1 : RPCConnection.St) :
  match RPCConnection.sock (RPCConnection.self st) with
  | None => self_connect st = (Ok tt, st0)
  | Some _ => st0 = st
  end ->
  RPCConnection.exchange self_makeRequest name params st0 = (r, st1) ->
  r = Ok [] \/ r = Raise SocketError ->
  RPCConnection.invokeRPC self_connect self_makeRequest name params st =
    (self_connect ;; RPCConnection.exchange self_makeRequest name params) st1 /\
  (forall e st2,
      self_connect st1 = (Raise e, st2) ->
      RPCConnection.invokeRPC self_connect self_makeRequest name params st = (Raise e, st2)) /\
  (forall st2 r2 st3,
      self_connect st1 = (Ok tt, st2) ->
      RPCConnection.exchange self_makeRequest name params st2 = (r2, st3) ->
      RPCConnection.invokeRPC self_connect self_makeRequest name params st = (r2, st3)).
Proof.
  intros Hprep Hfirst Hfail.
  assert (RPCConnection.invokeRPC self_connect self_makeRequest name params st =
          (self_connect ;; RPCConnection.exchange self_makeRequest name params) st1) as Heq.
  { unfold RPCConnection.invokeRPC at 1. unfold bind at 1. unfold gets.
    destruct (RPCConnection.sock (RPCConnection.self st)) as [fd|].
    - subst st0. unfold bind at 1. unfold ret at 1.
      unfold bind at 1. unfold try_except_socket_error. rewrite Hfirst.
      destruct Hfail as [-> | ->]; reflexivity.
    - unfold bind at 1. rewrite Hprep.
      unfold bind at 1. unfold try_except_socket_error. rewrite Hfirst.
      destruct Hfail as [-> | ->]; reflexivity. }
  split; [exact Heq|]. split.
  - intros e st2 Hc. rewrite Heq. unfold bind. now rewrite Hc.
  - intros st2 r2 st3 Hc Hsecond. rewrite Heq. unfold bind. now rewrite Hc.
Qed.

End SingleRecovery.

(** A first reply that is empty, then a reply [ok] after the reconnect. *)
Lemma invokeRPC_single_recovery_witness :
  let hook := fun name params => lift (VistARPCConnection.makeRequest name params false) in
  let name := u "ORWU DT" in
  let params := [Scalar (u "NOW")] in
  let st := (Scenario.vista,
             Scenario.network (Scenario.handshake ++ [Scenario.empty_reply]
                               ++ Scenario.handshake ++ [Scenario.reply "ok"])) in
  let st0 := snd (VistARPCConnection.connect st) in
  let st1 := snd (RPCConnection.exchange hook name params st0) in
  RPCConnection.invokeRPC VistARPCConnection.connect hook name params st =
    (VistARPCConnection.connect ;; RPCConnection.exchange hook name params) st1 /\
  (forall e st2,
      VistARPCConnection.connect st1 = (Raise e, st2) ->
      RPCConnection.invokeRPC VistARPCConnection.connect hook name params st = (Raise e, st2)) /\
  (forall st2 r2 st3,
      VistARPCConnection.connect st1 = (Ok tt, st2) ->
      RPCConnection.exchange hook name params st2 = (r2, st3) ->
      RPCConnection.invokeRPC VistARPCConnection.connect hook name params st = (r2, st3)).
Proof.
  intros hook name params st st0 st1.
  apply (invokeRPC_single_recovery VistARPCConnection.connect hook name params
           st st0 (Ok []) st1).
  - vm_compute. reflexivity.
  - vm_compute. reflexivity.
  - left. reflexivity.
Defined.

(** C1 as stated fails: the broker answers the request with an empty
    reply, and after the reconnect with an empty reply again;
    [invokeRPC] returns the empty string, it raises nothing. *)
Lemma invokeRPC_two_empty_replies :
  ~ (forall (st : RPCConnection.St) (name : str) (params : list param),
        fst (VistARPCConnection.invokeRPC name params st) <> Ok []).
Proof.
  intros H.
  apply (H (Scenario.vista,
            Scenario.network (Scenario.handshake ++ [Scenario.empty_reply]
                              ++ Scenario.handshake ++ [Scenario.empty_reply]))
           (u "ORWU DT") [Scalar (u "NOW")]).
  vm_compute. reflexivity.
Qed.

(** In that run the request goes out twice, on two sockets, and no
    third time. *)
Example invokeRPC_two_empty_replies_trace :
  let st := (Scenario.vista,
             Scenario.network (Scenario.handshake ++ [Scenario.empty_reply]
                               ++ Scenario.handshake ++ [Scenario.empty_reply])) in
  let tr := trace (RPCConnection.world
                     (snd (VistARPCConnection.invokeRPC (u "ORWU DT") [Scalar (u "NOW")] st))) in
  length (filter (fun ev => match ev with EConnect _ _ _ => true | _ => false end) tr) = 2 /\
  length (filter (fun ev => match ev with ESend _ _ => true | _ => false end) tr) = 10.
Proof. split; vm_compute; reflexivity. Qed.

(** ** How often [invokeRPC] connects *)

Lemma connections_base_connect (st : RPCConnection.St) :
  connections (RPCConnection.world (snd (RPCConnection.connect st))) =
  connections (RPCConnection.world st)
  ++ [EConnect (next_fd (RPCConnection.world st))
               (RPCConnection.host (RPCConnection.self st))
               (RPCConnection.port (RPCConnection.self st))].
Proof.
  destruct st as [c w].
  unfold RPCConnection.connect, bind, gets, modify, ret, RPCConnection.liftW,
    RPCConnection.self, RPCConnection.world, socket_new, sock_connect, sock_close,
    connections.
  simpl. destruct (RPCConnection.sock c) as [old|]; simpl;
    destruct (connects w) as [|[|] rest]; simpl;
      rewrite ?filter_app; simpl; rewrite ?app_nil_r; reflexivity.
Qed.

(** [connect] of a VistA transport makes one connection, whatever the
    handshake does. *)
Lemma connections_connect (st : RPCConnection.St) :
  length (connections (RPCConnection.world (snd (VistARPCConnection.connect st)))) =
  length (connections (RPCConnection.world st)) + 1.
Proof.
  pose proof (connections_base_connect st) as Hbase.
  unfold VistARPCConnection.connect, bind.
  destruct (RPCConnection.connect st) as [[[]|e|] s1]; cbn [snd] in *.
  - destruct (steady_handshake s1) as (_ & _ & _ & Hc).
    unfold RPCConnection.world in *. rewrite Hc, Hbase, length_app. reflexivity.
  - rewrite Hbase, length_app. reflexivity.
  - rewrite Hbase, length_app. reflexivity.
Qed.

(** Building, sending and reading makes none. *)
Lemma connections_exchange (name : str) (params : list param) (st : RPCConnection.St) :
  connections
    (RPCConnection.world
       (snd (RPCConnection.exchange
               (fun name params => lift (VistARPCConnection.makeRequest name params false))
               name params st))) =
  connections (RPCConnection.world st).
Proof.
  assert (preserves steady
            (RPCConnection.exchange
               (fun name params => lift (VistARPCConnection.makeRequest name params false))
               name params)) as H.
  { unfold RPCConnection.exchange.
    pres_with ltac:(auto using steady_send, steady_readToEndMarker). }
  destruct (H st) as (_ & _ & _ & Hc). exact Hc.
Qed.

(** X18. One call of [invokeRPC] on a VistA transport connects at most
    twice: once when the transport has no socket yet, and once more to
    recover. On a transport that has a socket it connects at most once. *)
Lemma invokeRPC_connects_at_most_twice
      (name : str) (params : list param) (st : RPCConnection.St) :
  let n := length (connections (RPCConnection.world st)) in
  let n' := length (connections
                      (RPCConnection.world
                         (snd (VistARPCConnection.invokeRPC name params st)))) in
  n <= n' <= n + 2 /\
  (RPCConnection.sock (RPCConnection.self st) <> None -> n' <= n + 1).
Proof.
  set (hook := fun name params =>
                 @lift RPCConnection.St _ (VistARPCConnection.makeRequest name params false)).
  set (count := fun s : RPCConnection.St =>
                  length (connections (RPCConnection.world s))).
  assert (forall s1,
             count (snd ((VistARPCConnection.connect ;;
                          RPCConnection.exchange hook name params) s1))
             = count s1 + 1) as Hrec.
  { intros s1. unfold bind, count.
    pose proof (connections_connect s1) as H2.
    destruct (VistARPCConnection.connect s1) as [[[]|e|] s2]; cbn [snd] in *; trivial.
    pose proof (connections_exchange name params s2) as H3.
    change (connections (RPCConnection.world
              (snd (RPCConnection.exchange hook name params s2)))
            = connections (RPCConnection.world s2)) in H3.
    now rewrite H3. }
  assert (forall s0 s',
    s' = snd ((msg <- try_except_socket_error
                        (RPCConnection.exchange hook name params) (ret []) ;;
               match msg with
               | [] => VistARPCConnection.connect ;; RPCConnection.exchange hook name params
               | _ :: _ => ret msg
               end) s0) ->
    count s0 <= count s' <= count s0 + 1) as Hrest.
  { intros s0 s' Hs'. unfold bind at 1, try_except_socket_error in Hs'.
    assert (count (snd (RPCConnection.exchange hook name params s0)) = count s0) as H1.
    { unfold count. apply (f_equal (@length event)).
      exact (connections_exchange name params s0). }
    destruct (RPCConnection.exchange hook name params s0) as [[msg|e|] s1];
      cbn [snd] in H1.
    - destruct msg as [|c msg].
      + subst s'. rewrite Hrec. lia.
      + unfold ret in Hs'. cbn [snd] in Hs'. subst s'. lia.
    - destruct e; try (cbn [snd] in Hs'; subst s'; lia).
      unfold ret at 1 in Hs'. cbv iota beta in Hs'. subst s'. rewrite Hrec. lia.
    - cbn [snd] in Hs'. subst s'. lia. }
  intros n n'. subst n n'. fold (count st).
  match goal with |- context [length (connections (RPCConnection.world ?s))] =>
    fold (count s); remember s as s' eqn:Hs'
  end.
  unfold VistARPCConnection.invokeRPC, RPCConnection.invokeRPC in Hs'. fold hook in Hs'.
  unfold bind at 1 in Hs'. unfold gets in Hs'.
  destruct (RPCConnection.sock (RPCConnection.self st)) as [fd|].
  - unfold bind at 1 in Hs'. unfold ret at 1 in Hs'.
    specialize (Hrest st s' Hs'). split; [lia | intros _; lia].
  - unfold bind at 1 in Hs'.
    assert (count (snd (VistARPCConnection.connect st)) = count st + 1) as H0
        by apply connections_connect.
    destruct (VistARPCConnection.connect st) as [[[]|e|] s0]; cbn [snd] in H0.
    + specialize (Hrest s0 s' Hs'). split; [lia | congruence].
    + cbn [snd] in Hs'. subst s'. split; [lia | congruence].
    + cbn [snd] in Hs'. subst s'. split; [lia | congruence].
Qed.

(** ** The pool *)

(** C2 fails on the code. A pool of one transport, a broker that refuses
    the connection twice: [invokeRPC] of the pool raises the socket
    error, and the queue is left empty; the next call finds nothing to
    borrow and never returns. When the call of the transport returns,
    the transport is back on the queue. *)
Theorem pool_invokeRPC_leaks_on_failure
        (cia_invokeRPC : str -> list param -> M (CIARPCConnection.t * World) str) :
  let pool := RPCConnectionPool.prebuildConnections
                (u "VISTA") 1 (u "127.0.0.1") 9997 (u "DOCTOR1") (u "DOCTOR1.")
                (u "OR CPRS GUI CHART") in
  let refused := mkWorld [] (Ok (u "10.0.0.7")) [false; false] [] [] 0 [] [] in
  let call := RPCConnectionPool.invokeRPC cia_invokeRPC (u "ORWU DT") [Scalar (u "NOW")] in
  length (RPCConnectionPool.connectionQueue pool) = 1 /\
  fst (call (pool, refused)) = Raise SocketError /\
  RPCConnectionPool.connectionQueue (fst (snd (call (pool, refused)))) = [] /\
  fst (call (snd (call (pool, refused)))) = NoReturn /\
  (let answered := Scenario.network (Scenario.handshake ++ [Scenario.reply "3251111"]) in
   fst (call (pool, answered)) = Ok (u "3251111") /\
   length (RPCConnectionPool.connectionQueue (fst (snd (call (pool, answered))))) = 1).
Proof. repeat split; vm_compute; reflexivity. Qed.

(** X19. In general, for every pool, transport and broker: the borrowed
    transport goes back on top of the queue when its call returns, and
    is dropped from the pool when its call raises. *)
Lemma pool_invokeRPC_outcome
      (cia_invokeRPC : str -> list param -> M (CIARPCConnection.t * World) str)
      (name : str) (params : list param) (pool : RPCConnectionPool.t) (w : World)
      (c : RPCConnectionPool.connection) (rest : list RPCConnectionPool.connection) :
  RPCConnectionPool.connectionQueue pool = c :: rest ->
  (forall reply c' w',
      RPCConnectionPool.connection_invokeRPC cia_invokeRPC name params (c, w)
      = (Ok reply, (c', w')) ->
      RPCConnectionPool.invokeRPC cia_invokeRPC name params (pool, w)
      = (Ok reply, (RPCConnectionPool.with_queue (c' :: rest) pool, w'))) /\
  (forall e c' w',
      RPCConnectionPool.connection_invokeRPC cia_invokeRPC name params (c, w)
      = (Raise e, (c', w')) ->
      RPCConnectionPool.invokeRPC cia_invokeRPC name params (pool, w)
      = (Raise e, (RPCConnectionPool.with_queue rest pool, w'))).
Proof.
  intros Hq. split; intros x c' w' Hc;
    unfold RPCConnectionPool.invokeRPC; rewrite Hq, Hc; reflexivity.
Qed.

(** A pool of two VistA transports, and a broker that answers the
    handshake and the call. *)
Lemma pool_invokeRPC_outcome_witness :
  let cia := fun (_ : str) (_ : list param) => @raise (CIARPCConnection.t * World) str TypeError in
  let pool := RPCConnectionPool.prebuildConnections
                (u "VISTA") 2 (u "127.0.0.1") 9997 (u "DOCTOR1") (u "DOCTOR1.")
                (u "OR CPRS GUI CHART") in
  let c := RPCConnectionPool.VistA
             (VistARPCConnection.init (u "127.0.0.1") 9997 (u "DOCTOR1") (u "DOCTOR1.")
                                      (u "OR CPRS GUI CHART") 1) in
  let rest := [RPCConnectionPool.VistA
                 (VistARPCConnection.init (u "127.0.0.1") 9997 (u "DOCTOR1") (u "DOCTOR1.")
                                          (u "OR CPRS GUI CHART") 2)] in
  let w := Scenario.network (Scenario.handshake ++ [Scenario.reply "3251111"]) in
  (forall reply c' w',
      RPCConnectionPool.connection_invokeRPC cia (u "ORWU DT") [Scalar (u "NOW")] (c, w)
      = (Ok reply, (c', w')) ->
      RPCConnectionPool.invokeRPC cia (u "ORWU DT") [Scalar (u "NOW")] (pool, w)
      = (Ok reply, (RPCConnectionPool.with_queue (c' :: rest) pool, w'))) /\
  (forall e c' w',
      RPCConnectionPool.connection_invokeRPC cia (u "ORWU DT") [Scalar (u "NOW")] (c, w)
      = (Raise e, (c', w')) ->
      RPCConnectionPool.invokeRPC cia (u "ORWU DT") [Scalar (u "NOW")] (pool, w)
      = (Raise e, (RPCConnectionPool.with_queue rest pool, w'))).
Proof.
  intros cia pool c rest w.
  apply (pool_invokeRPC_outcome cia (u "ORWU DT") [Scalar (u "NOW")] pool w c rest).
  reflexivity.
Defined.

(** ** Requests of the CIA transport *)

Section CIARequest.

Import CIARPCConnection.

(** Whatever [__makeCIARequest] returns or raises, it has moved the
    sequence number on by one, and from 255 to 1. *)
Lemma makeCIARequest_sequence (rtype : str) (params : list (field * field)) (c : t) :
  snd (makeCIARequest rtype params c) =
  with_sequence (if (sequence c =? 255)%Z then 1 else sequence c + 1)%Z c.
Proof.
  unfold makeCIARequest, bind, lift, modify, gets, ret.
  change (chr 255) with (Ok 255%N). cbv iota beta.
  cbn [sequence with_sequence].
  destruct (sequence c + 1 =? 256)%Z eqn:E.
  - apply Z.eqb_eq in E.
    replace (sequence c =? 255)%Z with true by (symmetry; apply Z.eqb_eq; lia).
    cbn [sequence with_sequence base uid].
    change (chrZ 1) with (Ok 1%N). cbv iota beta.
    destruct (list_eq_dec N.eq_dec rtype (u "R"));
      [change (chr 82) with (Ok 82%N) | change (chr 67) with (Ok 67%N)]; cbv iota beta;
      destruct (paramsspecs_loop (FStr []) params); reflexivity.
  - apply Z.eqb_neq in E.
    replace (sequence c =? 255)%Z with false by (symmetry; apply Z.eqb_neq; lia).
    cbn [sequence with_sequence base uid].
    destruct (chrZ (sequence c + 1)); try reflexivity.
    destruct (list_eq_dec N.eq_dec rtype (u "R"));
      [change (chr 82) with (Ok 82%N) | change (chr 67) with (Ok 67%N)]; cbv iota beta;
      destruct (paramsspecs_loop (FStr []) params); reflexivity.
Qed.

Lemma nth_sequence_S (n : nat) :
  nth_sequence (S n) =
  (if (nth_sequence n =? 255)%Z then 1 else nth_sequence n + 1)%Z.
Proof.
  destruct n as [|m]; [reflexivity|].
  unfold nth_sequence.
  pose proof (Nat.mod_upper_bound m 255 ltac:(lia)) as Hm.
  destruct (Nat.eq_dec (m mod 255) 254) as [E|E].
  - replace (Z.of_nat (m mod 255) + 1 =? 255)%Z with true
      by (symmetry; apply Z.eqb_eq; lia).
    assert ((S m) mod 255 = 0) as ->; [|reflexivity].
    pose proof (Nat.div_mod_eq m 255) as Hd.
    symmetry. apply Nat.mod_unique with (q := S (m / 255)); lia.
  - replace (Z.of_nat (m mod 255) + 1 =? 255)%Z with false
      by (symmetry; apply Z.eqb_neq; lia).
    assert ((S m) mod 255 = S (m mod 255)) as ->; [|lia].
    pose proof (Nat.div_mod_eq m 255) as Hd.
    symmetry. apply Nat.mod_unique with (q := m / 255); lia.
Qed.

Lemma makeRequest_head (params : list field) :
  forall i k v d, exists v' d',
    number_params i params ((k, v) :: d) = (k, v') :: d'.
Proof.
  induction params as [|p ps IH]; intros i k v d; cbn [number_params].
  - eauto.
  - cbn [dict_set]. destruct (list_eq_dec N.eq_dec _ k); apply IH.
Qed.

(** A first field whose key is a [str]: [__byteIt] raises on it, and so
    does [__makeCIARequest], after it has moved the sequence number. *)
Lemma makeCIARequest_str_key (rtype k : list N) (v : field)
      (rest : list (field * field)) (c : t) :
  (0 <= sequence c <= 255)%Z ->
  byteIt (FStr k) = Raise TypeError ->
  makeCIARequest rtype ((FStr k, v) :: rest) c =
  (Raise TypeError,
   with_sequence (if (sequence c =? 255)%Z then 1 else sequence c + 1)%Z c).
Proof.
  intros Hs Hk.
  rewrite (surjective_pairing (makeCIARequest _ _ c)).
  rewrite makeCIARequest_sequence. f_equal.
  unfold makeCIARequest, bind, lift, modify, gets, ret.
  change (chr 255) with (Ok 255%N). cbv iota beta.
  cbn [sequence with_sequence].
  assert (forall z, (1 <= z <= 255)%Z -> exists ch, chrZ z = Ok ch) as Hchr.
  { intros z Hz. unfold chrZ, chr.
    replace (z <? 0)%Z with false by (symmetry; apply Z.ltb_ge; lia).
    replace (Z.to_N z <? 0x110000)%N with true by (symmetry; apply N.ltb_lt; lia).
    eauto. }
  assert (paramsspecs_loop (FStr []) ((FStr k, v) :: rest) = Raise TypeError) as Hloop.
  { cbn [paramsspecs_loop]. rewrite Hk. reflexivity. }
  assert (exists ch, (if list_eq_dec N.eq_dec rtype (u "R") then chr 82 else chr 67) = Ok ch)
    as [brtype Hb].
  { destruct (list_eq_dec N.eq_dec rtype (u "R")); eexists; reflexivity. }
  destruct (sequence c + 1 =? 256)%Z eqn:E; cbn [sequence with_sequence fst snd].
  - destruct (Hchr 1%Z ltac:(lia)) as [ch ->]. cbv iota beta.
    rewrite Hb. cbv iota beta. rewrite Hloop. reflexivity.
  - apply Z.eqb_neq in E.
    destruct (Hchr (sequence c + 1)%Z ltac:(lia)) as [ch ->]. cbv iota beta.
    rewrite Hb. cbv iota beta. rewrite Hloop. reflexivity.
Qed.

End CIARequest.

(** X1. The sequence numbers of a CIA transport run through 1, 2, ...,
    255 and start again at 1: after [n] requests on a new transport,
    whatever their kind, their fields and their outcome, the number is
    [(n - 1) mod 255 + 1]; it is never 0 again and never 256. *)
Theorem makeCIARequest_sequence_cycle
        (calls : list (str * list (CIARPCConnection.field * CIARPCConnection.field)))
        (host : str) (port : Z) (access verify context : str) (poolId : Z) :
  let request c call :=
    snd (CIARPCConnection.makeCIARequest (fst call) (snd call) c) in
  let c := fold_left request calls
                     (CIARPCConnection.init host port access verify context poolId) in
  CIARPCConnection.sequence c = nth_sequence (length calls) /\
  (calls <> [] -> (1 <= CIARPCConnection.sequence c <= 255)%Z).
Proof.
  intros request c. subst c.
  assert (CIARPCConnection.sequence
            (fold_left request calls
               (CIARPCConnection.init host port access verify context poolId))
          = nth_sequence (length calls)) as H.
  { induction calls as [|call calls IH] using rev_ind; [reflexivity|].
    rewrite fold_left_app, length_app, Nat.add_comm. cbn [fold_left length Nat.add].
    unfold request at 1. rewrite makeCIARequest_sequence, nth_sequence_S, IH.
    reflexivity. }
  split; [exact H|]. intros Hne. rewrite H.
  destruct calls as [|a l]; [congruence|]. cbn [length nth_sequence].
  pose proof (Nat.mod_upper_bound (length l) 255 ltac:(lia)). lia.
Qed.

(** X2. [makeRequest] of a CIA transport never returns a request: the
    first field it packs has the key [CTX], a [str], and [__byteIt]
    raises [TypeError] on it. The sequence number has moved on all the
    same. *)
Theorem CIA_makeRequest_raises_TypeError
        (rpcName : str) (params : list CIARPCConnection.field) (c : CIARPCConnection.t) :
  (0 <= CIARPCConnection.sequence c <= 255)%Z ->
  CIARPCConnection.makeRequest rpcName params c =
  (Raise TypeError,
   CIARPCConnection.with_sequence
     (if (CIARPCConnection.sequence c =? 255)%Z then 1
      else CIARPCConnection.sequence c + 1)%Z c).
Proof.
  intros Hs.
  unfold CIARPCConnection.makeRequest, bind, gets.
  destruct (makeRequest_head params 0 (u "CTX")
              (CIARPCConnection.FStr (RPCConnection.context (CIARPCConnection.base c)))
              [(u "UID", CIARPCConnection.FStr (CIARPCConnection.uid c));
               (u "VER", CIARPCConnection.FStr (u "0"));
               (u "RPC", CIARPCConnection.FStr rpcName)]) as (v' & d' & ->).
  cbn [map fst snd].
  apply makeCIARequest_str_key; [exact Hs | vm_compute; reflexivity].
Qed.

Lemma CIA_makeRequest_raises_TypeError_witness :
  CIARPCConnection.makeRequest
    (u "XUS INTRO MSG") [CIARPCConnection.FStr (u "1")]
    (CIARPCConnection.with_sequence 255
       (CIARPCConnection.init (u "127.0.0.1") 9997 (u "a") (u "v") (u "c") 1)) =
  (Raise TypeError,
   CIARPCConnection.with_sequence 1
     (CIARPCConnection.init (u "127.0.0.1") 9997 (u "a") (u "v") (u "c") 1)).
Proof.
  apply (CIA_makeRequest_raises_TypeError
           (u "XUS INTRO MSG") [CIARPCConnection.FStr (u "1")]
           (CIARPCConnection.with_sequence 255
              (CIARPCConnection.init (u "127.0.0.1") 9997 (u "a") (u "v") (u "c") 1))).
  simpl. lia.
Defined.

(** ** The draws and the bytes of [encrypt] *)

Lemma redraw_from_Ok (ra : nat) (draws : list nat) :
  forall rb r rest,
    RPCConnection.redraw_from ra rb draws = (Ok r, rest) -> r <> ra /\ r <> 0.
Proof.
  induction draws as [|d draws IH]; intros rb r rest; cbn [RPCConnection.redraw_from];
    destruct ((rb =? ra) || (rb =? 0)) eqn:E; try discriminate;
    try (intros [= <- <-]; apply orb_false_elim in E as [E1 E2];
         apply Nat.eqb_neq in E1, E2; tauto).
  apply IH.
Qed.

Lemma encode_app_Ok (a b : list N) :
  forall out, encode (a ++ b) = Ok out ->
  exists x y, encode a = Ok x /\ encode b = Ok y /\ out = x ++ y.
Proof.
  induction a as [|c a IH]; intros out; cbn [app encode].
  - intros H. exists [], out. auto.
  - intros H. apply rbind_Ok in H as (bc & Hc & H).
    apply rbind_Ok in H as (bs & Hbs & [= <-]).
    destruct (IH bs Hbs) as (x & y & Hx & Hy & ->).
    exists (bc ++ x), y. rewrite Hc, Hx. cbn [rbind]. rewrite app_assoc. auto.
Qed.

(** ** Reading back what [encrypt] returns *)

Lemma str_find_None (c : N) (s : list N) :
  RPCConnection.str_find c s = None <-> ~ In c s.
Proof.
  induction s as [|x s IH]; cbn [RPCConnection.str_find In]; [tauto|].
  destruct (N.eqb_spec x c) as [->|Hne].
  - split; [discriminate | tauto].
  - destruct (RPCConnection.str_find c s); cbn [option_map].
    + split; [discriminate|]. intros H. exfalso.
      assert (Some n = None) by (apply IH; tauto). discriminate.
    + split; [|reflexivity]. intros _ [H|H]; [congruence|].
      revert H. now apply IH.
Qed.

(** The rows of the table hold the same characters. *)
Lemma CIPHER_same_chars (a b : nat) (cra crb : list N) (c : N) :
  RPCConnection.index RPCConnection.CIPHER a = Ok cra ->
  RPCConnection.index RPCConnection.CIPHER b = Ok crb ->
  RPCConnection.str_find c cra = None -> RPCConnection.str_find c crb = None.
Proof.
  unfold RPCConnection.index.
  destruct (nth_error RPCConnection.CIPHER a) as [ra|] eqn:Ea; [|discriminate].
  destruct (nth_error RPCConnection.CIPHER b) as [rb|] eqn:Eb; [|discriminate].
  intros [= ->] [= ->] Hc. apply nth_error_In in Ea, Eb.
  assert (forallb (fun x => forallb (fun y => chars_in y x) RPCConnection.CIPHER)
                  RPCConnection.CIPHER = true) as H by (vm_compute; reflexivity).
  rewrite forallb_forall in H. specialize (H _ Ea).
  rewrite forallb_forall in H. specialize (H _ Eb).
  unfold chars_in in H. rewrite forallb_forall in H.
  apply str_find_None. intros Hin. apply str_find_None in Hc. apply Hc.
  specialize (H _ Hin). apply existsb_exists in H as (x & Hx & E).
  apply N.eqb_eq in E. now subst x.
Qed.

Lemma mapR_Forall2 {A B} (f : A -> result B) (l : list A) :
  forall l', mapR f l = Ok l' -> Forall2 (fun a b => f a = Ok b) l l'.
Proof.
  induction l as [|a l IH]; intros l'; cbn [mapR].
  - intros [= <-]. constructor.
  - intros H. apply rbind_Ok in H as (b & Hb & H).
    apply rbind_Ok in H as (bs & Hbs & [= <-]). constructor; auto.
Qed.

(** What [encrypt] has done when it returns. *)
Lemma encrypt_Ok (val : list N) (w w' : World) (out : list byte) :
  RPCConnection.encrypt val w = (Ok out, w') ->
  exists ra rb cra crb body,
    rb <> ra /\ rb <> 0 /\
    RPCConnection.index RPCConnection.CIPHER ra = Ok cra /\
    RPCConnection.index RPCConnection.CIPHER rb = Ok crb /\
    mapR (RPCConnection.encrypt_char cra crb) val = Ok body /\
    encode ((N.of_nat ra + 32)%N :: body ++ [(N.of_nat rb + 32)%N]) = Ok out.
Proof.
  unfold RPCConnection.encrypt, bind, lift, randint, RPCConnection.redraw.
  destruct (rand w) as [|ra draws]; [discriminate|]. cbn [rand with_rand].
  destruct draws as [|rb0 draws]; [discriminate|]. cbn [rand with_rand].
  destruct (RPCConnection.redraw_from ra rb0 draws) as [[rb|e|] rest] eqn:Hre;
    try discriminate.
  apply redraw_from_Ok in Hre as [Hne H0].
  destruct (RPCConnection.index RPCConnection.CIPHER ra) as [cra|e|] eqn:Hra;
    try discriminate.
  destruct (RPCConnection.index RPCConnection.CIPHER rb) as [crb|e|] eqn:Hrb;
    try discriminate.
  destruct (chr (N.of_nat ra + 32)) as [sa|e|] eqn:Hsa; try discriminate.
  destruct (mapR (RPCConnection.encrypt_char cra crb) val) as [body|e|] eqn:Hbody;
    try discriminate.
  destruct (chr (N.of_nat rb + 32)) as [sb|e|] eqn:Hsb; try discriminate.
  unfold chr in Hsa, Hsb.
  destruct (N.of_nat ra + 32 <? 0x110000)%N; [|discriminate].
  destruct (N.of_nat rb + 32 <? 0x110000)%N; [|discriminate].
  injection Hsa as <-. injection Hsb as <-.
  intros H. injection H as Henc _.
  exists ra, rb, cra, crb, body. repeat split; trivial.
Qed.

Lemma mapO_decrypt_char (cra crb : list N) (val body : list N) :
  Forall2 (round_trips cra crb) val body ->
  Reader.mapO (Reader.decrypt_char cra crb) body = Some val.
Proof.
  induction 1 as [|c d val body Hcd _ IH]; cbn [Reader.mapO]; [reflexivity|].
  rewrite IH. unfold round_trips in Hcd. unfold Reader.decrypt_char.
  destruct (RPCConnection.str_find c cra) as [i|].
  - destruct Hcd as (_ & -> & ->). reflexivity.
  - destruct Hcd as [-> ->]. reflexivity.
Qed.

(** What the loop of [encrypt] puts out for the plaintext, character by
    character. *)
Lemma encrypt_char_round_trips (ra rb : nat) (cra crb val body : list N) :
  RPCConnection.index RPCConnection.CIPHER ra = Ok cra ->
  RPCConnection.index RPCConnection.CIPHER rb = Ok crb ->
  mapR (RPCConnection.encrypt_char cra crb) val = Ok body ->
  Forall2 (round_trips cra crb) val body.
Proof.
  intros Hra Hrb Hbody. apply mapR_Forall2 in Hbody.
  eapply Forall2_impl; [|exact Hbody]. intros c d Hcd. cbv beta in Hcd.
  unfold round_trips.
  destruct (RPCConnection.str_find c cra) as [i|] eqn:Hfind.
  - destruct (cipher_row_round_trip ra rb cra crb c i Hra Hrb Hfind)
      as (d' & Hd' & Hnth & Hback & Hc).
    rewrite Hd' in Hcd. injection Hcd as <-. auto.
  - unfold RPCConnection.encrypt_char in Hcd. rewrite Hfind in Hcd.
    injection Hcd as <-. split; [reflexivity|].
    exact (CIPHER_same_chars ra rb cra crb c Hra Hrb Hfind).
Qed.

(** C5. For every plaintext string and every two rows that [encrypt]
    selects. Whenever [encrypt] returns, what it returns is, in UTF-8,
    the character [32 + ra], one character for each character of the
    plaintext, and the character [32 + rb], for two distinct rows [ra]
    and [rb] of the table; a plaintext character [c] that row [ra]
    holds at position [i] is put out as the character [d] of row [rb]
    at [i], and looking [d] up in row [rb] gives [i] again, where row
    [ra] holds [c]; a character that row [ra] does not hold is put out
    as it is, and row [rb] does not hold it; so that looking every
    character up in this way gives the plaintext back. And [encrypt]
    does return, on a plaintext of ASCII characters, when the draws are
    those of [randint(0, 18)]: a first draw [ra], draws that the loop
    rejects, and a draw [rb] that is neither [ra] nor 0. *)
Theorem cipher_round_trip (val : str) (w : World) :
  (forall (out : bytes) (w' : World),
      RPCConnection.encrypt val w = (Ok out, w') ->
      exists ra rb cra crb body,
        RPCConnection.index RPCConnection.CIPHER ra = Ok cra /\
        RPCConnection.index RPCConnection.CIPHER rb = Ok crb /\
        rb <> ra /\ rb <> 0 /\
        decode out = Ok ((N.of_nat ra + 32)%N :: body ++ [(N.of_nat rb + 32)%N]) /\
        Forall2 (round_trips cra crb) val body /\
        Reader.decrypt out = Some val) /\
  (forall (ra rb : nat) (rejected rest : list nat),
      rand w = ra :: rejected ++ rb :: rest ->
      Forall (fun r => r = ra \/ r = 0) rejected ->
      ra <= 18 -> rb <= 18 -> rb <> ra -> rb <> 0 ->
      Forall (fun c => (c < 128)%N) val ->
      exists out, RPCConnection.encrypt val w = (Ok out, with_rand rest w)).
Proof.
  split.
  - intros out w' Hrun.
    apply encrypt_Ok in Hrun
      as (ra & rb & cra & crb & body & Hne & H0 & Hra & Hrb & Hbody & Henc).
    exists ra, rb, cra, crb, body.
    apply decode_encode in Henc.
    pose proof (encrypt_char_round_trips ra rb cra crb val body Hra Hrb Hbody) as Hall.
    repeat split; trivial.
    unfold Reader.decrypt. rewrite Henc. rewrite rev_app_distr. cbn [rev app].
    rewrite rev_involutive.
    replace (N.to_nat (N.of_nat ra + 32 - 32)) with ra by lia.
    replace (N.to_nat (N.of_nat rb + 32 - 32)) with rb by lia.
    unfold RPCConnection.index in Hra, Hrb.
    destruct (nth_error RPCConnection.CIPHER ra) as [x|]; [|discriminate].
    destruct (nth_error RPCConnection.CIPHER rb) as [y|]; [|discriminate].
    injection Hra as ->. injection Hrb as ->. cbn [Reader.obind].
    now apply mapO_decrypt_char.
  - intros ra rb rejected rest Hrand Hrej Hra Hrb Hne H0 Hascii.
    destruct (CIPHER_index ra) as [cra Ea]; [lia|].
    destruct (CIPHER_index rb) as [crb Eb]; [lia|].
    destruct (CIPHER_rows _ _ Ea) as (_ & La & _).
    destruct (CIPHER_rows _ _ Eb) as (_ & Lb & Ab).
    destruct (mapR_encrypt_char cra crb val) as (body & Ebody & Hbody); [congruence|].
    destruct (encode_ascii ((N.of_nat ra + 32)%N :: body ++ [(N.of_nat rb + 32)%N]))
      as (out & Eout & _).
    { constructor; [lia|]. apply Forall_app. split.
      - exact (substituted_ascii cra crb val body Ab Hascii Hbody).
      - constructor; [lia | constructor]. }
    exists out.
    pose proof (redraw_first ra rb rejected rest Hrej Hne H0) as Hredraw.
    unfold RPCConnection.encrypt, bind, randint, RPCConnection.redraw, lift.
    rewrite Hrand. simpl rand.
    destruct (rejected ++ rb :: rest) as [|r0 draws] eqn:Hd.
    { destruct rejected; discriminate. }
    simpl rand. rewrite Hredraw, Ea, Eb.
    unfold chr.
    replace (N.of_nat ra + 32 <? 0x110000)%N with true by (symmetry; apply N.ltb_lt; lia).
    replace (N.of_nat rb + 32 <? 0x110000)%N with true by (symmetry; apply N.ltb_lt; lia).
    rewrite Ebody, Eout. reflexivity.
Qed.

(** The draws 3 and 7, and a plaintext with the character [^], which no
    row holds. *)
Lemma cipher_round_trip_witness :
  let r := RPCConnection.encrypt (u "DOC^1;pw.") (Scenario.network []) in
  let out := ["#"%byte; "C"%byte; "g"%byte; "w"%byte; "^"%byte; "J"%byte;
              "Q"%byte; "!"%byte; "="%byte; "7"%byte; "'"%byte] in
  exists ra rb cra crb body,
    RPCConnection.index RPCConnection.CIPHER ra = Ok cra /\
    RPCConnection.index RPCConnection.CIPHER rb = Ok crb /\
    rb <> ra /\ rb <> 0 /\
    decode out = Ok ((N.of_nat ra + 32)%N :: body ++ [(N.of_nat rb + 32)%N]) /\
    Forall2 (round_trips cra crb) (u "DOC^1;pw.") body /\
    Reader.decrypt out = Some (u "DOC^1;pw.").
Proof.
  intros r out.
  apply (proj1 (cipher_round_trip (u "DOC^1;pw.") (Scenario.network [])) out (snd r)).
  vm_compute. reflexivity.
Defined.

(** ** The selectors of [encrypt] *)

(** X8. Whenever [encrypt] returns, the first and the last byte of what
    it returns name two rows of the table that differ, and the last one
    never names row 0: the first byte is [32 + ra] with [ra] at most 19,
    the last is [32 + rb] with [rb] from 1 to 19 and other than [ra].
    The draws may be any. *)
Theorem encrypt_selectors (val : str) (w w' : World) (out : bytes) :
  RPCConnection.encrypt val w = (Ok out, w') ->
  exists ra rb mid,
    out = byte_of_N (N.of_nat ra + 32) :: mid ++ [byte_of_N (N.of_nat rb + 32)] /\
    ra <= 19 /\ 1 <= rb <= 19 /\ rb <> ra.
Proof.
  unfold RPCConnection.encrypt, bind, lift, randint, RPCConnection.redraw.
  destruct (rand w) as [|ra draws]; [discriminate|]. cbn [rand with_rand].
  destruct draws as [|rb0 draws]; [discriminate|]. cbn [rand with_rand].
  destruct (RPCConnection.redraw_from ra rb0 draws) as [[rb|e|] rest] eqn:Hre;
    try discriminate.
  apply redraw_from_Ok in Hre as [Hne H0].
  unfold RPCConnection.index.
  destruct (nth_error RPCConnection.CIPHER ra) as [cra|] eqn:Hra; [|discriminate].
  destruct (nth_error RPCConnection.CIPHER rb) as [crb|] eqn:Hrb; [|discriminate].
  assert (ra < length RPCConnection.CIPHER) as Hlt_a
      by (apply nth_error_Some; rewrite Hra; discriminate).
  assert (rb < length RPCConnection.CIPHER) as Hlt_b
      by (apply nth_error_Some; rewrite Hrb; discriminate).
  change (length RPCConnection.CIPHER) with 20 in Hlt_a, Hlt_b.
  unfold chr.
  replace (N.of_nat ra + 32 <? 0x110000)%N with true by (symmetry; apply N.ltb_lt; lia).
  replace (N.of_nat rb + 32 <? 0x110000)%N with true by (symmetry; apply N.ltb_lt; lia).
  destruct (mapR (RPCConnection.encrypt_char cra crb) val) as [body|e|]; try discriminate.
  assert (forall n, n < 20 ->
             encode_char (N.of_nat n + 32) = Ok [byte_of_N (N.of_nat n + 32)]) as Hsel.
  { intros n Hn. unfold encode_char.
    replace (N.of_nat n + 32 <? 0x80)%N with true by (symmetry; apply N.ltb_lt; lia).
    reflexivity. }
  intros Hrun. injection Hrun as Henc _.
  apply rbind_Ok in Henc as (bc & Hc & Henc).
  apply rbind_Ok in Henc as (bs & Hbs & Hout).
  rewrite Hsel in Hc by trivial. injection Hc as <-. injection Hout as <-.
  apply encode_app_Ok in Hbs as (mid & z & _ & Hz & ->).
  cbn [encode] in Hz. rewrite Hsel in Hz by trivial. cbn [rbind app] in Hz.
  injection Hz as <-.
  exists ra, rb, mid. repeat split; trivial; lia.
Qed.

Lemma encrypt_selectors_witness :
  let r := RPCConnection.encrypt (u "DOCTOR1;DOCTOR1.") (Scenario.network []) in
  exists ra rb mid,
    ["#"%byte; "C"%byte; "g"%byte; "w"%byte; "l"%byte; "g"%byte; "#"%byte; "J"%byte;
     "Q"%byte; "C"%byte; "g"%byte; "w"%byte; "l"%byte; "g"%byte; "#"%byte; "J"%byte;
     "7"%byte; "'"%byte]
    = byte_of_N (N.of_nat ra + 32) :: mid ++ [byte_of_N (N.of_nat rb + 32)] /\
    ra <= 19 /\ 1 <= rb <= 19 /\ rb <> ra.
Proof.
  intros r.
  apply (encrypt_selectors (u "DOCTOR1;DOCTOR1.") (Scenario.network []) (snd r)).
  vm_compute. reflexivity.
Defined.

(** X9. With the table of lightweight_python_client, which has one row,
    [encrypt] never returns: the second row it looks up is never row 0,
    so the lookup raises [IndexError] (or the draws never end). *)
Theorem lightweight_encrypt_never_returns (val : str) (w : World) :
  fst (LightweightRPCConnection.encrypt val w) = Raise IndexError \/
  fst (LightweightRPCConnection.encrypt val w) = NoReturn.
Proof.
  unfold LightweightRPCConnection.encrypt, bind, lift, randint, RPCConnection.redraw.
  destruct (rand w) as [|ra draws]; [now right|]. cbn [rand with_rand].
  destruct draws as [|rb0 draws]; [now right|]. cbn [rand with_rand].
  destruct (RPCConnection.redraw_from ra rb0 draws) as [[rb|e|] rest] eqn:Hre.
  - apply redraw_from_Ok in Hre as [Hne H0]. left.
    unfold RPCConnection.index, LightweightRPCConnection.CIPHER.
    destruct ra as [|ra]; [|destruct ra; reflexivity].
    cbn [nth_error fst]. destruct rb as [|rb]; [congruence|].
    destruct rb; reflexivity.
  - exfalso. revert rb0 Hre. clear.
    induction draws as [|d draws IH]; intros rb0; cbn [RPCConnection.redraw_from];
      destruct ((rb0 =? ra) || (rb0 =? 0)); try discriminate. apply IH.
  - now right.
Qed.

(** ** The framing of long strings, and the order of a new pool *)

(** X16. The three digits of a length are needed for a request to be
    read back in one way only. A string of 1000 characters is written
    with a length of four digits, and the request is then the request
    of another parameter list: that of two strings of 100 and 896
    characters. *)
Theorem makeRequest_long_string_ambiguous
        (name a x : str) (isCommand : bool) :
  length a = 99 -> length x = 896 ->
  length (a ++ u "f0896" ++ x) = 1000 /\
  VistARPCConnection.makeRequest name [Scalar (a ++ u "f0896" ++ x)] isCommand =
  VistARPCConnection.makeRequest name [Scalar (48%N :: a); Scalar x] isCommand.
Proof.
  intros Ha Hx.
  assert (length (a ++ u "f0896" ++ x) = 1000) as Hlen.
  { rewrite !length_app, Ha, Hx. reflexivity. }
  split; [exact Hlen|].
  unfold VistARPCConnection.makeRequest.
  destruct (chr (N.of_nat (length name))) as [c|e|]; cbn [rbind]; trivial.
  do 2 f_equal. f_equal. f_equal. f_equal.
  cbn [map concat VistARPCConnection.paramspec].
  unfold VistARPCConnection.lenspec. rewrite Hlen. cbn [length]. rewrite Ha, Hx.
  change (VistARPCConnection.zfill3 (VistARPCConnection.str_of_nat 1000)) with (u "1000").
  change (VistARPCConnection.zfill3 (VistARPCConnection.str_of_nat 100)) with (u "100").
  change (VistARPCConnection.zfill3 (VistARPCConnection.str_of_nat 896)) with (u "896").
  rewrite app_nil_r.
  change (u "f0896") with ([102%N] ++ u "0896").
  change (u "0") with [48%N]. change (u "f") with [102%N].
  change (u "1000") with (u "100" ++ [48%N]).
  change (u "0896") with ([48%N] ++ u "896").
  rewrite <- !app_assoc. cbn [app]. reflexivity.
Qed.

Lemma makeRequest_long_string_ambiguous_witness :
  length (repeat 65%N 99 ++ u "f0896" ++ repeat 66%N 896) = 1000 /\
  VistARPCConnection.makeRequest (u "TIU SET DOCUMENT TEXT")
    [Scalar (repeat 65%N 99 ++ u "f0896" ++ repeat 66%N 896)] false =
  VistARPCConnection.makeRequest (u "TIU SET DOCUMENT TEXT")
    [Scalar (48%N :: repeat 65%N 99); Scalar (repeat 66%N 896)] false.
Proof.
  apply (makeRequest_long_string_ambiguous (u "TIU SET DOCUMENT TEXT")
           (repeat 65%N 99) (repeat 66%N 896) false).
  - apply repeat_length.
  - apply repeat_length.
Defined.

Lemma fold_left_put {A B} (f : B -> A) (l : list B) :
  forall q, fold_left (fun q i => f i :: q) l q = rev (map f l) ++ q.
Proof.
  induction l as [|i l IH]; intros q; cbn [fold_left map rev]; [reflexivity|].
  rewrite IH, <- app_assoc. reflexivity.
Qed.

Lemma rev_seq (n : nat) : rev (seq 0 n) = map (fun k => n - 1 - k) (seq 0 n).
Proof.
  induction n as [|n IH]; [reflexivity|].
  rewrite seq_S at 1. rewrite rev_app_distr. cbn [rev app Nat.add seq map].
  rewrite IH, <- seq_shift, map_map. f_equal; [lia|].
  apply map_ext_in. intros k Hk. apply in_seq in Hk. lia.
Qed.

Lemma prebuild_queue (brokerType : list N) (poolSize : Z) (host : list N) (port : Z)
      (access verify context : list N) :
  RPCConnectionPool.connectionQueue
    (RPCConnectionPool.prebuildConnections brokerType poolSize host port access verify context) =
  map (fun k =>
         if RPCConnectionPool.str_eqb brokerType (u "CIA")
         then RPCConnectionPool.CIA
                (CIARPCConnection.init host port access verify context (Z.of_nat k))
         else RPCConnectionPool.VistA
                (VistARPCConnection.init host port access verify context (Z.of_nat k)))
      (seq 1 (Z.to_nat poolSize)).
Proof.
  unfold RPCConnectionPool.prebuildConnections.
  cbn [RPCConnectionPool.connectionQueue].
  set (make := fun i : Z =>
         if RPCConnectionPool.str_eqb brokerType (u "CIA")
         then RPCConnectionPool.CIA (CIARPCConnection.init host port access verify context i)
         else RPCConnectionPool.VistA (VistARPCConnection.init host port access verify context i)).
  rewrite (fold_left_put make), app_nil_r, <- map_rev.
  unfold RPCConnectionPool.range_down. rewrite <- map_rev, rev_seq, !map_map.
  rewrite <- seq_shift, map_map.
  apply map_ext_in. intros k Hk. apply in_seq in Hk. subst make. cbv beta.
  replace (poolSize - Z.of_nat (Z.to_nat poolSize - 1 - k))%Z with (Z.of_nat (S k)) by lia.
  reflexivity.
Qed.

(** X17. A new pool holds its transports with [poolId] 1 on top of the
    queue and [poolSize] at its bottom, of the class that [brokerType]
    names, and none when [poolSize] is not positive: the first call
    borrows the transport with [poolId] 1. *)
Theorem prebuildConnections_queue
        (brokerType : str) (poolSize : Z) (host : str) (port : Z)
        (access verify context : str) :
  let make i :=
    if RPCConnectionPool.str_eqb brokerType (u "CIA")
    then RPCConnectionPool.CIA (CIARPCConnection.init host port access verify context i)
    else RPCConnectionPool.VistA (VistARPCConnection.init host port access verify context i) in
  let pool := RPCConnectionPool.prebuildConnections
                brokerType poolSize host port access verify context in
  RPCConnectionPool.connectionQueue pool =
    map (fun k => make (Z.of_nat k)) (seq 1 (Z.to_nat poolSize)) /\
  map poolId_of (RPCConnectionPool.connectionQueue pool) =
    map Z.of_nat (seq 1 (Z.to_nat poolSize)) /\
  (poolSize <= 0 -> RPCConnectionPool.connectionQueue pool = [])%Z.
Proof.
  intros make pool. subst pool. rewrite prebuild_queue. fold make.
  split; [reflexivity|]. split.
  - rewrite map_map. apply map_ext. intros k.
    subst make. cbv beta. destruct (RPCConnectionPool.str_eqb _ _); reflexivity.
  - intros Hz. replace (Z.to_nat poolSize) with 0 by lia. reflexivity.
Qed.

(** ** The sockets of a transport *)

#[local] Instance keeps_PreOrder {S} (I : S -> Prop) : PreOrder (keeps I).
Proof. split; [intros s H; exact H | intros a b c H1 H2 H; exact (H2 (H1 H))]. Qed.

Lemma steady_keeps_owns {A} (m : M RPCConnection.St A) :
  preserves steady m -> preserves (keeps owns) m.
Proof.
  intros H st Hown fd Hin. destruct (H st) as (Hself & (Hlive & _) & _).
  rewrite Hself. apply Hown. unfold RPCConnection.world in *. now rewrite <- Hlive.
Qed.

Lemma base_connect_keeps_owns : preserves (keeps owns) RPCConnection.connect.
Proof.
  intros [c w] Hown fd.
  assert (forall x, In x (live w) -> RPCConnection.sock c = Some x) as Hown' by exact Hown.
  clear Hown.
  unfold RPCConnection.connect, bind, gets, modify, ret, RPCConnection.liftW,
    RPCConnection.self, RPCConnection.world, socket_new, sock_connect, sock_close.
  cbn [fst snd].
  destruct (RPCConnection.sock c) as [old|] eqn:Hs; cbn [fst snd connects live log with_live
    with_next_fd with_connects next_fd].
  - assert (filter (fun x => negb (x =? old)) (live w) = []) as Hnil.
    { clear - Hown'. induction (live w) as [|x l IH]; [reflexivity|].
      cbn [filter]. assert (x = old) as -> by (specialize (Hown' x (or_introl eq_refl));
                                                congruence).
      rewrite Nat.eqb_refl. cbn [negb]. apply IH. intros y Hy. apply Hown'. now right. }
    destruct (connects w) as [|[|] rest]; cbn [snd fst live with_live with_connects log];
      intros H; cbn in H; rewrite ?Hnil in H; cbn in H; try tauto;
        destruct H as [<-|[]]; reflexivity.
  - assert (live w = []) as Hnil.
    { destruct (live w) as [|x l]; [reflexivity|].
      specialize (Hown' x (or_introl eq_refl)). discriminate. }
    destruct (connects w) as [|[|] rest]; cbn [snd fst live with_live with_connects log];
      intros H; cbn in H; rewrite ?Hnil in H; cbn in H; try tauto;
        destruct H as [<-|[]]; reflexivity.
Qed.

Lemma connect_keeps_owns : preserves (keeps owns) VistARPCConnection.connect.
Proof.
  unfold VistARPCConnection.connect.
  pres_with ltac:(auto using base_connect_keeps_owns, steady_keeps_owns, steady_handshake).
Qed.

Lemma invokeRPC_keeps_owns (name : list N) (params : list param) :
  preserves (keeps owns) (VistARPCConnection.invokeRPC name params).
Proof.
  assert (forall n p,
             preserves (keeps owns)
               (RPCConnection.exchange
                  (fun name params => lift (VistARPCConnection.makeRequest name params false))
                  n p)) as Hex.
  { intros n p. apply steady_keeps_owns. unfold RPCConnection.exchange.
    pres_with ltac:(auto using steady_send, steady_readToEndMarker). }
  unfold VistARPCConnection.invokeRPC, RPCConnection.invokeRPC.
  pres_with ltac:(auto using connect_keeps_owns).
Qed.

Lemma close_keeps_owns : preserves (keeps owns) RPCConnection.close.
Proof.
  intros [c w] Hown fd.
  assert (forall x, In x (live w) -> RPCConnection.sock c = Some x) as Hown' by exact Hown.
  clear Hown.
  unfold RPCConnection.close, bind, gets, ret, lift, RPCConnection.liftW,
    RPCConnection.self, RPCConnection.world.
  cbn [fst snd].
  destruct (RPCConnection.sock c) as [old|] eqn:Hs; cbn [fst snd]; [|rewrite Hs; apply Hown'].
  change (encode (u "#BYE#")) with (Ok ["#"%byte; "B"%byte; "Y"%byte; "E"%byte; "#"%byte]).
  cbv iota beta. unfold sock_send, sock_close.
  destruct (is_live old _); [destruct (sends _) as [|[|] rest]|];
    cbn [fst snd live log with_live with_sends]; rewrite ?Hs;
      try (intros H; apply filter_In in H as [H _]); auto.
Qed.

(** X10. A transport leaves no socket behind. If every open socket is
    the one the transport holds, this is still so after [connect], after
    [invokeRPC] with its reconnect, and after [close]: the socket that
    [connect] replaces has been closed. *)
Theorem transport_owns_its_sockets
        (st : RPCConnection.St) (name : str) (params : list param) :
  owns st ->
  owns (snd (VistARPCConnection.connect st)) /\
  owns (snd (VistARPCConnection.invokeRPC name params st)) /\
  owns (snd (RPCConnection.close st)).
Proof.
  intros H. repeat split.
  - now apply connect_keeps_owns.
  - now apply invokeRPC_keeps_owns.
  - now apply close_keeps_owns.
Qed.

Lemma transport_owns_its_sockets_witness :
  let st := (Scenario.vista_on 0,
             Scenario.connected (Scenario.empty_reply :: Scenario.handshake
                                 ++ [Scenario.reply "ok"])) in
  owns (snd (VistARPCConnection.connect st)) /\
  owns (snd (VistARPCConnection.invokeRPC (u "ORWU DT") [Scalar (u "NOW")] st)) /\
  owns (snd (RPCConnection.close st)).
Proof.
  intros st.
  apply (transport_owns_its_sockets st (u "ORWU DT") [Scalar (u "NOW")]).
  intros fd [<- | []]. reflexivity.
Defined.

(** X11. [close] on a socket that cannot send, because the peer is gone
    or the socket is closed already, raises the socket error of the
    [send] and does not reach [sock.close()]: the open sockets are as
    before, and the trace ends with the [send]. *)
Theorem close_send_failure (st : RPCConnection.St) (fd : nat) :
  RPCConnection.sock (RPCConnection.self st) = Some fd ->
  is_live fd (RPCConnection.world st) = false \/
  hd true (sends (RPCConnection.world st)) = false ->
  exists w,
    RPCConnection.close st = (Raise SocketError, (RPCConnection.self st, w)) /\
    live w = live (RPCConnection.world st) /\
    trace w = trace (RPCConnection.world st)
              ++ [ESend fd ["#"%byte; "B"%byte; "Y"%byte; "E"%byte; "#"%byte]].
Proof.
  destruct st as [c w]. cbn [RPCConnection.self RPCConnection.world fst snd].
  intros Hs Hfail.
  unfold RPCConnection.close, bind, gets, ret, lift, RPCConnection.liftW,
    RPCConnection.self, RPCConnection.world.
  cbn [fst snd]. rewrite Hs.
  change (encode (u "#BYE#")) with (Ok ["#"%byte; "B"%byte; "Y"%byte; "E"%byte; "#"%byte]).
  cbv iota beta. unfold sock_send. cbn [fst snd]. rewrite is_live_log.
  destruct (is_live fd w) eqn:Hl.
  - destruct Hfail as [|Hfail]; [discriminate|].
    cbn [sends log]. destruct (sends w) as [|[|] rest]; try discriminate.
    eexists. split; [reflexivity|]. split; reflexivity.
  - eexists. split; [reflexivity|]. split; reflexivity.
Qed.

Lemma close_send_failure_witness :
  exists w,
    RPCConnection.close (Scenario.vista_on 0, with_sends [false] (Scenario.connected [])) =
      (Raise SocketError, (Scenario.vista_on 0, w)) /\
    live w = [0] /\
    trace w = [ESend 0 ["#"%byte; "B"%byte; "Y"%byte; "E"%byte; "#"%byte]].
Proof.
  apply (close_send_failure
           (Scenario.vista_on 0, with_sends [false] (Scenario.connected [])) 0).
  - reflexivity.
  - right. reflexivity.
Defined.

(** X12. A first chunk of one or two characters that starts with NUL
    makes [readToEndMarker] raise [IndexError]: the chunk is empty once
    its first two characters are cut, and its last character is looked
    up all the same. The chunks that follow are not read. *)
Theorem readToEndMarker_short_first_chunk
        (st : RPCConnection.St) (fd : nat) (b : bytes) (more : str)
        (rest : list recv_result) :
  RPCConnection.sock (RPCConnection.self st) = Some fd ->
  is_live fd (RPCConnection.world st) = true ->
  recvs (RPCConnection.world st) = Chunk b :: rest ->
  decode b = Ok (0%N :: more) ->
  length more <= 1 ->
  RPCConnection.readToEndMarker st =
  (Raise IndexError, (RPCConnection.self st, with_recvs rest (RPCConnection.world st))).
Proof.
  destruct st as [c w]. cbn [RPCConnection.self RPCConnection.world fst snd].
  intros Hs Hl Hr Hd Hlen.
  unfold RPCConnection.readToEndMarker, bind, RPCConnection.the_sock,
    RPCConnection.self, RPCConnection.world.
  cbn [fst snd]. rewrite Hs. cbn [fst snd]. rewrite Hl, Hr.
  cbn [RPCConnection.read_chunks]. rewrite Hd.
  destruct more as [|x [|y more]]; cbn in Hlen; try lia; reflexivity.
Qed.

Lemma readToEndMarker_short_first_chunk_witness :
  RPCConnection.readToEndMarker
    (Scenario.vista_on 0, Scenario.connected [Chunk [x00; x00]; Scenario.reply "ok"]) =
  (Raise IndexError, (Scenario.vista_on 0, Scenario.connected [Scenario.reply "ok"])).
Proof.
  apply (readToEndMarker_short_first_chunk
           (Scenario.vista_on 0, Scenario.connected [Chunk [x00; x00]; Scenario.reply "ok"])
           0 [x00; x00] [0%N] [Scenario.reply "ok"]).
  - reflexivity.
  - reflexivity.
  - reflexivity.
  - reflexivity.
  - simpl. lia.
Defined.

(** ** When [invokeRPC] does not try again *)

Section NoRecovery.

Variable self_connect : M RPCConnection.St unit.
Variable self_makeRequest : str -> list param -> M RPCConnection.St str.

(** X13. [invokeRPC] tries again only after a socket error or an empty
    reply. A first attempt that reads a reply that is not empty, or
    that raises another exception (a reply that is not UTF-8, the
    [IndexError] of a short first chunk, a request that cannot be
    built), is final: its outcome and its state are those of
    [invokeRPC], and no [connect] follows. *)
Theorem invokeRPC_no_recovery
        (name : str) (params : list param)
        (st st0 : RPCConnection.St) (r : result str) (st1 : RPCConnection.St) :
  match RPCConnection.sock (RPCConnection.self st) with
  | None => self_connect st = (Ok tt, st0)
  | Some _ => st0 = st
  end ->
  RPCConnection.exchange self_makeRequest name params st0 = (r, st1) ->
  r <> Ok [] -> r <> Raise SocketError ->
  RPCConnection.invokeRPC self_connect self_makeRequest name params st = (r, st1).
Proof.
  intros Hprep Hfirst Hne Hns.
  unfold RPCConnection.invokeRPC. unfold bind at 1. unfold gets.
  destruct (RPCConnection.sock (RPCConnection.self st)) as [fd|].
  - subst st0. unfold bind at 1. unfold ret at 1.
    unfold bind at 1. unfold try_except_socket_error. rewrite Hfirst.
    destruct r as [[|c msg]|[]|]; try congruence; reflexivity.
  - unfold bind at 1. rewrite Hprep.
    unfold bind at 1. unfold try_except_socket_error. rewrite Hfirst.
    destruct r as [[|c msg]|[]|]; try congruence; reflexivity.
Qed.

End NoRecovery.

(** The reply is not UTF-8: the error reaches the caller, and the
    handshake that the broker would answer is never started. *)
Lemma invokeRPC_no_recovery_witness :
  let hook := fun name params => lift (VistARPCConnection.makeRequest name params false) in
  let st := (Scenario.vista_on 0, Scenario.connected (Chunk [xff] :: Scenario.handshake)) in
  RPCConnection.invokeRPC VistARPCConnection.connect hook (u "ORWU DT") [Scalar (u "NOW")] st =
  (Raise UnicodeDecodeError,
   snd (RPCConnection.exchange hook (u "ORWU DT") [Scalar (u "NOW")] st)).
Proof.
  intros hook st.
  apply (invokeRPC_no_recovery VistARPCConnection.connect hook
           (u "ORWU DT") [Scalar (u "NOW")] st st (Raise UnicodeDecodeError)).
  - reflexivity.
  - vm_compute. reflexivity.
  - discriminate.
  - discriminate.
Defined.

(** X14. A transport whose socket is closed, as [close] leaves it, can
    be used again: [invokeRPC] hands the request to the closed socket,
    the socket error of that [send] is caught, and the call goes on
    with [connect] and a second attempt. *)
Theorem invokeRPC_on_closed_socket
        (st : RPCConnection.St) (fd : nat) (name : str) (params : list param)
        (request : str) (data : bytes) :
  RPCConnection.sock (RPCConnection.self st) = Some fd ->
  is_live fd (RPCConnection.world st) = false ->
  VistARPCConnection.makeRequest name params false = Ok request ->
  encode request = Ok data ->
  VistARPCConnection.invokeRPC name params st =
  (VistARPCConnection.connect ;;
   RPCConnection.exchange
     (fun name params => lift (VistARPCConnection.makeRequest name params false))
     name params)
    (RPCConnection.self st, log (ESend fd data) (RPCConnection.world st)).
Proof.
  destruct st as [c w]. cbn [RPCConnection.self RPCConnection.world fst snd].
  intros Hs Hl Hreq Henc.
  unfold VistARPCConnection.invokeRPC, RPCConnection.invokeRPC.
  unfold bind at 1. unfold gets. cbn [RPCConnection.self fst]. rewrite Hs.
  unfold bind at 1. unfold ret at 1.
  unfold bind at 1. unfold try_except_socket_error.
  assert (RPCConnection.exchange
            (fun name params => lift (VistARPCConnection.makeRequest name params false))
            name params (c, w) = (Raise SocketError, (c, log (ESend fd data) w))) as ->.
  { unfold RPCConnection.exchange, bind, lift. rewrite Hreq.
    unfold RPCConnection.send, bind, RPCConnection.the_sock, lift, RPCConnection.liftW,
      RPCConnection.self, RPCConnection.world.
    cbn [fst snd]. rewrite Hs, Henc. unfold sock_send. cbn [fst snd].
    rewrite is_live_log, Hl. reflexivity. }
  reflexivity.
Qed.

Lemma invokeRPC_on_closed_socket_witness :
  let st := snd (RPCConnection.close
                   (Scenario.vista_on 0,
                    Scenario.connected (Scenario.handshake ++ [Scenario.reply "ok"]))) in
  VistARPCConnection.invokeRPC (u "XUS INTRO MSG") [] st =
  (VistARPCConnection.connect ;;
   RPCConnection.exchange
     (fun name params => lift (VistARPCConnection.makeRequest name params false))
     (u "XUS INTRO MSG") [])
    (RPCConnection.self st,
     log (ESend 0 (map (fun a => byte_of_N (N_of_ascii a))
                       (list_ascii_of_string "[XWB]11302")
                   ++ [x01; "1"%byte; x0d]
                   ++ map (fun a => byte_of_N (N_of_ascii a))
                          (list_ascii_of_string "XUS INTRO MSG54f")
                   ++ [x04]))
         (RPCConnection.world st)).
Proof.
  intros st.
  apply (invokeRPC_on_closed_socket st 0 (u "XUS INTRO MSG") []
           (u "[XWB]11302" ++ [1%N; 49%N; 13%N] ++ u "XUS INTRO MSG54f" ++ [4%N])).
  - reflexivity.
  - reflexivity.
  - reflexivity.
  - reflexivity.
Defined.

(** X15. When the broker's answer to [TCPConnect] does not start with
    [accept], the handshake raises with that answer and stops there:
    the one message sent is the [TCPConnect] request, no random number
    has been drawn, so neither the access and verify codes nor the
    context have been encrypted or sent. *)
Theorem handshake_rejected_sends_no_credentials
        (st st1 st2 : RPCConnection.St) (fd : nat) (ip tcpConnect connectReply : str) :
  RPCConnection.sock (RPCConnection.self st) = Some fd ->
  local_ip (RPCConnection.world st) = Ok ip ->
  VistARPCConnection.makeRequest (u "TCPConnect")
    [Scalar ip; Scalar (u "0"); Scalar (u "FMQL")] true = Ok tcpConnect ->
  RPCConnection.send tcpConnect st = (Ok tt, st1) ->
  RPCConnection.readToEndMarker st1 = (Ok connectReply, st2) ->
  VistARPCConnection.re_match (u "accept") connectReply = false ->
  VistARPCConnection.handshake st =
    (Raise (Exception (u "VistARPCConnection") connectReply), st2) /\
  rand (RPCConnection.world st2) = rand (RPCConnection.world st) /\
  exists data,
    encode tcpConnect = Ok data /\
    trace (RPCConnection.world st2) = trace (RPCConnection.world st) ++ [ESend fd data].
Proof.
  destruct st as [c w]. cbn [RPCConnection.self RPCConnection.world fst snd].
  intros Hs Hip Hreq Hsend Hread Hrej.
  split.
  - unfold VistARPCConnection.handshake.
    unfold bind at 1. unfold RPCConnection.liftW, gethostbyname.
    cbn [RPCConnection.self RPCConnection.world fst snd]. rewrite Hip.
    unfold bind at 1. unfold lift at 1. rewrite Hreq.
    unfold bind at 1. rewrite Hsend.
    unfold bind at 1. rewrite Hread. rewrite Hrej. reflexivity.
  - unfold RPCConnection.send, bind, RPCConnection.the_sock, lift, RPCConnection.liftW,
      RPCConnection.self, RPCConnection.world in Hsend.
    cbn [fst snd] in Hsend. rewrite Hs in Hsend.
    destruct (encode tcpConnect) as [data|e|] eqn:Henc; try discriminate.
    unfold sock_send in Hsend. cbn [fst snd] in Hsend.
    assert (rand (RPCConnection.world st1) = rand w /\
            trace (RPCConnection.world st1) = trace w ++ [ESend fd data] /\
            RPCConnection.sock (RPCConnection.self st1) = Some fd) as (Hr1 & Ht1 & Hs1).
    { destruct (is_live fd _); [destruct (sends _) as [|[|] rest]|];
        try discriminate; injection Hsend as <-; repeat split; trivial. }
    unfold RPCConnection.readToEndMarker, bind, RPCConnection.the_sock in Hread.
    rewrite Hs1 in Hread.
    destruct (is_live fd (RPCConnection.world st1)); [|discriminate].
    destruct (RPCConnection.read_chunks _ _ _) as [r rest].
    injection Hread as _ <-. cbn [RPCConnection.world snd rand trace with_recvs].
    split; [exact Hr1|]. exists data. split; [reflexivity | exact Ht1].
Qed.

Lemma handshake_rejected_sends_no_credentials_witness :
  let st := (Scenario.vista_on 0, Scenario.connected [Scenario.reply "reject"]) in
  let tcpConnect := u "[XWB]11304" ++ [10%N] ++ u "TCPConnect50" ++ u "00810.0.0.7f"
                      ++ u "00010f" ++ u "0004FMQLf" ++ [4%N] in
  let st1 := snd (RPCConnection.send tcpConnect st) in
  let st2 := snd (RPCConnection.readToEndMarker st1) in
  VistARPCConnection.handshake st =
    (Raise (Exception (u "VistARPCConnection") (u "reject")), st2) /\
  rand (RPCConnection.world st2) = rand (RPCConnection.world st) /\
  exists data,
    encode tcpConnect = Ok data /\
    trace (RPCConnection.world st2) = trace (RPCConnection.world st) ++ [ESend 0 data].
Proof.
  intros st tcpConnect st1 st2.
  apply (handshake_rejected_sends_no_credentials st st1 st2 0 (u "10.0.0.7")
           tcpConnect (u "reject")).
  - reflexivity.
  - reflexivity.
  - vm_compute. reflexivity.
  - vm_compute. reflexivity.
  - vm_compute. reflexivity.
  - reflexivity.
Defined.

(** ** [preconnect] of the pool *)

(** [connect] of a VistA transport changes one field of it, [sock],
    which then is the socket it has made. *)
Lemma vista_connect_self (st : RPCConnection.St) :
  RPCConnection.self (snd (VistARPCConnection.connect st)) =
  RPCConnection.with_sock (Some (next_fd (RPCConnection.world st))) (RPCConnection.self st).
Proof.
  destruct (base_connect_spec st) as (r & w & Hbase & Hr).
  unfold VistARPCConnection.connect, bind. rewrite Hbase.
  destruct Hr as [[-> _] | ->]; [|reflexivity].
  destruct (steady_handshake
              (RPCConnection.with_sock (Some (next_fd (RPCConnection.world st)))
                                       (RPCConnection.self st), w)) as [Hself _].
  exact Hself.
Qed.

Section PreconnectFacts.

Import RPCConnectionPool.

Variable cia_connect : M (CIARPCConnection.t * World) unit.

(** What [connect] is known to keep of a pooled transport. *)
Variable P : connection -> connection -> Prop.
Hypothesis connect_keeps : forall c w,
    P c (fst (snd (connection_connect cia_connect (c, w)))).

Lemma connect_each_spec (n : nat) :
  forall (acc : list connection) (pool : t) (w : World),
    match connect_each cia_connect n acc (pool, w) with
    | (Ok cs, (pool', w')) =>
      n <= length (connectionQueue pool) /\
      connectionQueue pool' = skipn n (connectionQueue pool) /\
      poolSize pool' = poolSize pool /\
      exists new, cs = acc ++ new /\ Forall2 P (firstn n (connectionQueue pool)) new
    | (Raise e, (pool', w')) =>
      exists lost, 1 <= lost <= n /\ lost <= length (connectionQueue pool) /\
                   connectionQueue pool' = skipn lost (connectionQueue pool) /\
                   poolSize pool' = poolSize pool
    | (NoReturn, _) => True
    end.
Proof.
  induction n as [|n IH]; intros acc pool w.
  - cbn [connect_each ret]. repeat split; try lia.
    exists []. rewrite app_nil_r. split; [reflexivity | constructor].
  - cbn [connect_each].
    destruct (connectionQueue pool) as [|c rest] eqn:Hq; [exact I|].
    pose proof (connect_keeps c w) as Hc.
    destruct (connection_connect cia_connect (c, w)) as [[[]|e|] [c' w']];
      cbn [fst snd] in Hc.
    + specialize (IH (acc ++ [c']) (with_queue rest pool) w').
      destruct (connect_each cia_connect n (acc ++ [c']) (with_queue rest pool, w'))
        as [[cs|e|] [pool' w'']]; cbn [with_queue connectionQueue poolSize] in IH.
      * destruct IH as (Hn & Hrest & Hsize & new & -> & Hall).
        cbn [length skipn firstn]. repeat split; try lia; trivial.
        exists (c' :: new). rewrite <- app_assoc. split; [reflexivity | now constructor].
      * destruct IH as (lost & Hl & Hlen & Hrest & Hsize).
        exists (S lost). cbn [length skipn]. repeat split; try lia; trivial.
      * exact I.
    + exists 1. cbn [length skipn with_queue connectionQueue poolSize].
      repeat split; lia.
    + exact I.
Qed.

Lemma put_each_spec (cs : list connection) (n : nat) :
  forall (i : nat) (pool : t) (w : World),
    i + n <= length cs ->
    put_each (seq i n) cs (pool, w) =
    (Ok tt, (with_queue (rev (firstn n (skipn i cs)) ++ connectionQueue pool) pool, w)).
Proof.
  induction n as [|n IH]; intros i pool w Hlen.
  - cbn [seq put_each ret firstn rev app]. destruct pool; reflexivity.
  - cbn [seq put_each]. unfold bind at 1, lift, RPCConnection.index.
    destruct (nth_error cs i) as [c|] eqn:Hc.
    2:{ apply nth_error_None in Hc. lia. }
    unfold bind at 1, modify. rewrite IH by lia.
    cbn [with_queue connectionQueue poolSize].
    assert (skipn i cs = c :: skipn (S i) cs) as ->.
    { clear - Hc. revert i Hc. induction cs as [|x cs IHcs]; intros [|i] Hc;
        cbn in *; try discriminate.
      - now injection Hc as ->.
      - now apply IHcs. }
    cbn [firstn rev]. rewrite <- app_assoc. reflexivity.
Qed.

(** [preconnect] as a whole: the transports it has connected go back on
    the queue, the last one connected on top; when a [connect] raises,
    the queue has lost the transports borrowed so far. *)
Lemma preconnect_spec (number : Z) (pool : t) (w : World) :
  let k := Z.to_nat (Z.min number (poolSize pool)) in
  match preconnect cia_connect number (pool, w) with
  | (Ok _, (pool', w')) =>
    k <= length (connectionQueue pool) /\
    poolSize pool' = poolSize pool /\
    exists new, Forall2 P (firstn k (connectionQueue pool)) new /\
                connectionQueue pool' = rev new ++ skipn k (connectionQueue pool)
  | (Raise e, (pool', w')) =>
    exists lost, 1 <= lost <= k /\ lost <= length (connectionQueue pool) /\
                 connectionQueue pool' = skipn lost (connectionQueue pool)
  | (NoReturn, _) => True
  end.
Proof.
  intros k. unfold preconnect. unfold bind at 1, gets. cbn [fst].
  assert ((if (number >? poolSize pool)%Z then poolSize pool else number) =
          Z.min number (poolSize pool)) as ->.
  { destruct (Z.gtb_spec number (poolSize pool)); lia. }
  fold k. unfold bind.
  pose proof (connect_each_spec k [] pool w) as H.
  destruct (connect_each cia_connect k [] (pool, w)) as [[cs|e|] [pool1 w1]].
  - destruct H as (Hk & Hq & Hsize & new & -> & Hall). cbn [app] in *.
    assert (length new = k) as Hlen.
    { apply Forall2_length in Hall. rewrite length_firstn in Hall. lia. }
    rewrite put_each_spec by (cbn; lia).
    cbn [skipn].
    replace (firstn k new) with new by (rewrite <- Hlen; symmetry; apply firstn_all).
    cbn [with_queue connectionQueue poolSize]. repeat split; trivial.
    exists new. rewrite Hq. split; trivial.
  - destruct H as (lost & Hl & Hlen & Hq & _). exists lost. repeat split; trivial; lia.
  - exact I.
Qed.

End PreconnectFacts.

(** X3. When [preconnect] of a pool returns, the pool holds the same
    transports as before: the [k] it has connected, where [k] is
    [number] cut down to [poolSize], are back on the queue in reverse
    order, the others below them are as they were, and every VistA
    transport among the [k] now holds a socket. The queue had at least
    [k] transports. *)
Theorem preconnect_keeps_pool
        (cia_connect : M (CIARPCConnection.t * World) unit)
        (number : Z) (pool pool' : RPCConnectionPool.t) (w w' : World) :
  (forall x w0,
      RPCConnection.poolId (CIARPCConnection.base (fst (snd (cia_connect (x, w0))))) =
      RPCConnection.poolId (CIARPCConnection.base x)) ->
  RPCConnectionPool.preconnect cia_connect number (pool, w) = (Ok tt, (pool', w')) ->
  let k := Z.to_nat (Z.min number (RPCConnectionPool.poolSize pool)) in
  let ids := map poolId_of (RPCConnectionPool.connectionQueue pool) in
  k <= length (RPCConnectionPool.connectionQueue pool) /\
  RPCConnectionPool.poolSize pool' = RPCConnectionPool.poolSize pool /\
  map poolId_of (RPCConnectionPool.connectionQueue pool') = rev (firstn k ids) ++ skipn k ids /\
  Forall connected (firstn k (RPCConnectionPool.connectionQueue pool')).
Proof.
  intros Hcia Hrun k ids.
  pose proof (preconnect_spec cia_connect
                (fun c c' => poolId_of c' = poolId_of c /\ connected c')) as H.
  specialize (H ltac:(
    intros c w0; destruct c as [v|x]; cbn [RPCConnectionPool.connection_connect];
    [ pose proof (vista_connect_self (v, w0)) as Hv;
      destruct (VistARPCConnection.connect (v, w0)) as [r [v' w1]];
      cbn [fst snd RPCConnection.self RPCConnection.world poolId_of connected] in *;
      subst v'; split; [reflexivity | discriminate]
    | pose proof (Hcia x w0) as Hx;
      destruct (cia_connect (x, w0)) as [r [x' w1]];
      cbn [fst snd poolId_of connected] in *; split; [exact Hx | exact I] ])
    number pool w).
  rewrite Hrun in H. fold k in H.
  destruct H as (Hk & Hsize & new & Hall & Hq).
  assert (length new = k) as Hlen.
  { apply Forall2_length in Hall. rewrite length_firstn in Hall. lia. }
  assert (map poolId_of new = firstn k ids /\ Forall connected new) as [Hids Hconn].
  { subst ids. rewrite firstn_map. clear - Hall.
    induction Hall as [|c c' l l' [Hid Hc] _ [IH1 IH2]]; [split; [reflexivity|constructor]|].
    cbn [map]. split; [now rewrite Hid, IH1 | now constructor]. }
  repeat split; trivial.
  - rewrite Hq, map_app, map_rev, Hids. subst ids. now rewrite skipn_map.
  - rewrite Hq. rewrite firstn_app, length_rev, Hlen, Nat.sub_diag. cbn [firstn].
    rewrite app_nil_r.
    replace (firstn k (rev new)) with (rev new)
      by (rewrite <- Hlen, <- length_rev; symmetry; apply firstn_all).
    now apply Forall_rev.
Qed.

(** A pool of two VistA transports, [preconnect(5)], a broker that
    answers two handshakes. *)
Lemma preconnect_keeps_pool_witness :
  let pool := RPCConnectionPool.prebuildConnections
                (u "VISTA") 2 (u "127.0.0.1") 9997 (u "DOCTOR1") (u "DOCTOR1.")
                (u "OR CPRS GUI CHART") in
  let w := Scenario.network (Scenario.handshake ++ Scenario.handshake) in
  let r := RPCConnectionPool.preconnect (raise TypeError) 5 (pool, w) in
  let pool' := fst (snd r) in
  let k := Z.to_nat (Z.min 5 (RPCConnectionPool.poolSize pool)) in
  let ids := map poolId_of (RPCConnectionPool.connectionQueue pool) in
  k <= length (RPCConnectionPool.connectionQueue pool) /\
  RPCConnectionPool.poolSize pool' = RPCConnectionPool.poolSize pool /\
  map poolId_of (RPCConnectionPool.connectionQueue pool') = rev (firstn k ids) ++ skipn k ids /\
  Forall connected (firstn k (RPCConnectionPool.connectionQueue pool')).
Proof.
  intros pool w r pool'.
  apply (preconnect_keeps_pool (raise TypeError) 5 pool pool' w (snd (snd r))).
  - intros x w0. reflexivity.
  - vm_compute. reflexivity.
Defined.

(** X4. When a [connect] raises in [preconnect], the error goes to the
    caller and the pool has lost transports: the one whose [connect]
    raised and every one connected before it in this call. None of them
    is put back. *)
Theorem preconnect_leaks_on_failure
        (cia_connect : M (CIARPCConnection.t * World) unit)
        (number : Z) (pool pool' : RPCConnectionPool.t) (w w' : World) (e : exn) :
  RPCConnectionPool.preconnect cia_connect number (pool, w) = (Raise e, (pool', w')) ->
  exists lost,
    1 <= lost <= Z.to_nat (Z.min number (RPCConnectionPool.poolSize pool)) /\
    lost <= length (RPCConnectionPool.connectionQueue pool) /\
    RPCConnectionPool.connectionQueue pool' =
      skipn lost (RPCConnectionPool.connectionQueue pool) /\
    length (RPCConnectionPool.connectionQueue pool') + lost =
      length (RPCConnectionPool.connectionQueue pool).
Proof.
  intros Hrun.
  pose proof (preconnect_spec cia_connect (fun _ _ => True) ltac:(intros; exact I)
                              number pool w) as H.
  rewrite Hrun in H. destruct H as (lost & Hl & Hlen & Hq).
  exists lost. repeat split; try lia; trivial.
  rewrite Hq, length_skipn. lia.
Qed.

(** A pool of two VistA transports; the broker answers the first
    handshake and refuses the second connection: the pool is empty. *)
Lemma preconnect_leaks_on_failure_witness :
  let pool := RPCConnectionPool.prebuildConnections
                (u "VISTA") 2 (u "127.0.0.1") 9997 (u "DOCTOR1") (u "DOCTOR1.")
                (u "OR CPRS GUI CHART") in
  let w := with_connects [true; false] (Scenario.network Scenario.handshake) in
  let r := RPCConnectionPool.preconnect (raise TypeError) 2 (pool, w) in
  exists lost,
    1 <= lost <= Z.to_nat (Z.min 2 (RPCConnectionPool.poolSize pool)) /\
    lost <= length (RPCConnectionPool.connectionQueue pool) /\
    RPCConnectionPool.connectionQueue (fst (snd r)) =
      skipn lost (RPCConnectionPool.connectionQueue pool) /\
    length (RPCConnectionPool.connectionQueue (fst (snd r))) + lost =
      length (RPCConnectionPool.connectionQueue pool).
Proof.
  intros pool w r.
  apply (preconnect_leaks_on_failure (raise TypeError) 2 pool (fst (snd r)) w
                                     (snd (snd r)) SocketError).
  vm_compute. reflexivity.
Defined.

(** ** The parameter classes and [l_invoke] of vavista/rpc.py *)

Section Dict.

Context {V : Type}.

Lemma dict_get_set (k k' : list N) (v : V) (d : list (list N * V)) :
  dict_get k' (dict_set k v d) = if list_eq_dec N.eq_dec k' k then Some v else dict_get k' d.
Proof.
  induction d as [|[k0 v0] d IH]; cbn [dict_set dict_get].
  - reflexivity.
  - destruct (list_eq_dec N.eq_dec k k0) as [->|Hk]; cbn [dict_get].
    + destruct (list_eq_dec N.eq_dec k' k0); reflexivity.
    + destruct (list_eq_dec N.eq_dec k' k0) as [->|Hk'].
      * destruct (list_eq_dec N.eq_dec k0 k); congruence.
      * exact IH.
Qed.

Lemma dict_set_keys (k : list N) (v : V) (d : list (list N * V)) :
  (In k (map fst d) /\ map fst (dict_set k v d) = map fst d) \/
  (~ In k (map fst d) /\ dict_set k v d = d ++ [(k, v)]).
Proof.
  induction d as [|[k0 v0] d IH]; cbn [dict_set map fst In app].
  - right. split; [tauto | reflexivity].
  - destruct (list_eq_dec N.eq_dec k k0) as [->|Hk]; cbn [map fst].
    + left. split; [now left | reflexivity].
    + destruct IH as [[Hin Heq] | [Hnin Heq]].
      * left. split; [now right | now rewrite Heq].
      * right. split; [intros [H|H]; congruence | now rewrite Heq].
Qed.

Lemma dict_set_NoDup (k : list N) (v : V) (d : list (list N * V)) :
  NoDup (map fst d) -> NoDup (map fst (dict_set k v d)).
Proof.
  intros Hd. destruct (dict_set_keys k v d) as [[_ ->] | [Hnin ->]]; trivial.
  rewrite map_app. cbn [map fst].
  apply NoDup_app; [trivial | repeat constructor; intros [] | ].
  intros x Hx [<- | []]. now apply Hnin.
Qed.

Lemma dict_get_app (k : list N) (d1 d2 : list (list N * V)) :
  dict_get k (d1 ++ d2) =
  match dict_get k d1 with
  | Some v => Some v
  | None => dict_get k d2
  end.
Proof.
  induction d1 as [|[k0 v0] d1 IH]; cbn [app dict_get]; [reflexivity|].
  destruct (list_eq_dec N.eq_dec k k0); [reflexivity | exact IH].
Qed.

Lemma dict_get_None (k : list N) (d : list (list N * V)) :
  ~ In k (map fst d) -> dict_get k d = None.
Proof.
  induction d as [|[k0 v0] d IH]; cbn [dict_get map fst In]; [reflexivity|].
  intros H. destruct (list_eq_dec N.eq_dec k k0) as [->|]; [tauto|]. apply IH. tauto.
Qed.

Lemma fold_dict_set (l : list (list N * V)) :
  forall d : list (list N * V),
    NoDup (map fst d) ->
    let d' := fold_left (fun d kv => dict_set (fst kv) (snd kv) d) l d in
    NoDup (map fst d') /\
    (forall k, dict_get k d' = match dict_get k (rev l) with
                               | Some v => Some v
                               | None => dict_get k d
                               end) /\
    (NoDup (map fst (d ++ l)) -> d' = d ++ l).
Proof.
  induction l as [|[k v] l IH]; intros d Hd; cbn [fold_left rev fst snd].
  - cbn zeta. rewrite app_nil_r. repeat split; trivial.
  - destruct (IH (dict_set k v d) (dict_set_NoDup k v d Hd)) as (Hn & Hget & Heq).
    cbn zeta. split; [exact Hn|]. split.
    + intros k'. rewrite Hget, dict_get_app, dict_get_set. cbn [dict_get].
      destruct (dict_get k' (rev l)); [reflexivity|].
      destruct (list_eq_dec N.eq_dec k' k); reflexivity.
    + intros Hnd.
      assert (~ In k (map fst d)) as Hnin.
      { rewrite map_app in Hnd. cbn [map fst] in Hnd.
        apply NoDup_remove_2 in Hnd. intros H. apply Hnd, in_or_app. now left. }
      destruct (dict_set_keys k v d) as [[Hin _] | [_ Hset]]; [tauto|].
      rewrite Hset in Heq |- *.
      rewrite Heq; rewrite <- app_assoc; [reflexivity | exact Hnd].
Qed.

End Dict.

(** X5. The [dict] that [PList] makes of a list of pairs has each key
    once, at the place of its first pair and with the value of its last
    pair; when the keys of the list are distinct it is the list itself,
    in its order. *)
Theorem PList_of_pairs (value : list (str * str)) :
  exists d,
    vavista_rpc.PList_init (vavista_rpc.OfList value) = Ok d /\
    NoDup (map fst d) /\
    (forall k, dict_get k d = dict_get k (rev value)) /\
    (forall k, In k (map fst d) <-> In k (map fst value)) /\
    (NoDup (map fst value) -> d = value).
Proof.
  exists (vavista_rpc.dict_of value). split; [reflexivity|].
  destruct (fold_dict_set value [] (NoDup_nil _)) as (Hn & Hget & Heq).
  fold (vavista_rpc.dict_of value) in Hn, Hget, Heq.
  assert (forall k, dict_get k (vavista_rpc.dict_of value) = dict_get k (rev value)) as Hget'.
  { intros k. rewrite Hget. cbn [dict_get]. now destruct (dict_get k (rev value)). }
  repeat split; trivial.
  - intros Hin. destruct (in_dec (list_eq_dec N.eq_dec) k (map fst value)) as [|Hnin]; trivial.
    exfalso.
    assert (dict_get k (rev value) = None) as Hnone.
    { apply dict_get_None. rewrite map_rev, <- in_rev. exact Hnin. }
    rewrite <- Hget' in Hnone. revert Hin Hnone. clear.
    induction (vavista_rpc.dict_of value) as [|[k0 v0] d IH]; cbn [map fst In dict_get].
    + tauto.
    + destruct (list_eq_dec N.eq_dec k k0) as [->|]; [discriminate|].
      intros [H|H]; [congruence | now apply IH].
  - intros Hin. destruct (in_dec (list_eq_dec N.eq_dec) k (map fst (vavista_rpc.dict_of value)))
      as [|Hnin]; trivial.
    exfalso. apply dict_get_None in Hnin. rewrite Hget' in Hnin.
    rewrite in_rev, <- map_rev in Hin. revert Hin Hnin. clear.
    induction (rev value) as [|[k0 v0] d IH]; cbn [map fst In dict_get].
    + tauto.
    + destruct (list_eq_dec N.eq_dec k k0) as [->|]; [discriminate|].
      intros [H|H]; [congruence | now apply IH].
Qed.

Section Lines.

Import vavista_rpc.

Lemma split_crlf_step (line : list N) (c d : N) (r : list N) :
  split_crlf line (c :: d :: r) =
  if ((c =? 13) && (d =? 10))%N then line :: split_crlf [] r
  else split_crlf (line ++ [c]) (d :: r).
Proof. reflexivity. Qed.

Lemma split_crlf_cons (n : nat) :
  forall (s line : list N), length s <= n ->
    exists first rest, split_crlf line s = first :: rest.
Proof.
  induction n as [|n IH]; intros s line Hlen.
  - destruct s; [cbn; eauto | cbn in Hlen; lia].
  - destruct s as [|c [|d r]]; [cbn; eauto | cbn; eauto |].
    rewrite split_crlf_step.
    destruct ((c =? 13) && (d =? 10))%N; eauto.
    apply IH. cbn [length] in *. lia.
Qed.

Lemma join_cons (sep x : list N) (l : list (list N)) :
  l <> [] -> join sep (x :: l) = x ++ sep ++ join sep l.
Proof. destruct l; [congruence | reflexivity]. Qed.

Lemma join_split_crlf (n : nat) :
  forall (s line : list N), length s <= n ->
    join [13; 10]%N (split_crlf line s) = line ++ s.
Proof.
  induction n as [|n IH]; intros s line Hlen.
  - destruct s; [cbn; now rewrite app_nil_r | cbn in Hlen; lia].
  - destruct s as [|c [|d r]].
    + cbn. now rewrite app_nil_r.
    + reflexivity.
    + rewrite split_crlf_step.
      destruct ((c =? 13) && (d =? 10))%N eqn:E.
      * apply andb_prop in E as [Ec Ed].
        apply N.eqb_eq in Ec, Ed. subst c d.
        destruct (split_crlf_cons (length r) r [] (le_n _)) as (f & rest & Hs).
        rewrite join_cons by (rewrite Hs; discriminate).
        rewrite IH by (cbn [length] in *; lia). reflexivity.
      * rewrite IH by (cbn [length] in *; lia).
        rewrite <- app_assoc. reflexivity.
Qed.

Lemma split_crlf_trailing (n : nat) :
  forall (s line : list N), length s <= n ->
    split_crlf line (s ++ [13; 10]%N) = split_crlf line s ++ [[]].
Proof.
  induction n as [|n IH]; intros s line Hlen.
  - destruct s; [reflexivity | cbn in Hlen; lia].
  - destruct s as [|c [|d r]].
    + reflexivity.
    + cbn [app split_crlf].
      destruct (c =? 13)%N; cbn [andb]; reflexivity.
    + change ((c :: d :: r) ++ [13; 10]%N) with (c :: d :: (r ++ [13; 10]%N)).
      rewrite !split_crlf_step.
      destruct ((c =? 13) && (d =? 10))%N.
      * rewrite IH by (cbn [length] in *; lia). reflexivity.
      * change (d :: r ++ [13; 10]%N) with ((d :: r) ++ [13; 10]%N).
        rewrite IH by (cbn [length] in *; lia). reflexivity.
Qed.

End Lines.

(** X6. The lines that [l_invoke] returns are never an empty list, and
    joined by CR LF they give back the reply that [invoke] returns for
    the same call: no character of the reply is lost. *)
Theorem l_invoke_lines
        (rpcid : str) (params : list vavista_rpc.arg)
        (st st' : RPCConnection.St) (lines : list str) :
  vavista_rpc.l_invoke rpcid params st = (Ok lines, st') ->
  lines <> [] /\
  vavista_rpc.invoke rpcid params st = (Ok (join [13; 10]%N lines), st').
Proof.
  unfold vavista_rpc.l_invoke, bind, ret.
  destruct (vavista_rpc.invoke rpcid params st) as [[response|e|] st1]; try discriminate.
  intros [= <- <-]. split.
  - destruct (split_crlf_cons (length response) response [] (le_n _)) as (f & r & ->).
    discriminate.
  - now rewrite (join_split_crlf (length response)).
Qed.

Lemma l_invoke_lines_witness :
  let st := (Scenario.vista_on 0,
             Scenario.connected [Chunk ["a"%byte; x0d; x0a; "b"%byte; x0d; x0a; x04]]) in
  let r := vavista_rpc.l_invoke (u "ORWU USERINFO") [vavista_rpc.PLiteral (u "1")] st in
  [u "a"; u "b"; []] <> [] /\
  vavista_rpc.invoke (u "ORWU USERINFO") [vavista_rpc.PLiteral (u "1")] st =
    (Ok (join [13; 10]%N [u "a"; u "b"; []]), snd r).
Proof.
  intros st r.
  apply (l_invoke_lines (u "ORWU USERINFO") [vavista_rpc.PLiteral (u "1")] st (snd r)
                        [u "a"; u "b"; []]).
  vm_compute. reflexivity.
Defined.

(** X7. A reply that ends with CR LF, as the lines of a VistA reply do,
    gives a list that ends with an empty string: [l_invoke] returns the
    lines of the text before that CR LF, and [''] after them. *)
Theorem l_invoke_trailing_empty_line
        (rpcid : str) (params : list vavista_rpc.arg)
        (st st' : RPCConnection.St) (text : str) :
  vavista_rpc.invoke rpcid params st = (Ok (text ++ [13; 10]%N), st') ->
  exists lines,
    vavista_rpc.l_invoke rpcid params st = (Ok (lines ++ [[]]), st') /\
    join [13; 10]%N lines = text.
Proof.
  intros Hinv. unfold vavista_rpc.l_invoke, bind, ret. rewrite Hinv.
  exists (vavista_rpc.split_crlf [] text). split.
  - now rewrite (split_crlf_trailing (length text)).
  - now rewrite (join_split_crlf (length text)).
Qed.

Lemma l_invoke_trailing_empty_line_witness :
  let st := (Scenario.vista_on 0,
             Scenario.connected [Chunk ["a"%byte; x0d; x0a; "b"%byte; x0d; x0a; x04]]) in
  let r := vavista_rpc.invoke (u "ORWU USERINFO") [vavista_rpc.PLiteral (u "1")] st in
  exists lines,
    vavista_rpc.l_invoke (u "ORWU USERINFO") [vavista_rpc.PLiteral (u "1")] st =
      (Ok (lines ++ [[]]), snd r) /\
    join [13; 10]%N lines = [97; 13; 10; 98]%N.
Proof.
  intros st r.
  apply (l_invoke_trailing_empty_line (u "ORWU USERINFO") [vavista_rpc.PLiteral (u "1")]
                                      st (snd r) [97; 13; 10; 98]%N).
  vm_compute. reflexivity.
Defined.

(** ** [connect] of the CIA transport *)

(** X20. [connect] of a CIA transport never completes. It makes the TCP
    connection of the base class; when that raises, so does [connect];
    when it succeeds, the first request cannot be built, because
    [__byteIt] is given the [str] key [IP], and [connect] raises
    [TypeError]. Nothing has been sent: the transport and the
    environment are as the base [connect] has left them, the sequence
    number apart. *)
Theorem CIA_connect_raises
        (connect_rest : CIARPCConnection.field -> M CIARPCConnection.St unit)
        (c : CIARPCConnection.t) (w : World) :
  (0 <= CIARPCConnection.sequence c <= 255)%Z ->
  let tcp := RPCConnection.connect (CIARPCConnection.base c, w) in
  CIARPCConnection.connect connect_rest (c, w) =
  match fst tcp with
  | Ok _ =>
    (Raise TypeError,
     (CIARPCConnection.mk (fst (snd tcp))
                          (if (CIARPCConnection.sequence c =? 255)%Z then 1
                           else CIARPCConnection.sequence c + 1)%Z
                          (CIARPCConnection.uid c),
      snd (snd tcp)))
  | Raise e =>
    (Raise e,
     (CIARPCConnection.mk (fst (snd tcp)) (CIARPCConnection.sequence c)
                          (CIARPCConnection.uid c),
      snd (snd tcp)))
  | NoReturn =>
    (NoReturn,
     (CIARPCConnection.mk (fst (snd tcp)) (CIARPCConnection.sequence c)
                          (CIARPCConnection.uid c),
      snd (snd tcp)))
  end.
Proof.
  intros Hs tcp. subst tcp.
  unfold CIARPCConnection.connect. unfold bind at 1. unfold CIARPCConnection.liftBase.
  destruct (RPCConnection.connect (CIARPCConnection.base c, w)) as [[[]|e|] [b w1]];
    cbn [fst snd]; try reflexivity.
  unfold bind, CIARPCConnection.liftSelf.
  rewrite makeCIARequest_str_key; [reflexivity | exact Hs | vm_compute; reflexivity].
Qed.

(** A broker that accepts the connection: [TypeError], and the socket
    is open. *)
Lemma CIA_connect_raises_witness :
  let c := CIARPCConnection.init (u "127.0.0.1") 9997 (u "a") (u "v") (u "c") 1 in
  let w := Scenario.network [] in
  CIARPCConnection.connect (fun _ => ret tt) (c, w) =
  (Raise TypeError,
   (CIARPCConnection.mk (RPCConnection.with_sock (Some 0) (CIARPCConnection.base c)) 1 [],
    with_live [0] (log (EConnect 0 (u "127.0.0.1") 9997) (with_next_fd 1 w)))).
Proof.
  intros c w.
  apply (CIA_connect_raises (fun _ => ret tt) c w).
  simpl. lia.
Defined.


